(** * WebProwler: the snapshot builder, the planner loop and the recorder

    A shallow embedding of the parts of the extension that its design
    document makes promises about:

    - [Parser]   the accessibility-tree parser (content/parser.ts, in its
                 later version, with shadow roots and iframes): the ref
                 table, [buildNode], [serializeNode], [takeSnapshot];
    - [Planner]  the micro-batch planner (lib/planner/index.ts, in its
                 later version, with retries and smart context trimming):
                 [backoffMs], [callLLMWithRetry], [getPlanFromLLM],
                 [trimConversation], [runPlanner];
    - [Earlier]  the same file in its earlier version, without retries,
                 which guards no snapshot and trims to the system prompt
                 and the last ten messages;
    - [Recorder] the task recorder and replayer (lib/recorder/index.ts);
    - [Provider] the requests of the model providers and the errors they
                 throw (lib/llm/provider.ts);
    - [PlanJson] the validation of a parsed plan ([parsePlan] of the
                 planner, after [JSON.parse]);
    - [Props]    [getProps] of the parser, on what it reads of an element;
    - [Messaging] the replies of the content script (content/index.ts)
                 and what the service worker makes of them
                 (background/service-worker.ts);
    - [TabManager] [ensureContentScript] (background/tab-manager.ts).

    The definitions come first, module by module; the properties follow
    under "Properties", in modules named after what they are about.

    JavaScript strings are modelled by [string]; one character of the model
    stands for one UTF-16 code unit, so [String.length] is the [.length] of
    the source.  JavaScript numbers that only ever hold integers are [Z] or
    [nat]; the back-off waits, which are computed with [Math.pow], are exact
    rationals ([Q]); a number that is only printed is kept by its text
    ([Js.number]). *)

From Stdlib Require Import ZArith QArith Qminmax Qpower Lia Lqa Ascii String.
From stdpp Require Import base option list gmap strings pretty.

Close Scope Q_scope.
Open Scope Z_scope.

(** ** JavaScript string helpers *)

Module Js.

(** ["\n"] and the double quote, written by character code. *)
Definition nl : string := String "010"%char EmptyString.
Definition dquote : string := String "034"%char EmptyString.

(** The ellipsis U+2026 is one UTF-16 code unit; it is represented by one
    character of the model (code 133). *)
Definition ellipsis : string := String "133"%char EmptyString.

(** Truthiness of a string: the empty string is falsy. *)
Definition truthy (s : string) : bool :=
  match s with EmptyString => false | String _ _ => true end.

(** [a || b] on strings. *)
Definition or_else (a b : string) : string := if truthy a then a else b.

(** [s.length] as a number. *)
Definition len (s : string) : Z := Z.of_nat (String.length s).

(** [s.slice(0, n)] for a non-negative literal [n]. *)
Definition slice0 (n : nat) (s : string) : string := String.substring 0 n s.

(** [sep.repeat]-style helpers: [s.repeat(n)] and [parts.join(sep)]. *)
Fixpoint repeat (s : string) (n : nat) : string :=
  match n with O => EmptyString | S n' => s +:+ repeat s n' end.

Fixpoint join (sep : string) (parts : list string) : string :=
  match parts with
  | [] => EmptyString
  | [p] => p
  | p :: ps => p +:+ sep +:+ join sep ps
  end.

(** A number that the code does nothing with but interpolate it into a
    template string, as the [ms] of a wait action, which comes from the
    model's JSON and may be any number: it is kept by the text that the
    interpolation gives ("250", "0.5", "1e+21"). *)
Record number := mkNumber { number_text : string }.

(** [hay.includes(needle)]. *)
Fixpoint includes (needle hay : string) : bool :=
  String.prefix needle hay ||
  match hay with
  | EmptyString => false
  | String _ hay' => includes needle hay'
  end.

End Js.

(** ** The accessibility-tree parser *)

Module Parser.

(** *** Ref management *)

(** A DOM element as an object: its identity. *)
Definition Element := nat.

(** Which objects the garbage collector has not reclaimed.  A [WeakRef]
    whose target is reclaimed derefs to [undefined]. *)
Definition Heap := Element -> bool.

Definition deref (heap : Heap) (target : Element) : option Element :=
  if heap target then Some target else None.

(** The module state: [refCounter], [elementsByRef] (a [Map] from ref to
    [WeakRef]) and [refsByElement] (a [WeakMap] from element to ref). *)
Record RefState := mkRefState {
  refCounter : nat;
  elementsByRef : gmap string Element;
  refsByElement : gmap Element string;
}.

(** [`e${n}`] *)
Definition ref_of (n : nat) : string := "e" +:+ pretty n.

Definition create_ref (el : Element) (st : RefState) : string * RefState :=
  let n := S (refCounter st) in
  let ref := ref_of n in
  (ref, {| refCounter := n;
           elementsByRef := <[ref := el]> (elementsByRef st);
           refsByElement := <[el := ref]> (refsByElement st) |}).

Definition getOrCreateRef (heap : Heap) (el : Element) (st : RefState)
  : string * RefState :=
  match refsByElement st !! el with
  | Some existing =>
      if Js.truthy existing then
        match elementsByRef st !! existing ≫= deref heap with
        | Some stored =>
            if decide (stored = el) then (existing, st) else create_ref el st
        | None => create_ref el st
        end
      else create_ref el st
  | None => create_ref el st
  end.

Definition resolveRef (heap : Heap) (ref : string) (st : RefState)
  : option Element :=
  elementsByRef st !! ref ≫= deref heap.

(** The reset at the head of [takeSnapshot]: the counter and the ref map are
    cleared, the [WeakMap] is left as it is. *)
Definition reset_refs (st : RefState) : RefState :=
  {| refCounter := 0;
     elementsByRef := ∅;
     refsByElement := refsByElement st |}.

(** A run of [getOrCreateRef] calls, in order, as one snapshot build makes
    them; the refs handed out are returned in the same order. *)
Fixpoint assign_refs (heap : Heap) (els : list Element) (st : RefState)
  : list string * RefState :=
  match els with
  | [] => ([], st)
  | el :: els' =>
      let '(r, st1) := getOrCreateRef heap el st in
      let '(rs, st2) := assign_refs heap els' st1 in
      (r :: rs, st2)
  end.

(** *** The document, as [buildNode] observes it *)

(** What reading [iframe.contentDocument] gives: it throws (cross-origin),
    there is no document or no body, or there is a body. *)
Inductive FrameDoc (E : Type) : Type :=
  | FrameThrows
  | FrameNoBody
  | FrameBody (body : E).
Arguments FrameThrows {E}.
Arguments FrameNoBody {E}.
Arguments FrameBody {E} body.

(** A DOM element together with what the parser's queries return on it:
    the lower-cased tag, [isVisible], [isInViewport], [getRole],
    [isInteractive], [getAccessibleName], [getProps] (entries in insertion
    order), [getShallowText], [getChildElements] (shadow children when there
    is an open shadow root), and for an iframe its [title], [name], [src]
    and [contentDocument]. *)
#[warnings="-register-all"]
Inductive DomElement : Type := Dom {
  el_id : Element;
  el_tag : string;
  el_visible : bool;
  el_in_viewport : bool;
  el_role : string;
  el_interactive : bool;
  el_name : string;
  el_props : list (string * string);
  el_shallow_text : string;
  el_children : list DomElement;
  el_title : string;
  el_frame_name : string;
  el_src : string;
  el_content_document : FrameDoc DomElement;
}.

Definition SKIP_TAGS : list string :=
  ["script"; "style"; "noscript"; "meta"; "link"; "br"; "hr"; "svg"; "path";
   "defs"; "clippath"; "lineargradient"; "radialgradient"; "stop"; "symbol";
   "use"; "circle"; "rect"; "line"; "polyline"; "polygon"; "ellipse";
   "template"; "slot"].

(** [Set.has] / [Array.includes] on strings. *)
Definition has (x : string) (l : list string) : bool :=
  existsb (String.eqb x) l.

(** *** The snapshot tree *)

#[warnings="-register-all"]
Inductive PageNode : Type := Node {
  ref : string;
  role : string;
  name : string;
  tag : string;
  props : list (string * string);
  interactive : bool;
  depth : Z;
  children : list PageNode;
}.

Record PageSnapshot := mkSnapshot {
  url : string;
  title : string;
  tree : string;
  interactiveCount : Z;
  timestamp : Z;
}.

(** The loop that builds the children of a node:
    [for (const child of ...) { const childNode = build(child);
       if (childNode) children.push(childNode); }]. *)
Definition for_children {A : Type}
    (build : A -> RefState -> option PageNode * RefState)
  : list A -> RefState -> list PageNode * RefState :=
  fix loop (cs : list A) (st : RefState) : list PageNode * RefState :=
    match cs with
    | [] => ([], st)
    | child :: cs' =>
        let '(childNode, st1) := build child st in
        let '(rest, st2) := loop cs' st1 in
        (match childNode with
         | Some n => n :: rest
         | None => rest
         end, st2)
    end.

(** [buildNode].  The recursion follows the document: the children of an
    element, and the body of a same-origin iframe. *)
Fixpoint buildNode (heap : Heap) (el : DomElement) (depth maxDepth : Z)
    (viewportOnly : bool) (st : RefState) {struct el}
  : option PageNode * RefState :=
  let tag := el_tag el in
  if has tag SKIP_TAGS then (None, st) else
  if negb (el_visible el) then (None, st) else
  if maxDepth <? depth then (None, st) else
  if viewportOnly && negb (el_in_viewport el) then (None, st) else
  if String.eqb tag "iframe" then
    match el_content_document el with
    | FrameBody body =>
        let '(iframeNode, st1) :=
          buildNode heap body (depth + 1) maxDepth viewportOnly st in
        match iframeNode with
        | Some iframeNode =>
            let '(ref, st2) := getOrCreateRef heap (el_id el) st1 in
            (Some {| ref := ref;
                     role := "iframe";
                     name := Js.or_else (el_title el)
                               (Js.or_else (el_frame_name el) "");
                     tag := "iframe";
                     props := if Js.truthy (el_src el)
                              then [("src", el_src el)] else [];
                     interactive := false;
                     depth := depth;
                     children := children iframeNode |}, st2)
        | None => (None, st1)
        end
    | FrameNoBody => (None, st)
    | FrameThrows =>
        let '(ref, st1) := getOrCreateRef heap (el_id el) st in
        (Some {| ref := ref;
                 role := "iframe";
                 name := Js.or_else (el_title el) "(cross-origin)";
                 tag := "iframe";
                 props := [];
                 interactive := false;
                 depth := depth;
                 children := [] |}, st1)
    end
  else
    let role := el_role el in
    let interactive := el_interactive el in
    let name := el_name el in
    let props := el_props el in
    let '(children, st1) :=
      for_children
        (fun child => buildNode heap child (depth + 1) maxDepth viewportOnly)
        (el_children el) st in
    let unsemantic :=
      negb (Js.truthy role) && negb interactive && negb (Js.truthy name) in
    if unsemantic && (length children =? 1)%nat then (head children, st1)
    else if unsemantic && (length children =? 0)%nat
            && negb (Js.truthy (el_shallow_text el))
    then (None, st1)
    else
      let '(ref, st2) :=
        if interactive || Js.truthy role
        then getOrCreateRef heap (el_id el) st1
        else ("", st1) in
      (Some {| ref := ref; role := role; name := name; tag := tag;
               props := props; interactive := interactive; depth := depth;
               children := children |}, st2).

(** *** Serialization *)

(** The text of one line, built the same way by [serializeNode] and
    [serializeInteractive]: the pad, then role-or-tag, the quoted name, the
    bracketed ref and the [key=value] properties joined by single spaces. *)
Definition displayName (name : string) : string :=
  if (80 <? String.length name)%nat
  then Js.slice0 77 name +:+ Js.ellipsis else name.

Definition displayVal (v : string) : string :=
  if (60 <? String.length v)%nat
  then Js.slice0 57 v +:+ Js.ellipsis else v.

Definition node_line (node : PageNode) (indent : nat) : string :=
  let pad := Js.repeat "  " indent in
  let parts :=
    [Js.or_else (role node) (tag node)]
    ++ (if Js.truthy (name node)
        then [Js.dquote +:+ displayName (name node) +:+ Js.dquote] else [])
    ++ (if Js.truthy (ref node) then ["[" +:+ ref node +:+ "]"] else [])
    ++ map (fun kv => fst kv +:+ "=" +:+ displayVal (snd kv)) (props node) in
  pad +:+ Js.join " " parts.

(** [lines] and [charCount.count], threaded through the recursion. *)
Record Output := mkOutput {
  lines : list string;
  count : Z;
}.

Definition push_line (line : string) (out : Output) : Output :=
  {| lines := lines out ++ [line]; count := count out + Js.len line + 1 |}.

Fixpoint serializeNode (node : PageNode) (indent : nat) (maxChars : Z)
    (out : Output) {struct node} : Output :=
  if maxChars <=? count out then out else
  let out1 := push_line (node_line node indent) out in
  fold_left (fun o child => serializeNode child (S indent) maxChars o)
            (children node) out1.

Fixpoint nodeHasInteractive (node : PageNode) : bool :=
  interactive node || existsb nodeHasInteractive (children node).

Fixpoint serializeInteractive (node : PageNode) (indent : nat) (maxChars : Z)
    (out : Output) {struct node} : Output :=
  if maxChars <=? count out then out else
  if negb (nodeHasInteractive node) then out else
  let out1 := push_line (node_line node indent) out in
  fold_left (fun o child => serializeInteractive child (S indent) maxChars o)
            (children node) out1.

Fixpoint countInteractive (node : PageNode) (interactiveCount : Z) : Z :=
  fold_left (fun c child => countInteractive child c) (children node)
            (if interactive node then interactiveCount + 1
             else interactiveCount).

(** *** The public entry point *)

Inductive Filter := FilterAll | FilterInteractive.

Record SnapshotOptions := mkOptions {
  opt_filter : option Filter;
  opt_maxDepth : option Z;
  opt_maxChars : option Z;
  opt_viewportOnly : option bool;
}.

(** What [takeSnapshot] reads from the page: the root element
    ([document.body ?? document.documentElement]), [location.href],
    [document.title] and the clock. *)
Record Page := mkPage {
  page_root : DomElement;
  page_href : string;
  page_title : string;
  page_now : Z;
}.

(** The serialization step of [takeSnapshot]: fresh [lines] and
    [charCount], then one of the two serializers by [filter]. *)
Definition serialize (filter : Filter) (tree : PageNode) (maxChars : Z)
  : Output :=
  let out0 := {| lines := []; count := 0 |} in
  match filter with
  | FilterInteractive => serializeInteractive tree 0 maxChars out0
  | FilterAll => serializeNode tree 0 maxChars out0
  end.

Definition takeSnapshot (heap : Heap) (options : SnapshotOptions)
    (page : Page) (st : RefState) : PageSnapshot * RefState :=
  let filter := default FilterAll (opt_filter options) in
  let maxDepth := default 12 (opt_maxDepth options) in
  let maxChars := default 30000 (opt_maxChars options) in
  let viewportOnly := default true (opt_viewportOnly options) in
  let st0 := reset_refs st in
  let '(tree, st1) :=
    buildNode heap (page_root page) 0 maxDepth viewportOnly st0 in
  match tree with
  | None =>
      ({| url := page_href page; title := page_title page;
          tree := "(empty page)"; interactiveCount := 0;
          timestamp := page_now page |}, st1)
  | Some tree =>
      ({| url := page_href page; title := page_title page;
          tree := Js.join Js.nl (lines (serialize filter tree maxChars));
          interactiveCount := countInteractive tree 0;
          timestamp := page_now page |}, st1)
  end.

(** *** Vocabulary for the properties *)

(** The elements of a document, in the order [buildNode] meets them. *)
Fixpoint dom_ids (el : DomElement) : list Element :=
  el_id el
  :: flat_map dom_ids (el_children el)
  ++ match el_content_document el with
     | FrameBody body => dom_ids body
     | _ => []
     end.

Definition frame_body_all (P : DomElement -> Prop) (d : FrameDoc DomElement)
  : Prop :=
  match d with FrameBody body => P body | _ => True end.

(** Induction on a document: an element, given its children and the body of
    its frame document. *)
Fixpoint dom_ind (P : DomElement -> Prop)
    (step : forall el,
        Forall P (el_children el) ->
        frame_body_all P (el_content_document el) -> P el)
    (el : DomElement) {struct el} : P el :=
  step el
    ((fix all (cs : list DomElement) : Forall P cs :=
        match cs with
        | [] => List.Forall_nil P
        | c :: cs' => @List.Forall_cons _ P c cs' (dom_ind P step c) (all cs')
        end) (el_children el))
    (match el_content_document el as d return frame_body_all P d with
     | FrameBody b => dom_ind P step b
     | FrameThrows => I
     | FrameNoBody => I
     end).

(** Induction on a snapshot tree: a node, given its children. *)
Fixpoint node_ind (P : PageNode -> Prop)
    (step : forall node, Forall P (children node) -> P node)
    (node : PageNode) {struct node} : P node :=
  step node
    ((fix all (cs : list PageNode) : Forall P cs :=
        match cs with
        | [] => List.Forall_nil P
        | c :: cs' => @List.Forall_cons _ P c cs' (node_ind P step c) (all cs')
        end) (children node)).

(** The count that [charCount] keeps for a list of lines: each line and the
    newline after it. *)
Definition chars (ls : list string) : Z :=
  fold_right (fun l acc => Js.len l + 1 + acc) 0 ls.

(** The invariant of the ref table between two resets: every key of
    [elementsByRef] is one of the refs counted so far, every counted ref is
    a key, and the element a ref points to points back to it in
    [refsByElement]. *)
Definition numbered (st : RefState) : Prop :=
  forall r el, elementsByRef st !! r = Some el ->
    exists k, (1 <= k <= refCounter st)%nat /\ r = ref_of k.

Definition all_bound (st : RefState) : Prop :=
  forall k, (1 <= k <= refCounter st)%nat ->
    is_Some (elementsByRef st !! ref_of k).

Definition linked (st : RefState) : Prop :=
  forall r el, elementsByRef st !! r = Some el ->
    refsByElement st !! el = Some r.

(** Two states with the same counter and the same ref map, both well
    formed. *)
Definition same_table (st1 st2 : RefState) : Prop :=
  numbered st1 /\ linked st1 /\ numbered st2 /\ linked st2 /\
  refCounter st1 = refCounter st2 /\ elementsByRef st1 = elementsByRef st2.

(** Two state-passing computations that, from states related by [R], give
    the same result and states related by [R] again. *)
Definition related_on {A} (R : RefState -> RefState -> Prop)
    (f g : RefState -> A * RefState) : Prop :=
  forall st1 st2, R st1 st2 ->
    (f st1).1 = (g st2).1 /\ R (f st1).2 (g st2).2.

(** *** A small page, for examples: a body holding a wrapper around a
    Submit button, and a Home link. *)
Definition example_element (id : Element) (tag role name : string)
    (interactive : bool) (children : list DomElement) : DomElement :=
  {| el_id := id; el_tag := tag; el_visible := true; el_in_viewport := true;
     el_role := role; el_interactive := interactive; el_name := name;
     el_props := []; el_shallow_text := ""; el_children := children;
     el_title := ""; el_frame_name := ""; el_src := "";
     el_content_document := FrameNoBody |}.

Definition example_page : Page :=
  {| page_root :=
       example_element 1%nat "body" "" "" false
         [example_element 3%nat "div" "" "" false
            [example_element 2%nat "button" "button" "Submit" true []];
          example_element 4%nat "a" "link" "Home" true []];
     page_href := "https://example.test/";
     page_title := "Example";
     page_now := 0 |}.

Definition all_live : Heap := fun _ => true.

Definition no_options : SnapshotOptions :=
  {| opt_filter := None; opt_maxDepth := None; opt_maxChars := None;
     opt_viewportOnly := None |}.

Definition fresh_refs : RefState :=
  {| refCounter := 0; elementsByRef := ∅; refsByElement := ∅ |}.

(** *** Vocabulary for the properties: the nodes of a tree *)

(** The nodes of a snapshot tree, in document order. *)
Fixpoint nodes (node : PageNode) : list PageNode :=
  node :: flat_map nodes (children node).

(** The full listing of a tree: the line of every node, in document order,
    children one step further in than their parent. *)
Fixpoint listing (node : PageNode) (indent : nat) : list string :=
  node_line node indent
  :: flat_map (fun child => listing child (S indent)) (children node).

(** The listing of the nodes that are interactive or hold an interactive
    node. *)
Fixpoint listing_interactive (node : PageNode) (indent : nat)
  : list string :=
  if nodeHasInteractive node
  then node_line node indent
       :: flat_map (fun child => listing_interactive child (S indent))
                   (children node)
  else [].

(** A node that says nothing by itself: no role, not interactive, no
    name. *)
Definition unsemantic (node : PageNode) : bool :=
  negb (Js.truthy (role node)) && negb (interactive node)
  && negb (Js.truthy (name node)).

(** What holds of every node of a tree built from [depth0] down to
    [maxDepth]: its depth is in that range, its tag is not a skipped one,
    and it is not a pass-through container (one that says nothing and has a
    single child). *)
Definition kept (depth0 maxDepth : Z) (node : PageNode) : Prop :=
  depth0 <= depth node <= maxDepth /\
  has (tag node) SKIP_TAGS = false /\
  unsemantic node && (length (children node) =? 1)%nat = false.

(** A node carries a ref exactly when it is interactive or has a role. *)
Definition labelled (node : PageNode) : Prop :=
  Js.truthy (ref node) = interactive node || Js.truthy (role node).

(** The ref table of [st'] holds every entry of that of [st]. *)
Definition extends (st st' : RefState) : Prop :=
  forall r el,
    elementsByRef st !! r = Some el -> elementsByRef st' !! r = Some el.

(** A node without a ref, or one whose ref the table binds to one of the
    elements [ids]. *)
Definition bound_in (st : RefState) (ids : list Element) (node : PageNode)
  : Prop :=
  Js.truthy (ref node) = false \/
  exists id, id ∈ ids /\ elementsByRef st !! ref node = Some id.

(** The tree of the example page: the wrapper is gone and the button
    stands in its place, at its own depth. *)
Definition example_tree : PageNode :=
  {| ref := ""; role := ""; name := ""; tag := "body"; props := [];
     interactive := false; depth := 0;
     children :=
       [{| ref := "e1"; role := "button"; name := "Submit"; tag := "button";
           props := []; interactive := true; depth := 2; children := [] |};
        {| ref := "e2"; role := "link"; name := "Home"; tag := "a";
           props := []; interactive := true; depth := 1; children := [] |}]
  |}.

End Parser.

(** ** The planner *)

Module Planner.

Export Parser (PageSnapshot, mkSnapshot, url, title, tree, interactiveCount,
               timestamp).

(** *** Types (types/index.ts) *)

Inductive Direction := up | down.

Inductive Action :=
  | click (ref : string)
  | type (ref text : string) (clear : option bool)
  | select (ref value : string)
  | scroll (direction : Direction) (amount : option Z)
  | navigate (url : string)
  | read (ref : option string)
  | wait (ms : Js.number).

Record PlannedStep := mkStep {
  action : Action;
  expectation : option string;
  needsVerification : bool;
}.

Record Plan := mkPlan {
  steps : list PlannedStep;
  reasoning : string;
}.

Record StepResult := mkResult {
  success : bool;
  snapshot : option PageSnapshot;
  error : option string;
}.

Inductive Role := system | user | assistant.

Record LLMMessage := mkMessage {
  role : Role;
  content : string;
}.

Record LLMResponse := mkResponse {
  response_content : string;
  usage : option (Z * Z);   (* inputTokens, outputTokens *)
}.

Definition MAX_ITERATIONS : nat := 15.
Definition MAX_JSON_RETRIES : nat := 2.
Definition MAX_API_RETRIES : nat := 5.

(** *** The collaborators

    Everything the planner reaches outside itself.  Each call is answered
    from its position in the run (how many calls of that kind came before)
    and its argument, so an environment may answer every call differently.
    A rejected promise or thrown error is [inl] with the text the planner
    prints for it; every callback that is awaited may reject.  [parsePlan]
    (JSON decoding and validation of the model's text) either throws with
    a message or yields a plan; the text of [SYSTEM_PROMPT] is immaterial
    to the loop. *)
Record Env := mkEnv {
  SYSTEM_PROMPT : string;
  parsePlan : string -> string + Plan;
  getSnapshot : nat -> string + PageSnapshot;
  executeAction : nat -> Action -> string + StepResult;
  chat : nat -> list LLMMessage -> string + LLMResponse;
  now : nat -> Z;
}.

(** What an observer of a run sees, in order: the calls to the
    collaborators, the timers, and the callbacks. *)
Inductive Event :=
  | GetSnapshot
  | ExecuteAction (a : Action)
  | Chat (messages : list LLMMessage)
  | Sleep (ms : Q)
  | onPlan (plan : Plan)
  | onStepStart (step : PlannedStep) (index : nat)
  | onStepComplete (step : PlannedStep) (result : StepResult)
  | onComplete (reasoning : string)
  | onError (error : string)
  | onUsage (inputTokens outputTokens : Z)
  | onRateLimit (waitMs : Q) (attempt : nat).

(** The mutable state of a run: the conversation, the token totals and the
    events so far. *)
Record State := mkState {
  conversationHistory : list LLMMessage;
  totalUsage : Z * Z;
  trace : list Event;
}.

Definition is_GetSnapshot (e : Event) : bool :=
  match e with GetSnapshot => true | _ => false end.
Definition is_ExecuteAction (e : Event) : bool :=
  match e with ExecuteAction _ => true | _ => false end.
Definition is_Chat (e : Event) : bool :=
  match e with Chat _ => true | _ => false end.
Definition is_onComplete (e : Event) : bool :=
  match e with onComplete _ => true | _ => false end.
Definition is_onError (e : Event) : bool :=
  match e with onError _ => true | _ => false end.

Definition count_events (p : Event -> bool) (t : list Event) : nat :=
  length (List.filter p t).

(** A small state monad for the loop. *)
Definition M (A : Type) : Type := State -> A * State.

Definition ret {A} (a : A) : M A := fun st => (a, st).
Definition bind {A B} (c : M A) (k : A -> M B) : M B :=
  fun st => let '(a, st1) := c st in k a st1.

Declare Scope planner_scope.
Delimit Scope planner_scope with planner.
Notation "x <- c ;; k" := (bind c (fun x => k))
  (at level 100, c at next level, right associativity) : planner_scope.
Notation "c ;; k" := (bind c (fun _ => k))
  (at level 100, right associativity) : planner_scope.
Open Scope planner_scope.

Definition emit (e : Event) : M unit :=
  fun st => (tt, {| conversationHistory := conversationHistory st;
                    totalUsage := totalUsage st;
                    trace := trace st ++ [e] |}).

(** [conversationHistory.push(m)] *)
Definition push (m : LLMMessage) : M unit :=
  fun st => (tt, {| conversationHistory := conversationHistory st ++ [m];
                    totalUsage := totalUsage st;
                    trace := trace st |}).

Definition get_history : M (list LLMMessage) :=
  fun st => (conversationHistory st, st).

Definition set_history (h : list LLMMessage) : M unit :=
  fun st => (tt, {| conversationHistory := h;
                    totalUsage := totalUsage st;
                    trace := trace st |}).

(** [await new Promise(resolve => setTimeout(resolve, ms))] *)
Definition sleep (ms : Q) : M unit := emit (Sleep ms).

(** *** Prompts (llm/prompts.ts) *)

Definition buildUserMessage (task pageSnapshot : string) : string :=
  "## Current Page" +:+ Js.nl +:+ pageSnapshot +:+ Js.nl +:+ Js.nl +:+
  "## Task" +:+ Js.nl +:+ task.

Definition buildVerificationMessage (previousAction newSnapshot : string)
  : string :=
  "## Action Taken" +:+ Js.nl +:+ previousAction +:+ Js.nl +:+ Js.nl +:+
  "## Updated Page" +:+ Js.nl +:+ newSnapshot +:+ Js.nl +:+ Js.nl +:+
  "Continue with the original task. If the action succeeded, proceed to the next step. If it failed, try an alternative approach.".

(** *** API errors and back-off *)

Inductive RetryKind := tpm | rpm | server.
Inductive ErrorKind := retryable (kind : RetryKind) | fatal.

Definition classifyError (msg : string) : ErrorKind :=
  if Js.includes "429" msg || Js.includes "rate" msg then
    if Js.includes "tokens per minute" msg
       || Js.includes "input tokens per minute" msg
       || Js.includes "output tokens per minute" msg
    then retryable tpm
    else retryable rpm
  else if Js.includes "500" msg || Js.includes "502" msg
          || Js.includes "503" msg || Js.includes "529" msg
          || Js.includes "overloaded" msg
  then retryable server
  else fatal.

(** [Math.min(base * Math.pow(factor, attempt), cap)].  For a natural
    [attempt] every product below the cap is an exact double, so the
    rational value is the value the source computes. *)
Definition backoffMs (kind : RetryKind) (attempt : nat) : Q :=
  match kind with
  | tpm => Qmin (15000 * (3 # 2) ^ Z.of_nat attempt) 65000
  | rpm => Qmin (5000 * 2 ^ Z.of_nat attempt) 60000
  | server => Qmin (2000 * 2 ^ Z.of_nat attempt) 16000
  end%Q.

(** The caps that the comments of [backoffMs] state. *)
Definition backoff_cap (kind : RetryKind) : Q :=
  match kind with tpm => 65000 | rpm => 60000 | server => 16000 end%Q.

(** *** Helpers *)

Definition describeAction (action : Action) : string :=
  match action with
  | click ref => "Clicked [" +:+ ref +:+ "]"
  | type ref text clear =>
      "Typed " +:+ Js.dquote +:+ text +:+ Js.dquote +:+ " into [" +:+ ref
      +:+ "]" +:+ (if default false clear then " (cleared first)" else "")
  | select ref value =>
      "Selected " +:+ Js.dquote +:+ value +:+ Js.dquote +:+ " in [" +:+ ref
      +:+ "]"
  | scroll direction _ =>
      "Scrolled " +:+ match direction with up => "up" | down => "down" end
  | navigate url => "Navigated to " +:+ url
  | read _ => "Read page"
  | wait ms => "Waited " +:+ Js.number_text ms +:+ "ms"
  end.

Definition actionNeedsVerification (action : Action) : bool :=
  match action with
  | click _ => true
  | navigate _ => true
  | scroll _ _ => true
  | type _ _ _ => false
  | select _ _ => false
  | read _ => false
  | wait _ => false
  end.

Definition formatSnapshot (snapshot : PageSnapshot) : string :=
  "URL: " +:+ url snapshot +:+ Js.nl +:+
  "Title: " +:+ title snapshot +:+ Js.nl +:+
  "Interactive elements: " +:+ pretty (interactiveCount snapshot) +:+
  Js.nl +:+ Js.nl +:+ tree snapshot.

(** [history.splice(start, deleteCount)] for a non-negative [start]: what is
    left in the array.  [take] and [drop] clamp at the end of the list as
    [splice] clamps its arguments. *)
Definition splice {A} (l : list A) (start deleteCount : Z) : list A :=
  take (Z.to_nat start) l
  ++ drop (Z.to_nat start + Z.to_nat deleteCount) l.

Definition trimConversation (history : list LLMMessage) (maxMessages : Z)
  : list LLMMessage :=
  if Z.of_nat (length history) <=? maxMessages then history else
  let keepFromEnd := maxMessages - 2 in
  let recentStart := Z.of_nat (length history) - keepFromEnd in
  if recentStart <=? 2 then history else
  splice history 2 (recentStart - 2).

(** The default of the [maxMessages] parameter. *)
Definition default_maxMessages : Z := 14.

(** The trimming of the earlier planner (the file kept under
    lib/planner/index.ts, without retries): the system prompt and the last
    ten messages. *)
Definition trim_earlier (history : list LLMMessage) : list LLMMessage :=
  if 12 <? Z.of_nat (length history)
  then splice history 1 (Z.of_nat (length history) - 11)
  else history.

(** The loop that removes corrective prompts from the end of the history:
    [while (length > 1 && last.role === 'user' &&
            last.content.includes('not valid JSON')) pop()].
    The recursion is on the history read from its end. *)
Fixpoint pop_corrective_rev (reversed : list LLMMessage) : list LLMMessage :=
  match reversed with
  | [] => []
  | last :: before =>
      if (1 <? length reversed)%nat
         && match role last with user => true | _ => false end
         && Js.includes "not valid JSON" (content last)
      then pop_corrective_rev before
      else reversed
  end.

Definition pop_corrective (history : list LLMMessage) : list LLMMessage :=
  rev (pop_corrective_rev (rev history)).

Section WithEnv.

Variable env : Env.

Definition call_getSnapshot : M (string + PageSnapshot) :=
  fun st =>
    let k := count_events is_GetSnapshot (trace st) in
    (getSnapshot env k, snd (emit GetSnapshot st)).

Definition call_executeAction (a : Action) : M (string + StepResult) :=
  fun st =>
    let k := count_events is_ExecuteAction (trace st) in
    (executeAction env k a, snd (emit (ExecuteAction a) st)).

Definition call_chat (messages : list LLMMessage)
  : M (string + LLMResponse) :=
  fun st =>
    let k := count_events is_Chat (trace st) in
    (chat env k messages, snd (emit (Chat messages) st)).

(** [Date.now()] *)
Definition date_now : M Z := fun st => (now env (length (trace st)), st).

(** *** The model call, with retries *)

(** [for (attempt = 0; attempt <= MAX_API_RETRIES; attempt++)]: [n] passes
    of the loop are left; when none is, control reaches the [throw] after
    the loop.  The result is [inl] for a thrown error. *)
Fixpoint callLLMWithRetry_loop (n attempt : nat) (lastError : option string)
    (messages : list LLMMessage) : M (string + LLMResponse) :=
  match n with
  | O => ret (inl (default "null" lastError))
  | S n' =>
      r <- call_chat messages ;;
      match r with
      | inr response => ret (inr response)
      | inl message =>
          match classifyError message with
          | fatal => ret (inl message)
          | retryable kind =>
              if (attempt =? MAX_API_RETRIES)%nat then ret (inl message)
              else
                let waitMs := backoffMs kind attempt in
                emit (onRateLimit waitMs (attempt + 1)) ;;
                sleep waitMs ;;
                callLLMWithRetry_loop n' (S attempt) (Some message) messages
          end
      end
  end.

Definition callLLMWithRetry (messages : list LLMMessage)
  : M (string + LLMResponse) :=
  callLLMWithRetry_loop (S MAX_API_RETRIES) 0 None messages.

Definition add_usage (response : LLMResponse) : M unit :=
  match usage response with
  | Some (inputTokens, outputTokens) =>
      fun st =>
        let total := (fst (totalUsage st) + inputTokens,
                      snd (totalUsage st) + outputTokens) in
        emit (onUsage (fst total) (snd total))
             {| conversationHistory := conversationHistory st;
                totalUsage := total;
                trace := trace st |}
  | None => ret tt
  end.

Definition corrective_prompt (lastParseError : string) : string :=
  "Your previous response was not valid JSON. Error: " +:+ lastParseError
  +:+ Js.nl +:+ Js.nl +:+ "Respond with ONLY a JSON object like: {"
  +:+ Js.dquote +:+ "reasoning" +:+ Js.dquote +:+ ": " +:+ Js.dquote +:+ "..."
  +:+ Js.dquote +:+ ", " +:+ Js.dquote +:+ "steps" +:+ Js.dquote
  +:+ ": [...]}. No text before or after the JSON.".

(** [for (jsonAttempt = 0; jsonAttempt <= MAX_JSON_RETRIES; jsonAttempt++)],
    with [n] passes left.  [inl] is a thrown error, from the model call or
    from the last failed parse. *)
Fixpoint getPlanFromLLM_loop (n jsonAttempt : nat)
    (lastParseError : option string) : M (string + Plan * string) :=
  match n with
  | O => ret (inl "Unreachable")
  | S n' =>
      match lastParseError with
      | Some e =>
          if Js.truthy e && (0 <? jsonAttempt)%nat
          then push {| role := user; content := corrective_prompt e |}
          else ret tt
      | None => ret tt
      end ;;
      history <- get_history ;;
      r <- callLLMWithRetry history ;;
      match r with
      | inl thrown => ret (inl thrown)
      | inr response =>
          add_usage response ;;
          match parsePlan env (response_content response) with
          | inr plan =>
              (if (0 <? jsonAttempt)%nat
               then h <- get_history ;; set_history (pop_corrective h)
               else ret tt) ;;
              push {| role := assistant;
                      content := response_content response |} ;;
              ret (inr (plan, response_content response))
          | inl parseError =>
              push {| role := assistant;
                      content := response_content response |} ;;
              if (jsonAttempt =? MAX_JSON_RETRIES)%nat
              then ret (inl ("LLM returned invalid JSON after "
                             +:+ pretty (MAX_JSON_RETRIES + 1)%nat
                             +:+ " attempts. Last error: " +:+ parseError))
              else getPlanFromLLM_loop n' (S jsonAttempt) (Some parseError)
          end
      end
  end.

Definition getPlanFromLLM : M (string + Plan * string) :=
  getPlanFromLLM_loop (S MAX_JSON_RETRIES) 0 None.

(** *** Snapshots taken inside a batch *)

Definition placeholder (text : string) : M PageSnapshot :=
  t <- date_now ;;
  ret {| url := "unknown"; title := "unknown"; tree := text;
         interactiveCount := 0; timestamp := t |}.

(** After a failed action: one attempt, then the placeholder. *)
Definition errorSnapshot : M PageSnapshot :=
  sleep 500 ;;
  r <- call_getSnapshot ;;
  match r with
  | inr snapshot => ret snapshot
  | inl _ => placeholder "(unable to read page)"
  end.

(** At a verification point, and again after a batch that ran to its end
    (the same code at both places): a second attempt after 1500 ms, then
    the placeholder. *)
Definition verifySnapshot : M PageSnapshot :=
  sleep 500 ;;
  r <- call_getSnapshot ;;
  match r with
  | inr snapshot => ret snapshot
  | inl _ =>
      sleep 1500 ;;
      r2 <- call_getSnapshot ;;
      match r2 with
      | inr snapshot => ret snapshot
      | inl _ => placeholder "(page is loading or unreachable)"
      end
  end.

Definition finalSnapshot : M PageSnapshot := verifySnapshot.

Definition error_turn (step : PlannedStep) (result : StepResult)
    (errorSnapshot : PageSnapshot) : LLMMessage :=
  {| role := user;
     content := "## Error" +:+ Js.nl +:+ "Action failed: "
                +:+ default "undefined" (error result) +:+ Js.nl +:+ Js.nl
                +:+ buildVerificationMessage (describeAction (action step))
                      (formatSnapshot errorSnapshot) |}.

Definition verification_turn (step : PlannedStep) (snapshot : PageSnapshot)
  : LLMMessage :=
  {| role := user;
     content := buildVerificationMessage (describeAction (action step))
                  (formatSnapshot snapshot) |}.

(** *** Executing a batch *)

(** [for (i = 0; i < plan.steps.length; i++)], from index [i] with [rest]
    the steps from [i] on.  The result is [needsReplan]: [true] after a
    [break], [false] when the loop ran to its end.  No [try] stands around
    [await callbacks.executeAction]: when it rejects, the loop is left with
    that error, [inl]. *)
Fixpoint execute_steps (plan : Plan) (i : nat) (rest : list PlannedStep)
  : M (string + bool) :=
  match rest with
  | [] => ret (inr false)
  | step :: rest' =>
      let shouldVerify :=
        needsVerification step || actionNeedsVerification (action step) in
      emit (onStepStart step i) ;;
      r <- call_executeAction (action step) ;;
      match r with
      | inl thrown => ret (inl thrown)
      | inr result =>
          emit (onStepComplete step result) ;;
          if negb (success result) then
            errorSnapshot <- errorSnapshot ;;
            push (error_turn step result errorSnapshot) ;;
            ret (inr true)
          else if shouldVerify
                  && (Z.of_nat i <? Z.of_nat (length (steps plan)) - 1) then
            verifySnapshot <- verifySnapshot ;;
            push (verification_turn step verifySnapshot) ;;
            ret (inr true)
          else execute_steps plan (S i) rest'
      end
  end.

(** *** The main loop *)

(** How one pass of the loop body ends: with [return], by falling through
    to the next iteration, or with an error that nothing catches. *)
Inductive Control := Return | Continue | Throw (error : string).

(** 1. Get current page state: a second attempt after one second. *)
Definition acquire_state : M (string + PageSnapshot) :=
  r <- call_getSnapshot ;;
  match r with
  | inr snapshot => ret (inr snapshot)
  | inl _ => sleep 1000 ;; call_getSnapshot
  end.

(** 2. Build message: on the first iteration only. *)
Definition compose_message (task : string) (iteration : nat)
    (snapshot : PageSnapshot) : M unit :=
  let snapshotText := formatSnapshot snapshot in
  if (iteration =? 0)%nat
  then push {| role := user; content := buildUserMessage task snapshotText |}
  else ret tt.

(** 5. Execute steps with checkpoint logic, the verification of the final
    state when no step asked for a replan, and the trimming.  [inl] is the
    error of a rejected [executeAction], which passes through. *)
Definition run_batch (plan : Plan) : M (string + unit) :=
  r <- execute_steps plan 0 (steps plan) ;;
  match r with
  | inl thrown => ret (inl thrown)
  | inr needsReplan =>
      (if negb needsReplan then
         finalSnapshot <- finalSnapshot ;;
         match last (steps plan) with
         | Some lastAction =>
             push (verification_turn lastAction finalSnapshot)
         | None => ret tt   (* not reached: the batch is not empty *)
         end
       else ret tt) ;;
      h <- get_history ;;
      set_history (trimConversation h default_maxMessages) ;;
      ret (inr tt)
  end.

Definition cannot_read_page (retryError : string) : string :=
  "Cannot read page: " +:+ retryError +:+
  ". The content script may not be loaded on this page.".

Definition iteration_body (task : string) (iteration : nat) : M Control :=
  r <- acquire_state ;;
  match r with
  | inl retryError =>
      emit (onError (cannot_read_page retryError)) ;;
      ret Return
  | inr snapshot =>
      compose_message task iteration snapshot ;;
      r <- getPlanFromLLM ;;
      match r with
      | inl message =>
          emit (onError ("Failed to get plan: " +:+ message)) ;;
          ret Return
      | inr (plan, _) =>
          emit (onPlan plan) ;;
          if (length (steps plan) =? 0)%nat then
            emit (onComplete (reasoning plan)) ;;
            ret Return
          else
            r <- run_batch plan ;;
            match r with
            | inl thrown => ret (Throw thrown)
            | inr _ => ret Continue
            end
      end
  end.

(** [for (iteration = 0; iteration < MAX_ITERATIONS; iteration++)], with
    [n] passes left; after the loop, the max-iterations error.  The result
    is how the promise of [runPlanner] is settled: [inr] when it resolves,
    [inl] with the error when it is rejected. *)
Fixpoint planner_loop (n iteration : nat) (task : string)
  : M (string + unit) :=
  match n with
  | O =>
      emit (onError ("Max iterations (" +:+ pretty MAX_ITERATIONS
                     +:+ ") reached. Task may be incomplete.")) ;;
      ret (inr tt)
  | S n' =>
      c <- iteration_body task iteration ;;
      match c with
      | Return => ret (inr tt)
      | Continue => planner_loop n' (S iteration) task
      | Throw thrown => ret (inl thrown)
      end
  end.

Definition initial_state : State :=
  {| conversationHistory :=
       [{| role := system; content := SYSTEM_PROMPT env |}];
     totalUsage := (0, 0);
     trace := [] |}.

(** A run, as the state it ends in. *)
Definition runPlanner (task : string) : State :=
  snd (planner_loop MAX_ITERATIONS 0 task initial_state).

(** How the promise of a run is settled: [inl] is the error it is rejected
    with. *)
Definition settled (task : string) : string + unit :=
  fst (planner_loop MAX_ITERATIONS 0 task initial_state).

(** *** Vocabulary for the properties: runs *)

(** The two messages a run starts its conversation with. *)
Definition system_message : LLMMessage :=
  {| role := system; content := SYSTEM_PROMPT env |}.

Definition task_message (task : string) (snapshot : PageSnapshot)
  : LLMMessage :=
  {| role := user;
     content := buildUserMessage task (formatSnapshot snapshot) |}.

(** [reaches task iteration st]: a run on [task] is at the head of the loop
    for [iteration], in state [st]. *)
Inductive reaches (task : string) : nat -> State -> Prop :=
  | reaches_start : reaches task 0 initial_state
  | reaches_next iteration st st' :
      reaches task iteration st ->
      iteration_body task iteration st = (Continue, st') ->
      reaches task (S iteration) st'.

(** [enters_batch task iteration st plan st0]: the pass of the loop for
    [iteration], started in state [st], reads the page, gets [plan] from
    the model, announces it and comes to its batch in state [st0]. *)
Definition enters_batch (task : string) (iteration : nat) (st : State)
    (plan : Plan) (st0 : State) : Prop :=
  exists snapshot st1 raw st2,
    acquire_state st = (inr snapshot, st1) /\
    getPlanFromLLM (compose_message task iteration snapshot st1).2
    = (inr (plan, raw), st2) /\
    st0 = (emit (onPlan plan) st2).2.

End WithEnv.

(** *** Vocabulary for the properties: events and conversations *)

(** The callbacks that end a run, and the other events. *)
Definition terminal (e : Event) : bool := is_onComplete e || is_onError e.
Definition quiet (e : Event) : bool := negb (terminal e).

Definition any_event (e : Event) : bool := true.

(** A computation that only extends the trace, with events accepted by
    [q]. *)
Definition emits_only {A} (q : Event -> bool) (c : M A) : Prop :=
  forall st, exists t,
    trace (c st).2 = trace st ++ t /\ forallb q t = true.

(** A computation that keeps a property of the conversation. *)
Definition preserves {A} (P : list LLMMessage -> Prop) (c : M A) : Prop :=
  forall st, P (conversationHistory st) -> P (conversationHistory (c st).2).

(** The conversation starts with [m0] and [m1]. *)
Definition pinned (m0 m1 : LLMMessage) (h : list LLMMessage) : Prop :=
  h !! 0%nat = Some m0 /\ h !! 1%nat = Some m1.

(** An assistant message stands after the first two messages. *)
Definition shielded (h : list LLMMessage) : Prop :=
  exists l a r, h = l ++ a :: r /\ role a = assistant /\ (2 <= length l)%nat.

(** What a run does to the conversation once it holds the system prompt and
    the task: it pushes messages at the end and it trims. *)
Inductive HistoryOp :=
  | Push (m : LLMMessage)
  | Trim (maxMessages : Z).

Definition apply_op (h : list LLMMessage) (op : HistoryOp)
  : list LLMMessage :=
  match op with
  | Push m => h ++ [m]
  | Trim maxMessages => trimConversation h maxMessages
  end.

Definition apply_ops (h : list LLMMessage) (ops : list HistoryOp)
  : list LLMMessage :=
  fold_left apply_op ops h.

(** The same for the earlier planner, whose trimming takes no ceiling. *)
Definition apply_op_earlier (h : list LLMMessage) (op : HistoryOp)
  : list LLMMessage :=
  match op with
  | Push m => h ++ [m]
  | Trim _ => trim_earlier h
  end.

Definition apply_ops_earlier (h : list LLMMessage) (ops : list HistoryOp)
  : list LLMMessage :=
  fold_left apply_op_earlier ops h.

(** *** Environments for examples

    The page is a single Go button; the model's text names the plan it
    stands for. *)
Definition example_snapshot : PageSnapshot :=
  {| url := "https://example.test/"; title := "Example";
     tree := "button [e7]"; interactiveCount := 1; timestamp := 0 |}.

Definition succeeded : StepResult :=
  {| success := true; snapshot := None; error := None |}.

Definition not_found : StepResult :=
  {| success := false; snapshot := None;
     error := Some "Element not found: e7" |}.

Definition click_go : PlannedStep :=
  {| action := click "e7"; expectation := None; needsVerification := false |}.

Definition type_hello : PlannedStep :=
  {| action := type "e6" "hello" (Some true); expectation := None;
     needsVerification := false |}.

Definition pause : PlannedStep :=
  {| action := wait (Js.mkNumber "10"); expectation := None;
     needsVerification := false |}.

Definition click_then_type : Plan :=
  {| steps := [click_go; type_hello]; reasoning := "clicking go" |}.

Definition example_parsePlan (raw : string) : string + Plan :=
  if String.eqb raw "done"
  then inr {| steps := []; reasoning := "Done. Clicked Go." |}
  else if String.eqb raw "click, type" then inr click_then_type
  else if String.eqb raw "wait"
  then inr {| steps := [pause]; reasoning := "waiting" |}
  else inl "Unexpected token".

Definition example_env (snapshots : nat -> string + PageSnapshot)
    (replies : nat -> string) (results : nat -> StepResult) : Env :=
  {| SYSTEM_PROMPT := "You are WebProwler.";
     parsePlan := example_parsePlan;
     getSnapshot := snapshots;
     executeAction := fun k _ => inr (results k);
     chat := fun k _ =>
       inr {| response_content := replies k; usage := None |};
     now := fun _ => 0 |}.

Definition disconnected : string :=
  "Error: Could not establish connection. Receiving end does not exist.".

(** The model is done at once. *)
Definition done_env : Env :=
  example_env (fun _ => inr example_snapshot) (fun _ => "done")
    (fun _ => succeeded).

(** The model clicks and types, then is done; the actions succeed. *)
Definition click_env : Env :=
  example_env (fun _ => inr example_snapshot)
    (fun k => if (k =? 0)%nat then "click, type" else "done")
    (fun _ => succeeded).

(** As [click_env], but the actions fail. *)
Definition failing_env : Env :=
  example_env (fun _ => inr example_snapshot)
    (fun k => if (k =? 0)%nat then "click, type" else "done")
    (fun _ => not_found).

(** The actions fail and, after the first snapshot, the page cannot be
    read any more. *)
Definition unreadable_env : Env :=
  example_env
    (fun k => if (k =? 0)%nat then inr example_snapshot else inl disconnected)
    (fun _ => "click, type") (fun _ => not_found).

(** The model waits; the page can be read twice and then no more. *)
Definition lost_page_env : Env :=
  example_env
    (fun k => if (k <? 2)%nat then inr example_snapshot else inl disconnected)
    (fun _ => "wait") (fun _ => succeeded).

(** *** Vocabulary for the properties: model calls, waits and contexts *)

(** One retried model call, as an observer sees it: the call, the notice
    of the wait and the wait. *)
Definition retry_round (messages : list LLMMessage) (attempt : nat)
    (waitMs : Q) : list Event :=
  [Chat messages; onRateLimit waitMs (attempt + 1); Sleep waitMs].

(** The time spent in timers, in ms. *)
Definition total_sleep (t : list Event) : Q :=
  fold_right
    (fun e acc => match e with Sleep ms => (ms + acc)%Q | _ => acc end)
    0%Q t.

(** The actions executed and the contexts sent to the model, in order. *)
Definition executed_actions (t : list Event) : list Action :=
  omap (fun e => match e with ExecuteAction a => Some a | _ => None end) t.

Definition chats (t : list Event) : list (list LLMMessage) :=
  omap (fun e => match e with Chat messages => Some messages | _ => None end)
       t.

(** The totals that the last [onUsage] callback reported; zero before the
    first. *)
Definition reported_usage (t : list Event) : Z * Z :=
  default (0, 0)
    (last (omap (fun e => match e with
                          | onUsage i o => Some (i, o)
                          | _ => None
                          end) t)).

(** The totals of the state are those that were last reported. *)
Definition usage_reported (st : State) : Prop :=
  reported_usage (trace st) = totalUsage st.

(** A conversation that starts with [m0] and holds no system message after
    it. *)
Definition headed_by (m0 : LLMMessage) (h : list LLMMessage) : Prop :=
  exists rest, h = m0 :: rest /\ Forall (fun m => role m <> system) rest.

(** A computation that keeps a property of the state. *)
Definition keeps {A} (I : State -> Prop) (c : M A) : Prop :=
  forall st, I st -> I (c st).2.

(** The conversation, and every context sent to the model so far, satisfy
    [P]. *)
Definition contexts_within (P : list LLMMessage -> Prop) (st : State)
  : Prop :=
  P (conversationHistory st) /\ Forall P (chats (trace st)).

(** The page that a run reads first: at the first attempt or at the
    retry. *)
Definition first_page (env : Env) : option PageSnapshot :=
  match getSnapshot env 0%nat with
  | inr snapshot => Some snapshot
  | inl _ =>
      match getSnapshot env 1%nat with
      | inr snapshot => Some snapshot
      | inl _ => None
      end
  end.

(** A trace that executes planned actions only: after each [onPlan], the
    actions executed up to the next [onPlan] are those of the plan, from
    its first on and in order.  [pending] holds the actions of the current
    plan that are not executed yet. *)
Fixpoint in_plan_order (pending : list Action) (t : list Event) : Prop :=
  match t with
  | [] => True
  | onPlan plan :: t' => in_plan_order (map action (steps plan)) t'
  | ExecuteAction a :: t' =>
      match pending with
      | next :: later => a = next /\ in_plan_order later t'
      | [] => False
      end
  | _ :: t' => in_plan_order pending t'
  end.

(** The events that neither announce a plan nor execute an action. *)
Definition beside_plans (e : Event) : bool :=
  match e with
  | onPlan _ => false
  | ExecuteAction _ => false
  | _ => true
  end.

(** A piece of a trace that is in plan order whatever was pending before
    it, and leaves what follows free to start anew. *)
Definition self_planned (t : list Event) : Prop :=
  forall pending rest,
    (forall p, in_plan_order p rest) -> in_plan_order pending (t ++ rest).

(** The model replies with text that does not parse, then says it is
    done. *)
Definition stammering_env : Env :=
  example_env (fun _ => inr example_snapshot)
    (fun k => if (k =? 0)%nat then "Sure! Here is the plan" else "done")
    (fun _ => succeeded).

(** The model waits, again and again; the page can always be read. *)
Definition waiting_env : Env :=
  example_env (fun _ => inr example_snapshot) (fun _ => "wait")
    (fun _ => succeeded).

(** As [click_env], but the page is gone when the click is made: the
    callback throws. *)
Definition throwing_env : Env :=
  {| SYSTEM_PROMPT := "You are WebProwler.";
     parsePlan := example_parsePlan;
     getSnapshot := fun _ => inr example_snapshot;
     executeAction := fun _ _ => inl "Error: No active tab";
     chat := fun _ _ =>
       inr {| response_content := "click, type"; usage := None |};
     now := fun _ => 0 |}.

(** The model's API answers every call with the given error. *)
Definition erroring_env (message : string) : Env :=
  {| SYSTEM_PROMPT := "You are WebProwler.";
     parsePlan := example_parsePlan;
     getSnapshot := fun _ => inr example_snapshot;
     executeAction := fun _ _ => inr succeeded;
     chat := fun _ _ => inl message;
     now := fun _ => 0 |}.

End Planner.

(** ** The earlier planner (lib/planner/index.ts)

    The planner as it was before retries, back-off and smart trimming.  It
    has the types, the prompts, [describeAction], [actionNeedsVerification]
    and the text of a snapshot in common with the later one, and its
    [parsePlan] is a collaborator again.  Here no [await] stands inside a
    [try] but that of the model call: a rejected [getSnapshot] rejects the
    run as a rejected [executeAction] does. *)

Module Earlier.
Import Planner.
Open Scope planner_scope.

Section WithEnv.

Variable env : Env.

(** The steps of a batch, from index [i] on; [inl] is the error of a
    rejected callback. *)
Fixpoint execute_steps (plan : Plan) (i : nat) (rest : list PlannedStep)
  : M (string + bool) :=
  match rest with
  | [] => ret (inr false)
  | step :: rest' =>
      let shouldVerify :=
        needsVerification step || actionNeedsVerification (action step) in
      emit (onStepStart step i) ;;
      r <- call_executeAction env (action step) ;;
      match r with
      | inl thrown => ret (inl thrown)
      | inr result =>
          emit (onStepComplete step result) ;;
          if negb (success result) then
            s <- call_getSnapshot env ;;
            match s with
            | inl thrown => ret (inl thrown)
            | inr errorSnapshot =>
                push (error_turn step result errorSnapshot) ;;
                ret (inr true)
            end
          else if shouldVerify
                  && (Z.of_nat i <? Z.of_nat (length (steps plan)) - 1) then
            s <- call_getSnapshot env ;;
            match s with
            | inl thrown => ret (inl thrown)
            | inr verifySnapshot =>
                push (verification_turn step verifySnapshot) ;;
                ret (inr true)
            end
          else execute_steps plan (S i) rest'
      end
  end.

(** The verification after a batch that ran to its end. *)
Definition final_verification (plan : Plan) : M (string + unit) :=
  s <- call_getSnapshot env ;;
  match s with
  | inl thrown => ret (inl thrown)
  | inr finalSnapshot =>
      match last (steps plan) with
      | Some lastAction => push (verification_turn lastAction finalSnapshot)
      | None => ret tt   (* not reached: the batch is not empty *)
      end ;;
      ret (inr tt)
  end.

(** The batch, the final verification and the trimming. *)
Definition run_batch (plan : Plan) : M (string + unit) :=
  r <- execute_steps plan 0 (steps plan) ;;
  match r with
  | inl thrown => ret (inl thrown)
  | inr needsReplan =>
      r <- (if negb needsReplan then final_verification plan
            else ret (inr tt)) ;;
      match r with
      | inl thrown => ret (inl thrown)
      | inr _ =>
          h <- get_history ;;
          set_history (trim_earlier h) ;;
          ret (inr tt)
      end
  end.

(** 3. Ask LLM for a plan: the body of the [try]; [inl] is what the
    [catch] receives, from the model call or from [parsePlan]. *)
Definition ask_plan : M (string + Plan) :=
  history <- get_history ;;
  r <- call_chat env history ;;
  match r with
  | inl error => ret (inl error)
  | inr response =>
      add_usage response ;;
      push {| role := assistant; content := response_content response |} ;;
      ret (parsePlan env (response_content response))
  end.

Definition iteration_body (task : string) (iteration : nat) : M Control :=
  s <- call_getSnapshot env ;;
  match s with
  | inl thrown => ret (Throw thrown)
  | inr snapshot =>
      compose_message task iteration snapshot ;;
      r <- ask_plan ;;
      match r with
      | inl error =>
          emit (onError ("Failed to get plan from LLM: " +:+ error)) ;;
          ret Return
      | inr plan =>
          emit (onPlan plan) ;;
          if (length (steps plan) =? 0)%nat then
            emit (onComplete (reasoning plan)) ;;
            ret Return
          else
            r <- run_batch plan ;;
            match r with
            | inl thrown => ret (Throw thrown)
            | inr _ => ret Continue
            end
      end
  end.

Fixpoint planner_loop (n iteration : nat) (task : string)
  : M (string + unit) :=
  match n with
  | O =>
      emit (onError ("Max iterations (" +:+ pretty MAX_ITERATIONS
                     +:+ ") reached. Task may be incomplete.")) ;;
      ret (inr tt)
  | S n' =>
      c <- iteration_body task iteration ;;
      match c with
      | Return => ret (inr tt)
      | Continue => planner_loop n' (S iteration) task
      | Throw thrown => ret (inl thrown)
      end
  end.

(** A run, as the state it ends in, and how its promise is settled. *)
Definition runPlanner (task : string) : State :=
  snd (planner_loop MAX_ITERATIONS 0 task (initial_state env)).

Definition settled (task : string) : string + unit :=
  fst (planner_loop MAX_ITERATIONS 0 task (initial_state env)).

(** [enters_batch task iteration st plan st0]: the pass of the loop for
    [iteration], started in state [st], reads the page, gets [plan] from
    the model, announces it and comes to its batch in state [st0]. *)
Definition enters_batch (task : string) (iteration : nat) (st : State)
    (plan : Plan) (st0 : State) : Prop :=
  exists snapshot st1 st2,
    call_getSnapshot env st = (inr snapshot, st1) /\
    ask_plan (compose_message task iteration snapshot st1).2
    = (inr plan, st2) /\
    st0 = (emit (onPlan plan) st2).2.

End WithEnv.

End Earlier.

(** ** The task recorder and replayer *)

Module Recorder.

Record RecordedStep := mkRecorded {
  action : Planner.Action;
  url : string;
  timestamp : Z;
  success : bool;
  error : option string;
}.

Record Recording := mkRecording {
  id : string;
  task : string;
  startUrl : string;
  steps : list RecordedStep;
  createdAt : Z;
  duration : Z;
}.

(** The module variable [activeRecording] and the [recordings] entry of
    [chrome.storage.local] ([None] while the key was never written). *)
Record Store := mkStore {
  activeRecording : option Recording;
  stored : option (list Recording);
}.

Definition MAX_RECORDINGS : nat := 50.

(** [now] is [Date.now()]; [suffix] is the random part of the id,
    [Math.random().toString(36).slice(2, 8)]. *)
Definition startRecording (task startUrl : string) (now : Z) (suffix : string)
    (st : Store) : Store :=
  {| activeRecording :=
       Some {| id := "rec_" +:+ pretty now +:+ "_" +:+ suffix;
               task := task;
               startUrl := startUrl;
               steps := [];
               createdAt := now;
               duration := 0 |};
     stored := stored st |}.

Definition recordStep (action : Planner.Action) (url : string)
    (result : Planner.StepResult) (now : Z) (st : Store) : Store :=
  match activeRecording st with
  | None => st
  | Some rec =>
      {| activeRecording :=
           Some {| id := id rec; task := task rec; startUrl := startUrl rec;
                   steps := steps rec ++
                     [{| action := action; url := url; timestamp := now;
                         success := Planner.success result;
                         error := Planner.error result |}];
                   createdAt := createdAt rec; duration := duration rec |};
         stored := stored st |}
  end.

(** [data[STORAGE_KEY] ?? []] *)
Definition getRecordings (st : Store) : list Recording :=
  default [] (stored st).

(** [unshift], then [splice(MAX_RECORDINGS)] when the list is too long. *)
Definition saveRecording (recording : Recording) (st : Store) : Store :=
  let recordings := recording :: getRecordings st in
  let recordings :=
    if (MAX_RECORDINGS <? length recordings)%nat
    then take MAX_RECORDINGS recordings else recordings in
  {| activeRecording := activeRecording st; stored := Some recordings |}.

Definition stopRecording (now : Z) (st : Store) : option Recording * Store :=
  match activeRecording st with
  | None => (None, st)
  | Some rec =>
      let recording :=
        {| id := id rec; task := task rec; startUrl := startUrl rec;
           steps := steps rec; createdAt := createdAt rec;
           duration := now - createdAt rec |} in
      let st1 := {| activeRecording := None; stored := stored st |} in
      if existsb success (steps recording)
      then (Some recording, saveRecording recording st1)
      else (Some recording, st1)
  end.

(** *** Replay *)

(** What an observer of a replay sees. *)
Inductive Event :=
  | onStepStart (step : RecordedStep) (index : nat)
  | Sleep (ms : Z)
  | ExecuteAction (a : Planner.Action)
  | onStepComplete (step : RecordedStep) (result : Planner.StepResult)
  | onComplete (recording : Recording)
  | onError (error : string) (step : RecordedStep) (index : nat).

(** The loop of [replayRecording] from index [i], with [rest] the
    successful steps from [i] on.  [executeAction k a] answers the [k]-th
    call. *)
Fixpoint replay_loop
    (executeAction : nat -> Planner.Action -> Planner.StepResult)
    (recording : Recording) (i : nat) (rest : list RecordedStep)
  : list Event :=
  match rest with
  | [] => [onComplete recording]
  | step :: rest' =>
      let result := executeAction i (action step) in
      [onStepStart step i]
      ++ (if (0 <? i)%nat then [Sleep 500] else [])
      ++ [ExecuteAction (action step); onStepComplete step result]
      ++ (if negb (Planner.success result) then
            [onError ("Replay failed at step " +:+ pretty (i + 1)%nat +:+ ": "
                      +:+ default "Unknown error" (Planner.error result))
                     step i]
          else Sleep 300 :: replay_loop executeAction recording (S i) rest')
  end.

Definition replayRecording
    (executeAction : nat -> Planner.Action -> Planner.StepResult)
    (recording : Recording) : list Event :=
  let successfulSteps := List.filter success (steps recording) in
  replay_loop executeAction recording 0 successfulSteps.

(** The actions a replay executed, in order. *)
Definition executed (t : list Event) : list Planner.Action :=
  omap (fun e => match e with ExecuteAction a => Some a | _ => None end) t.

(** *** A recorded run, as the service worker drives it: [startRecording],
    one [recordStep] per executed action, [stopRecording]. *)
Record Call := mkCall {
  call_action : Planner.Action;
  call_url : string;
  call_result : Planner.StepResult;
  call_now : Z;
}.

Definition record_calls (calls : list Call) (st : Store) : Store :=
  fold_left
    (fun st c =>
       recordStep (call_action c) (call_url c) (call_result c) (call_now c) st)
    calls st.

Definition record_run (task startUrl : string) (started : Z)
    (suffix : string) (calls : list Call) (stopped : Z) (st : Store)
  : option Recording * Store :=
  stopRecording stopped
    (record_calls calls (startRecording task startUrl started suffix st)).

Definition call_succeeded (c : Call) : bool :=
  Planner.success (call_result c).

(** *** The rest of the storage interface *)

(** [activeRecording !== null] *)
Definition isRecording (st : Store) : bool :=
  match activeRecording st with Some _ => true | None => false end.

Definition listRecordings (st : Store) : list Recording := getRecordings st.

(** [recordings.find(r => r.id === id) ?? null] *)
Definition getRecordingById (wanted : string) (st : Store)
  : option Recording :=
  List.find (fun r => String.eqb (id r) wanted) (getRecordings st).

(** [recordings.filter(r => r.id !== id)], written back. *)
Definition deleteRecording (unwanted : string) (st : Store) : Store :=
  let filtered :=
    List.filter (fun r => negb (String.eqb (id r) unwanted))
                (getRecordings st) in
  {| activeRecording := activeRecording st; stored := Some filtered |}.

Definition clearRecordings (st : Store) : Store :=
  {| activeRecording := activeRecording st; stored := Some [] |}.

(** Recordings saved one after the other. *)
Definition save_all (recordings : list Recording) (st : Store) : Store :=
  fold_left (fun st recording => saveRecording recording st) recordings st.

End Recorder.

(** ** The model providers (lib/llm/provider.ts)

    The request that each provider builds from a conversation, and the
    error it throws when the response is not [ok].  The decoding of a
    successful response is JSON navigation and is not modelled. *)

Module Provider.
Import Planner.

Record LLMConfig := mkConfig {
  provider : string;
  apiKey : string;
  model : string;
  baseUrl : option string;
  maxTokens : option Z;
}.

(** [config.baseUrl || fallback] *)
Definition baseUrl_or (config : LLMConfig) (fallback : string) : string :=
  Js.or_else (default "" (baseUrl config)) fallback.

(** The three classes that implement [LLMProvider]. *)
Inductive LLMProvider :=
  | AnthropicProvider (config : LLMConfig)
  | OpenAIProvider (config : LLMConfig)
  | GeminiProvider (config : LLMConfig).

(** [inl] is the error thrown in the [default] case. *)
Definition createProvider (config : LLMConfig) : string + LLMProvider :=
  if String.eqb (provider config) "anthropic"
  then inr (AnthropicProvider config)
  else if String.eqb (provider config) "openai"
  then inr (OpenAIProvider config)
  else if String.eqb (provider config) "ollama"
  then inr (OpenAIProvider
              {| provider := provider config; apiKey := apiKey config;
                 model := model config;
                 baseUrl := Some (baseUrl_or config
                                    "http://localhost:11434/v1");
                 maxTokens := maxTokens config |})
  else if String.eqb (provider config) "custom"
  then inr (OpenAIProvider config)
  else if String.eqb (provider config) "gemini"
  then inr (GeminiProvider config)
  else inl ("Unknown LLM provider: " +:+ provider config).

(** The roles of a Gemini request: ['model'] and ['user']. *)
Inductive GeminiRole := model_role | user_role.

(** The JSON bodies, by provider. *)
Inductive Body :=
  | anthropic_body (model : string) (max_tokens : Z) (system : string)
      (messages : list LLMMessage)
  | openai_body (model : string) (max_tokens : Z)
      (messages : list LLMMessage)
  | gemini_body (systemInstruction : option string)
      (contents : list (GeminiRole * string)) (maxOutputTokens : Z).

Record Request := mkRequest {
  request_url : string;
  request_headers : list (string * string);
  request_body : Body;
}.

Definition is_system (m : LLMMessage) : bool :=
  match role m with system => true | _ => false end.

(** [messages.find(m => m.role === 'system')] and
    [messages.filter(m => m.role !== 'system')] *)
Definition systemMessage (messages : list LLMMessage) : option LLMMessage :=
  List.find is_system messages.

Definition nonSystemMessages (messages : list LLMMessage)
  : list LLMMessage :=
  List.filter (fun m => negb (is_system m)) messages.

(** [m => ({ role: m.role, content: m.content })] *)
Definition plain (m : LLMMessage) : LLMMessage :=
  {| role := role m; content := content m |}.

(** [m => ({ role: m.role === 'assistant' ? 'model' : 'user',
             parts: [{ text: m.content }] })] *)
Definition gemini_turn (m : LLMMessage) : GeminiRole * string :=
  (match role m with assistant => model_role | _ => user_role end,
   content m).

(** The argument of [fetch] in [chat]. *)
Definition request (p : LLMProvider) (messages : list LLMMessage)
  : Request :=
  match p with
  | AnthropicProvider config =>
      {| request_url :=
           baseUrl_or config "https://api.anthropic.com/v1/messages";
         request_headers :=
           [("Content-Type", "application/json");
            ("x-api-key", apiKey config);
            ("anthropic-version", "2023-06-01");
            ("anthropic-dangerous-direct-browser-access", "true")];
         request_body :=
           anthropic_body (model config) (default 4096 (maxTokens config))
             (default "" (content <$> systemMessage messages))
             (map plain (nonSystemMessages messages)) |}
  | OpenAIProvider config =>
      {| request_url :=
           baseUrl_or config "https://api.openai.com/v1"
           +:+ "/chat/completions";
         request_headers :=
           ("Content-Type", "application/json")
           :: (if Js.truthy (apiKey config)
               then [("Authorization", "Bearer " +:+ apiKey config)]
               else []);
         request_body :=
           openai_body (model config) (default 4096 (maxTokens config))
             (map plain messages) |}
  | GeminiProvider config =>
      {| request_url :=
           baseUrl_or config
             "https://generativelanguage.googleapis.com/v1beta"
           +:+ "/models/" +:+ model config +:+ ":generateContent?key="
           +:+ apiKey config;
         request_headers := [("Content-Type", "application/json")];
         request_body :=
           gemini_body (content <$> systemMessage messages)
             (map gemini_turn (nonSystemMessages messages))
             (default 4096 (maxTokens config)) |}
  end.

Definition provider_label (p : LLMProvider) : string :=
  match p with
  | AnthropicProvider _ => "Anthropic"
  | OpenAIProvider _ => "OpenAI"
  | GeminiProvider _ => "Gemini"
  end.

(** The message of the error thrown when [res.ok] is false:
    [`Anthropic API error ${res.status}: ${body}`] and the like. *)
Definition api_error (p : LLMProvider) (status : Z) (body : string)
  : string :=
  provider_label p +:+ " API error " +:+ pretty status +:+ ": " +:+ body.

(** The body that carries a conversation headed by the system prompt
    whole: the prompt as the system field where the provider has one, the
    other messages in their order. *)
Definition carries (p : LLMProvider) (prompt : string)
    (rest : list LLMMessage) : Body :=
  match p with
  | AnthropicProvider config =>
      anthropic_body (model config) (default 4096 (maxTokens config))
        prompt rest
  | OpenAIProvider config =>
      openai_body (model config) (default 4096 (maxTokens config))
        ({| role := system; content := prompt |} :: rest)
  | GeminiProvider config =>
      gemini_body (Some prompt) (map gemini_turn rest)
        (default 4096 (maxTokens config))
  end.

Definition example_config : LLMConfig :=
  {| provider := "anthropic"; apiKey := "sk-test";
     model := "claude-sonnet-4-20250514"; baseUrl := None;
     maxTokens := Some 4096 |}.

End Provider.

(** ** The validation of a plan ([parsePlan], after [JSON.parse])

    [parsePlan] cleans the model's text, parses it, and checks and
    completes the value it gets.  The cleaning and the parsing are
    regular-expression and JSON work and stay behind [Planner.parsePlan];
    this is the part that follows, on the parsed value. *)

Module PlanJson.

#[warnings="-register-all"]
Inductive Json :=
  | JNull
  | JBool (b : bool)
  | JNumber (q : Q)
  | JString (s : string)
  | JArray (items : list Json)
  | JObject (fields : list (string * Json)).

(** A value read from a property: [None] is [undefined]. *)
Definition truthy (v : option Json) : bool :=
  match v with
  | None => false
  | Some JNull => false
  | Some (JBool b) => b
  | Some (JNumber q) => negb (Qeq_bool q 0)
  | Some (JString s) => Js.truthy s
  | Some (JArray _) => true
  | Some (JObject _) => true
  end.

(** The own properties of an object, in insertion order. *)
Fixpoint lookup_field (key : string) (fields : list (string * Json))
  : option Json :=
  match fields with
  | [] => None
  | (k, v) :: rest =>
      if String.eqb k key then Some v else lookup_field key rest
  end.

(** [obj[key] = v]: the property keeps its place when it exists and is
    added at the end when it does not. *)
Fixpoint set_field (key : string) (v : Json) (fields : list (string * Json))
  : list (string * Json) :=
  match fields with
  | [] => [(key, v)]
  | (k, old) :: rest =>
      if String.eqb k key then (k, v) :: rest
      else (k, old) :: set_field key v rest
  end.

(** What validation throws. *)
Inductive PlanError :=
  | TypeError                  (* a property of [null] was read *)
  | MissingReasoning           (* Missing "reasoning" string in plan *)
  | MissingSteps               (* Missing "steps" array in plan *)
  | MissingKind                (* Invalid step: missing action.kind *)
  | InvalidKind (kind : Json). (* Invalid action kind: ... *)

(** [v.key], for the keys that validation reads, none of which a
    prototype defines: reading from [null] or [undefined] throws, reading
    from an array or a primitive gives [undefined]. *)
Definition get (v : option Json) (key : string) : PlanError + option Json :=
  match v with
  | None => inl TypeError
  | Some JNull => inl TypeError
  | Some (JObject fields) => inr (lookup_field key fields)
  | Some _ => inr None
  end.

(** [v?.key] *)
Definition get_optional (v : option Json) (key : string)
  : PlanError + option Json :=
  match v with
  | None => inr None
  | Some JNull => inr None
  | _ => get v key
  end.

Definition validKinds : list string :=
  ["click"; "type"; "select"; "scroll"; "navigate"; "read"; "wait"].

(** [actionNeedsVerification], which switches on [action.kind]. *)
Definition actionNeedsVerification (kind : string) : bool :=
  if String.eqb kind "click" then true
  else if String.eqb kind "navigate" then true
  else if String.eqb kind "scroll" then true
  else false.

(** The body of the loop over the steps; the result is the step as the
    loop leaves it. *)
Definition validate_step (step : Json) : PlanError + Json :=
  match get (Some step) "action" with
  | inl e => inl e
  | inr action =>
      match get_optional action "kind" with
      | inl e => inl e
      | inr kind =>
          if negb (truthy kind) then inl MissingKind else
          match kind with
          | Some (JString k) =>
              if negb (Parser.has k validKinds)
              then inl (InvalidKind (JString k))
              else
                match step with
                | JObject fields =>
                    match lookup_field "needsVerification" fields with
                    | Some (JBool _) => inr step
                    | _ =>
                        inr (JObject
                               (set_field "needsVerification"
                                  (JBool (actionNeedsVerification k))
                                  fields))
                    end
                | _ => inr step   (* not reached: [step.action] was read *)
                end
          | Some other => inl (InvalidKind other)
          | None => inl MissingKind   (* not reached: [kind] is truthy *)
          end
      end
  end.

Fixpoint validate_steps (steps : list Json) : PlanError + list Json :=
  match steps with
  | [] => inr []
  | step :: rest =>
      match validate_step step with
      | inl e => inl e
      | inr step' =>
          match validate_steps rest with
          | inl e => inl e
          | inr rest' => inr (step' :: rest')
          end
      end
  end.

Definition validate (parsed : Json) : PlanError + Json :=
  match get (Some parsed) "reasoning" with
  | inl e => inl e
  | inr reasoning =>
      if negb (truthy reasoning)
         || negb match reasoning with Some (JString _) => true | _ => false end
      then inl MissingReasoning else
      match get (Some parsed) "steps" with
      | inl e => inl e
      | inr (Some (JArray steps)) =>
          match validate_steps steps with
          | inl e => inl e
          | inr steps' =>
              match parsed with
              | JObject fields =>
                  inr (JObject (set_field "steps" (JArray steps') fields))
              | _ => inr parsed   (* not reached: [parsed.steps] was read *)
              end
          end
      | inr _ => inl MissingSteps
      end
  end.

(** The kind of a typed action, as its [kind] property. *)
Definition kind_of (action : Planner.Action) : string :=
  match action with
  | Planner.click _ => "click"
  | Planner.type _ _ _ => "type"
  | Planner.select _ _ => "select"
  | Planner.scroll _ _ => "scroll"
  | Planner.navigate _ => "navigate"
  | Planner.read _ => "read"
  | Planner.wait _ => "wait"
  end.

(** A step of an accepted plan: its action has one of the seven kinds and
    its [needsVerification] is a boolean. *)
Definition checked_step (step : Json) : Prop :=
  exists fields action kind b,
    step = JObject fields /\
    lookup_field "action" fields = Some (JObject action) /\
    lookup_field "kind" action = Some (JString kind) /\
    kind ∈ validKinds /\
    lookup_field "needsVerification" fields = Some (JBool b).

(** A step that validation lets pass: an object whose [action] is an
    object with one of the seven kinds. *)
Definition kinded_step (step : Json) : Prop :=
  exists fields action kind,
    step = JObject fields /\
    lookup_field "action" fields = Some (JObject action) /\
    lookup_field "kind" action = Some (JString kind) /\
    kind ∈ validKinds.

(** A plan with a click that has no ref and no flag. *)
Definition example_plan : Json :=
  JObject
    [("reasoning", JString "Click the button");
     ("steps",
      JArray [JObject [("action", JObject [("kind", JString "click")])]])].

(** The same plan as validation returns it. *)
Definition example_plan_checked : Json :=
  JObject
    [("reasoning", JString "Click the button");
     ("steps",
      JArray [JObject [("action", JObject [("kind", JString "click")]);
                       ("needsVerification", JBool true)]])].

(** A plan with a type action that has neither a ref nor a text, and
    carries a property that no plan has. *)
Definition example_plan_untyped : Json :=
  JObject
    [("reasoning", JString "Type the query");
     ("steps",
      JArray [JObject [("action", JObject [("kind", JString "type")]);
                       ("needsVerification", JBool false)]]);
     ("confidence", JNumber 1)].

End PlanJson.

(** ** The properties of an element ([getProps] of the parser) *)

Module Props.

(** What [getProps] reads from an element: the lower-cased tag, its
    attributes, and for form controls the [value], [type], [checked],
    [disabled] and [readOnly] properties. *)
Record Element := mkElement {
  tagName : string;
  getAttribute : string -> option string;
  value : string;
  type : string;
  checked : bool;
  disabled : bool;
  readOnly : bool;
}.

(** [props[key] = v] on an object whose entries are read in insertion
    order. *)
Fixpoint assign (key v : string) (props : list (string * string))
  : list (string * string) :=
  match props with
  | [] => [(key, v)]
  | (k, old) :: rest =>
      if String.eqb k key then (k, v) :: rest
      else (k, old) :: assign key v rest
  end.

(** [if (cond) props[key] = v] *)
Definition assign_if (cond : bool) (key v : string)
    (props : list (string * string)) : list (string * string) :=
  if cond then assign key v props else props.

(** An attribute as a condition and as a value: [null] and the empty
    string are falsy. *)
Definition attr (el : Element) (name : string) : string :=
  default "" (getAttribute el name).

(** [String(b)] *)
Definition string_of_bool (b : bool) : string :=
  if b then "true" else "false".

Definition getProps (el : Element) : list (string * string) :=
  let tag := tagName el in
  let props := [] in
  let props :=
    if String.eqb tag "a"
    then assign_if (Js.truthy (attr el "href")) "href" (attr el "href") props
    else props in
  let props :=
    if String.eqb tag "input" || String.eqb tag "textarea" then
      let props := assign_if (Js.truthy (value el)) "value" (value el) props in
      let props :=
        assign_if (String.eqb (type el) "checkbox"
                   || String.eqb (type el) "radio")
          "checked" (string_of_bool (checked el)) props in
      let props := assign_if (disabled el) "disabled" "true" props in
      let props := assign_if (readOnly el) "readonly" "true" props in
      assign_if (Js.truthy (type el) && negb (String.eqb (type el) "text"))
        "type" (type el) props
    else props in
  let props :=
    if String.eqb tag "select"
    then assign_if (Js.truthy (value el)) "value" (value el) props
    else props in
  let props :=
    assign_if (Js.truthy (attr el "aria-expanded")) "expanded"
      (attr el "aria-expanded") props in
  let props :=
    assign_if (Js.truthy (attr el "aria-selected")) "selected"
      (attr el "aria-selected") props in
  let props :=
    assign_if (match getAttribute el "aria-disabled" with
               | Some v => String.eqb v "true"
               | None => false
               end) "disabled" "true" props in
  assign_if (Js.truthy (attr el "aria-current")) "current"
    (attr el "aria-current") props.

(** The entries of a props object: no key twice, no empty value. *)
Definition proper (props : list (string * string)) : Prop :=
  NoDup (map fst props) /\
  Forall (fun kv => Js.truthy (snd kv) = true) props.

(** A disabled checkbox that is also marked [aria-disabled]. *)
Definition example_checkbox : Element :=
  {| tagName := "input";
     getAttribute := fun name =>
       if String.eqb name "aria-disabled" then Some "true" else None;
     value := "on"; type := "checkbox"; checked := true;
     disabled := true; readOnly := false |}.

End Props.

(** ** Messages between the service worker and the content script *)

Module Messaging.
Import Planner.

(** What the content script passes to [sendResponse], as the service
    worker reads it: the properties [success], [data] and [error], and the
    [snapshot] and [pong] that some replies carry.  [None] stands for a
    property that is absent. *)
Record Reply := mkReply {
  reply_success : option bool;
  reply_data : option PageSnapshot;
  reply_error : option string;
  reply_snapshot : option PageSnapshot;
  reply_pong : option bool;
}.

(** *** The content script (content/index.ts) *)

(** PING: [{ pong: true }] *)
Definition pong_reply : Reply :=
  {| reply_success := None; reply_data := None; reply_error := None;
     reply_snapshot := None; reply_pong := Some true |}.

(** GET_SNAPSHOT: [{ success: true, data: snapshot }], or
    [{ success: false, error: String(error) }] when [takeSnapshot]
    throws. *)
Definition snapshot_reply (outcome : string + PageSnapshot) : Reply :=
  match outcome with
  | inr snapshot =>
      {| reply_success := Some true; reply_data := Some snapshot;
         reply_error := None; reply_snapshot := None; reply_pong := None |}
  | inl error =>
      {| reply_success := Some false; reply_data := None;
         reply_error := Some error; reply_snapshot := None;
         reply_pong := None |}
  end.

(** EXECUTE_ACTION: the step result as it is, or
    [{ success: false, error: String(error) }] when the promise
    rejects. *)
Definition action_reply (outcome : string + StepResult) : Reply :=
  match outcome with
  | inr result =>
      {| reply_success := Some (success result); reply_data := None;
         reply_error := error result; reply_snapshot := snapshot result;
         reply_pong := None |}
  | inl error =>
      {| reply_success := Some false; reply_data := None;
         reply_error := Some error; reply_snapshot := None;
         reply_pong := None |}
  end.

(** *** The service worker (background/service-worker.ts) *)

(** What [sendToTab] returns: [response?.data ?? response]. *)
Inductive Returned :=
  | Data (data : PageSnapshot)
  | Whole (response : option Reply).

(** [sendToTab], from the response on; [inl] is the error thrown. *)
Definition sendToTab (response : option Reply) : string + Returned :=
  match response with
  | Some reply =>
      match reply_success reply with
      | Some false =>
          inl (Js.or_else (default "" (reply_error reply))
                 "Content script error")
      | _ =>
          match reply_data reply with
          | Some data => inr (Data data)
          | None => inr (Whole response)
          end
      end
  | None => inr (Whole None)
  end.

(** [executeActionOnTab]: the action is sent, and after a click or a
    navigation the tab is waited for; [settle] is the error that the wait
    throws, if any. *)
Definition executeActionOnTab (action : Action)
    (outcome : string + StepResult) (settle : option string)
  : string + Returned :=
  match sendToTab (Some (action_reply outcome)) with
  | inl thrown => inl thrown
  | inr result =>
      match action with
      | navigate _ | click _ =>
          match settle with
          | Some thrown => inl thrown
          | None => inr result
          end
      | _ => inr result
      end
  end.

(** The result that the planner and the recorder read from what
    [executeActionOnTab] returned. *)
Definition as_result (returned : Returned) : option StepResult :=
  match returned with
  | Whole (Some reply) =>
      match reply_success reply with
      | Some ok =>
          Some {| success := ok; snapshot := reply_snapshot reply;
                  error := reply_error reply |}
      | None => None
      end
  | _ => None
  end.

(** The [executeAction] callback that [runTask] hands to the planner:
    the action is executed on the tab, the step is recorded, the result is
    returned.  An error thrown on the way leaves the callback before the
    step is recorded. *)
Definition executeAction_callback (action : Action)
    (outcome : string + StepResult) (settle : option string)
    (url : string) (now : Z) (store : Recorder.Store)
  : (string + StepResult) * Recorder.Store :=
  match executeActionOnTab action outcome settle with
  | inl thrown => (inl thrown, store)
  | inr returned =>
      match as_result returned with
      | Some result =>
          (inr result, Recorder.recordStep action url result now store)
      | None =>
          (* not reached: the reply to EXECUTE_ACTION has [success] *)
          (inl "TypeError", store)
      end
  end.

End Messaging.

(** ** The tab manager (background/tab-manager.ts) *)

Module TabManager.

Definition PING_TIMEOUT_MS : Z := 1000.

(** How a ping ends: with the reply of the content script, with no reply
    value, with a rejected [sendMessage], or with the timeout. *)
Inductive PingOutcome :=
  | PingReply (reply : Messaging.Reply)
  | PingUndefined
  | PingRejects
  | PingTimeout.

(** What an observer sees: the PING message sent, a ping timer that ran
    out after [ms] (the timer of a ping that is settled before does not
    hold the caller up), the injection, and the timers that
    [ensureContentScript] waits for itself. *)
Inductive Event := Ping | TimedOut (ms : Z) | Inject | Sleep (ms : Z).

(** [pingTab]: the message is raced against a timer of [PING_TIMEOUT_MS];
    the result is [response?.pong === true], and [false] when anything is
    thrown, by [sendMessage] or by the timer. *)
Definition pingTab (outcome : PingOutcome) : list Event * bool :=
  match outcome with
  | PingReply reply =>
      ([Ping],
       match Messaging.reply_pong reply with
       | Some true => true
       | _ => false
       end)
  | PingUndefined => ([Ping], false)
  | PingRejects => ([Ping], false)
  | PingTimeout => ([Ping; TimedOut PING_TIMEOUT_MS], false)
  end.

(** [ensureContentScript]: [pings k] is how the [k]-th ping ends and
    [inject] the error of [executeScript], if it throws.  The result is
    the error thrown, if any. *)
Definition ensureContentScript (pings : nat -> PingOutcome)
    (inject : option string) : list Event * option string :=
  let first := pingTab (pings 0%nat) in
  if first.2 then (first.1, None) else
  match inject with
  | Some error =>
      (first.1 ++ [Inject],
       Some ("Cannot inject content script: " +:+ error))
  | None =>
      let second := pingTab (pings 1%nat) in
      let injected := first.1 ++ [Inject; Sleep 200] ++ second.1 in
      if second.2 then (injected, None) else
      let third := pingTab (pings 2%nat) in
      (injected ++ [Sleep 1000] ++ third.1,
       if third.2 then None
       else Some "Content script failed to load. The page may block extensions (e.g., chrome:// pages).")
  end.

Definition pings_of (t : list Event) : nat :=
  length (List.filter (fun e => match e with Ping => true | _ => false end)
                      t).

Definition injections_of (t : list Event) : nat :=
  length (List.filter (fun e => match e with Inject => true | _ => false end)
                      t).

(** The time spent in the timers of [ensureContentScript] itself, and the
    time spent in all timers that were waited for to their end. *)
Definition slept (t : list Event) : Z :=
  fold_right (fun e acc => match e with Sleep ms => ms + acc | _ => acc end)
             0 t.

Definition waited (t : list Event) : Z :=
  fold_right (fun e acc => match e with
                           | Sleep ms | TimedOut ms => ms + acc
                           | _ => acc
                           end)
             0 t.

(** The pings among the first [n] that ended by the timeout. *)
Definition is_timeout (outcome : PingOutcome) : bool :=
  match outcome with PingTimeout => true | _ => false end.

Definition timeouts (pings : nat -> PingOutcome) (n : nat) : nat :=
  length (List.filter (fun k => is_timeout (pings k)) (seq 0 n)).

End TabManager.

(** * Properties *)

(** ** Strings *)

Module JsFacts.
Import Js.

Lemma length_app (a b : string) :
  String.length (a +:+ b) = (String.length a + String.length b)%nat.
Proof. induction a as [|c a IH]; simpl; [reflexivity | now rewrite IH]. Qed.

Lemma len_app (a b : string) : len (a +:+ b) = len a + len b.
Proof. unfold len. rewrite length_app. lia. Qed.

Lemma len_nonneg (s : string) : 0 <= len s.
Proof. unfold len. lia. Qed.

End JsFacts.

(** ** The ref table *)

Module RefFacts.
Import Parser.

Lemma ref_of_inj (a b : nat) : ref_of a = ref_of b -> a = b.
Proof.
  unfold ref_of. intros H.
  change (String "e" (pretty a) = String "e" (pretty b)) in H.
  injection H as H. now apply (inj pretty) in H.
Qed.

Lemma ref_of_truthy (k : nat) : Js.truthy (ref_of k) = true.
Proof. reflexivity. Qed.

Lemma numbered_reset (st : RefState) : numbered (reset_refs st).
Proof. intros r el H. simpl in H. rewrite lookup_empty in H. discriminate. Qed.

Lemma linked_reset (st : RefState) : linked (reset_refs st).
Proof. intros r el H. simpl in H. rewrite lookup_empty in H. discriminate. Qed.

Lemma numbered_fresh (st : RefState) :
  numbered st -> elementsByRef st !! ref_of (S (refCounter st)) = None.
Proof.
  intros Hn. destruct (elementsByRef st !! _) as [el|] eqn:E; [|reflexivity].
  destruct (Hn _ _ E) as (k & Hk & Heq). apply ref_of_inj in Heq. lia.
Qed.

Lemma create_ref_numbered (el : Element) (st : RefState) :
  numbered st -> numbered (create_ref el st).2.
Proof.
  intros Hn r e. simpl. rewrite lookup_insert. case_decide as Hd.
  - intros _. exists (S (refCounter st)). split; [lia | congruence].
  - intros H. destruct (Hn _ _ H) as (k & Hk & ->).
    exists k. split; [lia | reflexivity].
Qed.

Lemma create_ref_lookup (el : Element) (st : RefState) :
  elementsByRef (create_ref el st).2 !! (create_ref el st).1 = Some el.
Proof. simpl. apply lookup_insert_eq. Qed.

Lemma create_ref_mono (el : Element) (st : RefState) r e :
  numbered st ->
  elementsByRef st !! r = Some e ->
  elementsByRef (create_ref el st).2 !! r = Some e.
Proof.
  intros Hn H. simpl. rewrite lookup_insert_ne; [exact H|].
  intros <-. rewrite (numbered_fresh st Hn) in H. discriminate.
Qed.

(** [create_ref] keeps the back-links when the element has no entry yet. *)
Lemma create_ref_linked (el : Element) (st : RefState) :
  numbered st -> linked st ->
  (forall r, elementsByRef st !! r <> Some el) ->
  linked (create_ref el st).2.
Proof.
  intros Hn Hl Hnew r e. simpl. rewrite lookup_insert. case_decide as Hd.
  - intros [= <-]. subst r. apply lookup_insert_eq.
  - intros H. rewrite lookup_insert_ne.
    + apply Hl, H.
    + intros <-. exact (Hnew _ H).
Qed.

Lemma create_ref_all_bound (el : Element) (st : RefState) :
  all_bound st -> all_bound (create_ref el st).2.
Proof.
  intros Hb k Hk. simpl in *. rewrite lookup_insert. case_decide; [eauto|].
  apply Hb. destruct (decide (k = S (refCounter st))); [congruence | lia].
Qed.

(** A call either hands the state back or creates a ref. *)
Lemma getOrCreateRef_either (heap : Heap) (el : Element) (st : RefState) :
  (getOrCreateRef heap el st).2 = st \/
  getOrCreateRef heap el st = create_ref el st.
Proof.
  unfold getOrCreateRef.
  repeat (match goal with
          | |- context [match ?x with _ => _ end] => destruct x
          end; simpl; auto).
Qed.

(** One call on a live element of a well-formed table: the element's entry
    is found and returned, or there is none and one is created. *)
Lemma getOrCreateRef_cases (heap : Heap) (el : Element) (st : RefState) :
  numbered st -> linked st -> heap el = true ->
  (exists r, elementsByRef st !! r = Some el /\
             getOrCreateRef heap el st = (r, st)) \/
  ((forall r, elementsByRef st !! r <> Some el) /\
   getOrCreateRef heap el st = create_ref el st).
Proof.
  intros Hn Hl Hlive.
  assert (Hback : forall r, elementsByRef st !! r = Some el ->
                            refsByElement st !! el = Some r)
    by (intros; now apply Hl).
  unfold getOrCreateRef.
  destruct (refsByElement st !! el) as [existing|] eqn:Eex.
  - assert (Hsame : forall r, elementsByRef st !! r = Some el -> r = existing).
    { intros r Hr. pose proof (Hback _ Hr). congruence. }
    destruct (Js.truthy existing) eqn:Et.
    + destruct (elementsByRef st !! existing) as [target|] eqn:Etg; simpl.
      * unfold deref. destruct (heap target) eqn:Eh; simpl.
        -- case_decide as Hd.
           ++ subst target. left. eauto.
           ++ right. split; [|reflexivity].
              intros r Hr. pose proof (Hsame _ Hr). congruence.
        -- right. split; [|reflexivity].
           intros r Hr. pose proof (Hsame _ Hr). congruence.
      * right. split; [|reflexivity].
        intros r Hr. pose proof (Hsame _ Hr). congruence.
    + right. split; [|reflexivity].
      intros r Hr. pose proof (Hsame _ Hr). subst r.
      destruct (Hn _ _ Hr) as (k & _ & ->).
      rewrite ref_of_truthy in Et. discriminate.
  - right. split; [|reflexivity].
    intros r Hr. pose proof (Hback _ Hr). discriminate.
Qed.

Lemma getOrCreateRef_spec (heap : Heap) (el : Element) (st : RefState) :
  numbered st -> linked st -> heap el = true ->
  let r := (getOrCreateRef heap el st).1 in
  let st' := (getOrCreateRef heap el st).2 in
  numbered st' /\ linked st' /\
  elementsByRef st' !! r = Some el /\
  (forall r0 e0, elementsByRef st !! r0 = Some e0 ->
                 elementsByRef st' !! r0 = Some e0).
Proof.
  intros Hn Hl Hlive. cbv zeta.
  destruct (getOrCreateRef_cases heap el st Hn Hl Hlive)
    as [(r & Hr & ->) | (Hnew & ->)].
  - simpl. auto.
  - repeat split.
    + now apply create_ref_numbered.
    + now apply create_ref_linked.
    + apply create_ref_lookup.
    + intros r0 e0. now apply create_ref_mono.
Qed.

(** Two well-formed states with the same table answer a call alike. *)
Lemma getOrCreateRef_same_table (heap1 heap2 : Heap) (el : Element)
    (st1 st2 : RefState) :
  heap1 el = true /\ heap2 el = true ->
  same_table st1 st2 ->
  (getOrCreateRef heap1 el st1).1 = (getOrCreateRef heap2 el st2).1 /\
  same_table (getOrCreateRef heap1 el st1).2 (getOrCreateRef heap2 el st2).2.
Proof.
  intros [Hl1 Hl2] (Hn1 & Hk1 & Hn2 & Hk2 & Hc & Ht).
  destruct (getOrCreateRef_cases heap1 el st1 Hn1 Hk1 Hl1)
    as [(r1 & Hr1 & ->) | (Hnew1 & ->)];
  destruct (getOrCreateRef_cases heap2 el st2 Hn2 Hk2 Hl2)
    as [(r2 & Hr2 & ->) | (Hnew2 & ->)].
  - simpl. split; [|repeat split; assumption].
    rewrite Ht in Hr1. apply Hk2 in Hr1, Hr2. congruence.
  - rewrite Ht in Hr1. destruct (Hnew2 _ Hr1).
  - rewrite <- Ht in Hr2. destruct (Hnew1 _ Hr2).
  - split.
    + simpl. now rewrite Hc.
    + unfold same_table. repeat split.
      * now apply create_ref_numbered.
      * now apply create_ref_linked.
      * now apply create_ref_numbered.
      * now apply create_ref_linked.
      * simpl. now rewrite Hc.
      * simpl. now rewrite Hc, Ht.
Qed.

(** A run of calls on live elements: every ref handed out points to its
    element in the table the run ends with. *)
Lemma assign_refs_spec (heap : Heap) (els : list Element) (st : RefState) :
  numbered st -> linked st ->
  (forall el, el ∈ els -> heap el = true) ->
  let refs := (assign_refs heap els st).1 in
  let st' := (assign_refs heap els st).2 in
  numbered st' /\ linked st' /\
  Forall2 (fun el r => elementsByRef st' !! r = Some el) els refs /\
  (forall r0 e0, elementsByRef st !! r0 = Some e0 ->
                 elementsByRef st' !! r0 = Some e0).
Proof.
  revert st. induction els as [|el els IH]; intros st Hn Hl Hlive; cbv zeta.
  - simpl. repeat split; auto.
  - simpl.
    pose proof (getOrCreateRef_spec heap el st Hn Hl
                  (Hlive el (list_elem_of_here _ _))) as Hone.
    cbv zeta in Hone.
    destruct (getOrCreateRef heap el st) as [r st1]. simpl in Hone.
    destruct Hone as (Hn1 & Hl1 & Hr & Hmono1).
    specialize (IH st1 Hn1 Hl1
                  (fun e He => Hlive e (list_elem_of_further _ _ _ He))).
    cbv zeta in IH.
    destruct (assign_refs heap els st1) as [rs st2]. simpl in IH |- *.
    destruct IH as (Hn2 & Hl2 & Hall & Hmono2).
    repeat split; auto.
Qed.

(** C10. Between two resets of the ref table, for any run of
    [getOrCreateRef] calls on live elements: two calls return the same ref
    exactly when they were made on the same element (the same element gets
    the same ref again, distinct elements get distinct refs), and
    [resolveRef] on a ref that was returned yields the element it was
    returned for. *)
Theorem C10_refs_idempotent_injective
    (heap : Heap) (els : list Element) (st : RefState) :
  (forall el, el ∈ els -> heap el = true) ->
  let refs := (assign_refs heap els (reset_refs st)).1 in
  let st' := (assign_refs heap els (reset_refs st)).2 in
  length refs = length els /\
  forall i j a b ra rb,
    els !! i = Some a -> els !! j = Some b ->
    refs !! i = Some ra -> refs !! j = Some rb ->
    (a = b <-> ra = rb) /\ resolveRef heap ra st' = Some a.
Proof.
  intros Hlive.
  pose proof (assign_refs_spec heap els (reset_refs st)
                (numbered_reset st) (linked_reset st) Hlive) as H.
  cbv zeta in H |- *. destruct H as (Hn & Hl & Hall & _).
  split; [symmetry; eapply Forall2_length, Hall|].
  intros i j a b ra rb Ha Hb Hra Hrb.
  pose proof (Forall2_lookup_lr _ _ _ _ _ _ Hall Ha Hra) as Hta.
  pose proof (Forall2_lookup_lr _ _ _ _ _ _ Hall Hb Hrb) as Htb.
  simpl in Hta, Htb. split.
  - split.
    + intros ->. apply Hl in Hta, Htb. congruence.
    + intros ->. congruence.
  - unfold resolveRef. rewrite Hta. simpl. unfold deref.
    rewrite (Hlive a); [reflexivity|].
    apply list_elem_of_lookup. eauto.
Qed.

(** The theorem at two buttons, the first asked for twice, with a stale
    entry of an earlier snapshot in the [WeakMap]. *)
Lemma C10_witness :
  let st := {| refCounter := 7; elementsByRef := {["e3" := 5%nat]};
               refsByElement := {[5%nat := "e3"]} |} in
  let els := [5; 6; 5]%nat in
  (forall el, el ∈ els -> all_live el = true) /\
  (assign_refs all_live els (reset_refs st)).1 = ["e1"; "e2"; "e1"] /\
  resolveRef all_live "e1" (assign_refs all_live els (reset_refs st)).2
  = Some 5%nat.
Proof.
  intros st els. split; [reflexivity|]. split; [vm_compute; reflexivity|].
  refine (proj2 (proj2 (C10_refs_idempotent_injective all_live els st
                          (fun _ _ => eq_refl))
                   0%nat 2%nat 5%nat 5%nat "e1" "e1" _ _ _ _));
    vm_compute; reflexivity.
Defined.

End RefFacts.

(** ** Snapshots *)

Module SnapshotFacts.
Import Parser RefFacts.

(** Two builds of the same document, from states related by [R], on which
    [getOrCreateRef] answers alike for the elements of the document. *)
Section Related.
Variables heap1 heap2 : Heap.
Variable R : RefState -> RefState -> Prop.
Variable L : Element -> Prop.
Hypothesis getOrCreateRef_related : forall id st1 st2,
  L id -> R st1 st2 ->
  (getOrCreateRef heap1 id st1).1 = (getOrCreateRef heap2 id st2).1 /\
  R (getOrCreateRef heap1 id st1).2 (getOrCreateRef heap2 id st2).2.

Lemma for_children_related (cs : list DomElement)
    (f g : DomElement -> RefState -> option PageNode * RefState) :
  Forall (fun c => related_on R (f c) (g c)) cs ->
  related_on R (for_children f cs) (for_children g cs).
Proof.
  induction 1 as [|c cs Hc _ IH]; intros st1 st2 HR; simpl.
  - auto.
  - destruct (Hc st1 st2 HR) as [E1 HR1].
    destruct (f c st1) as [n1 s1], (g c st2) as [n2 s2]. simpl in E1, HR1.
    destruct (IH s1 s2 HR1) as [E2 HR2].
    destruct (for_children f cs s1) as [r1 t1].
    destruct (for_children g cs s2) as [r2 t2]. simpl in *. subst.
    auto.
Qed.

Lemma buildNode_related (el : DomElement) :
  Forall L (dom_ids el) ->
  forall depth maxDepth viewportOnly,
    related_on R (buildNode heap1 el depth maxDepth viewportOnly)
                 (buildNode heap2 el depth maxDepth viewportOnly).
Proof.
  induction el as [el IHc IHf] using dom_ind.
  intros Hl depth maxDepth viewportOnly st1 st2 HR.
  destruct el as [id tg vis inv rl inter nm prps txt cs ttl fname src doc].
  cbn [buildNode].
  cbn [el_tag el_visible el_in_viewport el_children el_content_document
       el_id el_role el_interactive el_name el_props el_shallow_text
       el_title el_frame_name el_src] in *.
  cbn [dom_ids el_id el_children el_content_document] in Hl.
  apply Forall_cons in Hl as [Hid Hl]. apply Forall_app in Hl as [Hcs Hdoc].
  destruct (has tg SKIP_TAGS); [auto|].
  destruct (negb vis); [auto|].
  destruct (maxDepth <? depth); [auto|].
  destruct (viewportOnly && negb inv); [auto|].
  destruct (String.eqb tg "iframe").
  - destruct doc as [| |body]; [| auto |].
    + destruct (getOrCreateRef_related id st1 st2 Hid HR) as [E HR'].
      destruct (getOrCreateRef heap1 id st1), (getOrCreateRef heap2 id st2).
      simpl in *. subst. auto.
    + simpl in IHf.
      destruct (IHf Hdoc (depth + 1) maxDepth viewportOnly st1 st2 HR)
        as [E HR1].
      destruct (buildNode heap1 body _ _ _ st1) as [n1 s1].
      destruct (buildNode heap2 body _ _ _ st2) as [n2 s2].
      simpl in E, HR1. subst n2. destruct n1 as [n1|]; [|auto].
      destruct (getOrCreateRef_related id s1 s2 Hid HR1) as [E HR'].
      destruct (getOrCreateRef heap1 id s1), (getOrCreateRef heap2 id s2).
      simpl in *. subst. auto.
  - assert (Hch : related_on R
              (for_children
                 (fun child =>
                    buildNode heap1 child (depth + 1) maxDepth viewportOnly)
                 cs)
              (for_children
                 (fun child =>
                    buildNode heap2 child (depth + 1) maxDepth viewportOnly)
                 cs)).
    { apply for_children_related. clear -IHc Hcs.
      induction IHc as [|c cs Hc _ IH]; constructor.
      - simpl in Hcs. apply Forall_app in Hcs as [Hc' _]. now apply Hc.
      - apply IH. simpl in Hcs. now apply Forall_app in Hcs as [_ ?]. }
    destruct (Hch st1 st2 HR) as [E HR1].
    destruct (for_children _ cs st1) as [ch1 s1].
    destruct (for_children _ cs st2) as [ch2 s2].
    simpl in E, HR1. subst ch2.
    destruct (_ && (length ch1 =? 1)%nat); [auto|].
    destruct (_ && (length ch1 =? 0)%nat && _); [auto|].
    destruct (inter || Js.truthy rl).
    + destruct (getOrCreateRef_related id s1 s2 Hid HR1) as [E HR'].
      destruct (getOrCreateRef heap1 id s1), (getOrCreateRef heap2 id s2).
      simpl in *. subst. auto.
    + auto.
Qed.
End Related.

(** A build keeps the table numbered [e1 .. e<refCounter>] with every
    number bound, whatever the document. *)
Lemma buildNode_numbering (heap : Heap) (el : DomElement)
    (depth maxDepth : Z) (viewportOnly : bool) (st : RefState) :
  numbered st -> all_bound st ->
  numbered (buildNode heap el depth maxDepth viewportOnly st).2 /\
  all_bound (buildNode heap el depth maxDepth viewportOnly st).2.
Proof.
  intros Hn Hb.
  pose (R := fun st1 st2 : RefState =>
               (numbered st1 /\ all_bound st1) /\ st1 = st2).
  assert (H : R (buildNode heap el depth maxDepth viewportOnly st).2
                (buildNode heap el depth maxDepth viewportOnly st).2).
  { eapply (buildNode_related heap heap R (fun _ => True)).
    - intros id s1 s2 _ [[Hn1 Hb1] <-]. split; [reflexivity|].
      split; [|reflexivity].
      destruct (getOrCreateRef_either heap id s1) as [-> | ->]; [auto|].
      split; [now apply create_ref_numbered | now apply create_ref_all_bound].
    - apply Forall_true. auto.
    - split; [split; assumption | reflexivity]. }
  exact (proj1 H).
Qed.

(** Two builds of one document whose elements are all live hand out the
    same refs and leave the same table, whatever the [WeakMap] held. *)
Lemma buildNode_rebuilt (heap1 heap2 : Heap) (el : DomElement)
    (depth maxDepth : Z) (viewportOnly : bool) (st1 st2 : RefState) :
  (forall id, id ∈ dom_ids el -> heap1 id = true /\ heap2 id = true) ->
  same_table st1 st2 ->
  (buildNode heap1 el depth maxDepth viewportOnly st1).1
  = (buildNode heap2 el depth maxDepth viewportOnly st2).1 /\
  same_table (buildNode heap1 el depth maxDepth viewportOnly st1).2
             (buildNode heap2 el depth maxDepth viewportOnly st2).2.
Proof.
  intros Hlive Hsame.
  eapply (buildNode_related heap1 heap2 same_table
            (fun id => heap1 id = true /\ heap2 id = true)).
  - intros id s1 s2. apply getOrCreateRef_same_table.
  - apply Forall_forall. exact Hlive.
  - exact Hsame.
Qed.

Lemma same_table_reset (st1 st2 : RefState) :
  same_table (reset_refs st1) (reset_refs st2).
Proof.
  repeat split; auto using numbered_reset, linked_reset.
Qed.

(** The state [takeSnapshot] leaves is the state its build leaves. *)
Lemma takeSnapshot_state (heap : Heap) (options : SnapshotOptions)
    (page : Page) (st : RefState) :
  (takeSnapshot heap options page st).2
  = (buildNode heap (page_root page) 0 (default 12 (opt_maxDepth options))
       (default true (opt_viewportOnly options)) (reset_refs st)).2.
Proof.
  unfold takeSnapshot.
  destruct (buildNode _ _ _ _ _ _) as [[t|] s]; reflexivity.
Qed.

(** The text of a snapshot is the serialization of the tree that was
    built. *)
Lemma takeSnapshot_tree (heap : Heap) (options : SnapshotOptions)
    (page : Page) (st : RefState) (built : PageNode) (st1 : RefState) :
  buildNode heap (page_root page) 0 (default 12 (opt_maxDepth options))
    (default true (opt_viewportOnly options)) (reset_refs st)
  = (Some built, st1) ->
  tree (takeSnapshot heap options page st).1
  = Js.join Js.nl
      (lines (serialize (default FilterAll (opt_filter options)) built
                (default 30000 (opt_maxChars options)))).
Proof. intros H. unfold takeSnapshot. now rewrite H. Qed.

(** C1 (as stated, refuted). On the example page, left untouched, the ref
    [e1] that the first snapshot handed out for the Submit button still
    resolves after the second snapshot, to the same button. *)
Lemma C1_counterexample :
  let st1 := (takeSnapshot all_live no_options example_page fresh_refs).2 in
  let st2 := (takeSnapshot all_live no_options example_page st1).2 in
  resolveRef all_live "e1" st1 = Some 2%nat /\
  resolveRef all_live "e1" st2 = Some 2%nat.
Proof. vm_compute. split; reflexivity. Qed.

(** C1 (amended). After snapshot N+1 a ref resolves only if snapshot N+1
    itself handed it out: the resolvable refs are [e1 .. e<k>] for the [k]
    refs of snapshot N+1, whose numbering restarted at 1, and each of these
    is bound; every other ref of snapshot N fails to resolve.  When the
    page is the same for both snapshots (same root, depth and viewport
    options, all its elements live), snapshot N+1 rebuilds the very table
    of snapshot N, so every ref resolves exactly as it did before. *)
Theorem C1_refs_after_next_snapshot
    (heap1 heap2 : Heap) (options1 options2 : SnapshotOptions)
    (page1 page2 : Page) (st : RefState) :
  let st1 := (takeSnapshot heap1 options1 page1 st).2 in
  let st2 := (takeSnapshot heap2 options2 page2 st1).2 in
  (forall heap r el, resolveRef heap r st2 = Some el ->
     exists k, (1 <= k <= refCounter st2)%nat /\ r = ref_of k) /\
  (forall k, (1 <= k <= refCounter st2)%nat ->
     is_Some (elementsByRef st2 !! ref_of k)) /\
  (page_root page2 = page_root page1 ->
   opt_maxDepth options2 = opt_maxDepth options1 ->
   opt_viewportOnly options2 = opt_viewportOnly options1 ->
   (forall id, id ∈ dom_ids (page_root page1) ->
               heap1 id = true /\ heap2 id = true) ->
   forall heap r, resolveRef heap r st2 = resolveRef heap r st1).
Proof.
  cbv zeta. rewrite !takeSnapshot_state.
  set (st1 := (buildNode heap1 (page_root page1) _ _ _ (reset_refs st)).2).
  split; [|split].
  - intros heap r el Hres.
    destruct (buildNode_numbering heap2 (page_root page2) 0
                (default 12 (opt_maxDepth options2))
                (default true (opt_viewportOnly options2)) (reset_refs st1)
                (numbered_reset st1)) as [Hn _].
    { intros k Hk. simpl in Hk. lia. }
    unfold resolveRef in Hres.
    destruct (elementsByRef _ !! r) as [target|] eqn:E; [|discriminate].
    exact (Hn _ _ E).
  - apply buildNode_numbering; [apply numbered_reset|].
    intros k Hk. simpl in Hk. lia.
  - intros Hroot Hdepth Hview Hlive heap r.
    rewrite Hroot, Hdepth, Hview.
    destruct (buildNode_rebuilt heap2 heap1 (page_root page1) 0
                (default 12 (opt_maxDepth options1))
                (default true (opt_viewportOnly options1))
                (reset_refs st1) (reset_refs st))
      as [_ (_ & _ & _ & _ & _ & Ht)].
    + intros id Hid. destruct (Hlive id Hid). auto.
    + apply same_table_reset.
    + unfold resolveRef. fold st1. now rewrite Ht.
Qed.

(** The theorem on the example page, snapshotted twice with every element
    live. *)
Lemma C1_witness :
  (forall id, id ∈ dom_ids (page_root example_page) ->
              all_live id = true /\ all_live id = true) /\
  let st1 := (takeSnapshot all_live no_options example_page fresh_refs).2 in
  let st2 := (takeSnapshot all_live no_options example_page st1).2 in
  forall heap r, resolveRef heap r st2 = resolveRef heap r st1.
Proof.
  split; [intros id _; split; reflexivity|].
  exact (proj2 (proj2 (C1_refs_after_next_snapshot all_live all_live
                         no_options no_options example_page example_page
                         fresh_refs))
           eq_refl eq_refl eq_refl (fun id _ => conj eq_refl eq_refl)).
Defined.

(** *** Serialization and the character budget *)

Lemma chars_app (a b : list string) : chars (a ++ b) = chars a + chars b.
Proof. induction a as [|x a IH]; simpl; [reflexivity | rewrite IH; lia]. Qed.

Lemma chars_nonneg (ls : list string) : 0 <= chars ls.
Proof.
  induction ls as [|x ls IH]; simpl; [lia|].
  pose proof (JsFacts.len_nonneg x). lia.
Qed.

(** The length of the joined text: the count, less the newline that the
    last line does not get. *)
Lemma len_join (ls : list string) :
  Js.len (Js.join Js.nl ls) = match ls with [] => 0 | _ => chars ls - 1 end.
Proof.
  induction ls as [|x ls IH]; [reflexivity|].
  destruct ls as [|y ls].
  - simpl. lia.
  - change (Js.join Js.nl (x :: y :: ls))
      with (x +:+ Js.nl +:+ Js.join Js.nl (y :: ls)).
    rewrite !JsFacts.len_app, IH.
    change (Js.len Js.nl) with 1.
    change (chars (x :: y :: ls)) with (Js.len x + 1 + chars (y :: ls)).
    lia.
Qed.

Lemma len_join_le (ls : list string) : Js.len (Js.join Js.nl ls) <= chars ls.
Proof.
  rewrite len_join. destruct ls; [reflexivity|].
  lia.
Qed.

Section Serializers.
Variable maxChars : Z.
Variable I : Output -> Prop.
Hypothesis push_ok : forall line out,
  count out < maxChars -> I out -> I (push_line line out).

Lemma fold_left_preserves (f : Output -> PageNode -> Output)
    (cs : list PageNode) :
  Forall (fun c => forall o, I o -> I (f o c)) cs ->
  forall o, I o -> I (fold_left f cs o).
Proof. induction 1 as [|c cs Hc _ IH]; simpl; auto. Qed.

Lemma serializeNode_preserves (node : PageNode) :
  forall indent out, I out -> I (serializeNode node indent maxChars out).
Proof.
  induction node as [node IH] using node_ind. intros indent out Hout.
  destruct node as [rf rl nm tg prps inter dpth cs].
  cbn [serializeNode]. cbn [children] in *.
  destruct (maxChars <=? count out) eqn:E; [assumption|].
  apply Z.leb_gt in E.
  apply fold_left_preserves; [|now apply push_ok].
  eapply Forall_impl; [exact IH|]. simpl. auto.
Qed.

Lemma serializeInteractive_preserves (node : PageNode) :
  forall indent out,
    I out -> I (serializeInteractive node indent maxChars out).
Proof.
  induction node as [node IH] using node_ind. intros indent out Hout.
  destruct node as [rf rl nm tg prps inter dpth cs].
  cbn [serializeInteractive]. cbn [children] in *.
  destruct (maxChars <=? count out) eqn:E; [assumption|].
  apply Z.leb_gt in E.
  destruct (negb _); [assumption|].
  apply fold_left_preserves; [|now apply push_ok].
  eapply Forall_impl; [exact IH|]. simpl. auto.
Qed.
End Serializers.

(** What the guard at the head of both serializers keeps true: the count is
    the count of the lines, and every line but the last was within the
    budget. *)
Lemma push_line_budget (maxChars : Z) (line : string) (out : Output) :
  count out < maxChars ->
  count out = chars (lines out) /\
    (lines out = [] \/
     exists init last, lines out = init ++ [last] /\ chars init < maxChars) ->
  count (push_line line out) = chars (lines (push_line line out)) /\
    (lines (push_line line out) = [] \/
     exists init last, lines (push_line line out) = init ++ [last]
                       /\ chars init < maxChars).
Proof.
  intros Hlt [Hc _]. simpl. split.
  - rewrite chars_app. simpl. lia.
  - right. exists (lines out), line. split; [reflexivity | lia].
Qed.

Lemma serializers_stop (maxChars : Z) (node : PageNode) (indent : nat)
    (out : Output) :
  maxChars <= count out ->
  serializeNode node indent maxChars out = out /\
  serializeInteractive node indent maxChars out = out.
Proof.
  intros H. apply Z.leb_le in H.
  destruct node; cbn [serializeNode serializeInteractive].
  now rewrite H.
Qed.

(** C2 (as stated, refuted). With a budget of 10 characters the example
    page serializes to 27: the first line leaves the count at 5, below the
    budget, so the second line is appended whole. *)
Lemma C2_counterexample :
  let options := {| opt_filter := None; opt_maxDepth := None;
                    opt_maxChars := Some 10; opt_viewportOnly := None |} in
  let snap := (takeSnapshot all_live options example_page fresh_refs).1 in
  Js.len (tree snap) = 27 /\ ~ Js.len (tree snap) <= 10.
Proof.
  cbv zeta. split; [vm_compute; reflexivity|].
  intros H. vm_compute in H. apply H. reflexivity.
Qed.

(** C2 (amended). A line is appended only while the accumulated count is
    below [maxChars]: either nothing was serialized and the text is empty,
    or the lines before the last one stay below [maxChars] and the whole
    text is shorter than [maxChars] plus the length of its last line.  Once
    the count has reached [maxChars], neither serializer appends anything
    more. *)
Theorem C2_serialized_length (filter : Filter) (tree : PageNode)
    (maxChars : Z) :
  let out := serialize filter tree maxChars in
  let text := Js.join Js.nl (lines out) in
  ((lines out = [] /\ text = "") \/
   (exists init last,
      lines out = init ++ [last] /\
      Js.len (Js.join Js.nl init) < maxChars /\
      Js.len text < maxChars + Js.len last)) /\
  (forall node indent o,
     maxChars <= count o ->
     serializeNode node indent maxChars o = o /\
     serializeInteractive node indent maxChars o = o).
Proof.
  cbv zeta. split; [|intros; now apply serializers_stop].
  assert (H : count (serialize filter tree maxChars)
              = chars (lines (serialize filter tree maxChars)) /\
              (lines (serialize filter tree maxChars) = [] \/
               exists init last,
                 lines (serialize filter tree maxChars) = init ++ [last]
                 /\ chars init < maxChars)).
  { unfold serialize. destruct filter.
    - apply serializeNode_preserves.
      + intros line out. apply push_line_budget.
      + simpl. auto.
    - apply serializeInteractive_preserves.
      + intros line out. apply push_line_budget.
      + simpl. auto. }
  destruct H as [_ [Hnil | (init & last & Hl & Hlt)]].
  - left. rewrite Hnil. split; reflexivity.
  - right. exists init, last. split; [exact Hl|].
    pose proof (len_join_le init) as Hle. split; [lia|].
    rewrite Hl, len_join.
    destruct (init ++ [last]) as [|x l] eqn:E.
    + destruct init; discriminate.
    + rewrite <- E, chars_app. simpl. lia.
Qed.

(** The second half of the theorem on an output that has reached a budget
    of 10. *)
Lemma C2_witness :
  let node := {| ref := "e1"; role := "button"; name := "Submit";
                 tag := "button"; props := []; interactive := true;
                 depth := 0; children := [] |} in
  let out := {| lines := ["body"; "  link [e2]"]; count := 17 |} in
  10 <= count out /\
  serializeNode node 1 10 out = out /\
  serializeInteractive node 1 10 out = out.
Proof.
  intros node out. split; [vm_compute; discriminate|].
  apply (proj2 (C2_serialized_length FilterAll node 10) node 1%nat out).
  vm_compute. discriminate.
Defined.

End SnapshotFacts.

(** ** Back-off *)

Module BackoffFacts.
Import Planner.

Lemma scaled_power_mono (base x : Q) (a b : nat) :
  (0 <= base)%Q -> (1 <= x)%Q -> (a <= b)%nat ->
  (base * x ^ Z.of_nat a <= base * x ^ Z.of_nat b)%Q.
Proof.
  intros Hbase Hx Hab.
  rewrite (Qmult_comm base), (Qmult_comm base).
  apply Qmult_le_compat_r; [|exact Hbase].
  apply Qpower_le_compat_l; [lia | exact Hx].
Qed.

Example backoff_tpm_values :
  map (fun attempt => Qred (backoffMs tpm attempt)) (seq 0 6)
  = [15000; 22500; 33750; 50625; 65000; 65000]%Q.
Proof. vm_compute. reflexivity. Qed.

Example backoff_rpm_values :
  map (fun attempt => Qred (backoffMs rpm attempt)) (seq 0 6)
  = [5000; 10000; 20000; 40000; 60000; 60000]%Q.
Proof. vm_compute. reflexivity. Qed.

Example backoff_server_values :
  map (fun attempt => Qred (backoffMs server attempt)) (seq 0 6)
  = [2000; 4000; 8000; 16000; 16000; 16000]%Q.
Proof. vm_compute. reflexivity. Qed.

(** C8. For each kind of retryable error the wait grows (weakly) with the
    attempt number and never exceeds the cap of the kind: 65 s for
    token-rate limits, 60 s for request-rate limits, 16 s for server
    errors. *)
Theorem C8_backoff_monotone_capped (kind : RetryKind) (a b : nat) :
  (a <= b)%nat ->
  (backoffMs kind a <= backoffMs kind b)%Q /\
  (backoffMs kind b <= backoff_cap kind)%Q.
Proof.
  intros Hab. split.
  - destruct kind; unfold backoffMs; apply Q.min_le_compat_r;
      apply scaled_power_mono; try exact Hab; discriminate.
  - destruct kind; unfold backoffMs, backoff_cap; apply Q.le_min_r.
Qed.

(** The theorem between the second and the fifth token-rate-limit retry. *)
Lemma C8_witness :
  (1 <= 4)%nat /\
  (backoffMs tpm 1 <= backoffMs tpm 4)%Q /\
  (backoffMs tpm 4 <= backoff_cap tpm)%Q.
Proof.
  split; [lia|]. apply (C8_backoff_monotone_capped tpm 1 4). lia.
Defined.

End BackoffFacts.

(** ** Context trimming *)

Module TrimFacts.
Import Planner.

(** [trimConversation] in closed form: the first two messages, then the
    messages from [recentStart] on (from 2 on when nothing is removed). *)
Lemma trimConversation_eq (h : list LLMMessage) (maxMessages : Z) :
  trimConversation h maxMessages
  = take 2 h
    ++ drop (Z.to_nat (Z.max 2 (Z.of_nat (length h) - (maxMessages - 2)))) h.
Proof.
  unfold trimConversation, splice.
  destruct (Z.of_nat (length h) <=? maxMessages) eqn:E1.
  - apply Z.leb_le in E1.
    rewrite Z.max_l by lia. now rewrite take_drop.
  - apply Z.leb_gt in E1.
    destruct (Z.of_nat (length h) - (maxMessages - 2) <=? 2) eqn:E2.
    + apply Z.leb_le in E2. rewrite Z.max_l by lia. now rewrite take_drop.
    + apply Z.leb_gt in E2. rewrite Z.max_r by lia.
      f_equal. f_equal. lia.
Qed.

Lemma trimConversation_pinned (h : list LLMMessage) (maxMessages : Z)
    (i : nat) :
  (i < 2)%nat -> trimConversation h maxMessages !! i = h !! i.
Proof.
  intros Hi. rewrite trimConversation_eq.
  destruct (decide (i < length h)%nat) as [Hlt|Hge].
  - rewrite lookup_app_l by (rewrite length_take; lia).
    now rewrite lookup_take_lt.
  - rewrite (lookup_ge_None_2 h i) by lia.
    apply lookup_ge_None_2.
    rewrite length_app, length_take, length_drop. lia.
Qed.

Lemma apply_op_pinned (h : list LLMMessage) (op : HistoryOp) (i : nat)
    (m : LLMMessage) :
  (i < 2)%nat -> h !! i = Some m -> apply_op h op !! i = Some m.
Proof.
  intros Hi Hm. destruct op as [m'|maxMessages]; simpl.
  - now apply lookup_app_l_Some.
  - now rewrite trimConversation_pinned.
Qed.

(** The trimming of the earlier planner kept the system prompt only: on a
    thirteen-message history the task at index 1 is dropped. *)
Example trim_earlier_drops_task :
  let h := {| role := system; content := "S" |}
           :: {| role := user; content := "task" |}
           :: replicate 11 {| role := assistant; content := "a" |} in
  trim_earlier h !! 0%nat = h !! 0%nat /\
  trim_earlier h !! 1%nat = Some {| role := assistant; content := "a" |} /\
  trimConversation h default_maxMessages = h.
Proof. vm_compute. repeat split; reflexivity. Qed.

End TrimFacts.

(** ** The recorder *)

Module RecorderFacts.
Import Recorder.

Lemma recordStep_active a u r n (st : Store) (rec : Recording) :
  activeRecording st = Some rec ->
  stored (recordStep a u r n st) = stored st /\
  exists rec',
    activeRecording (recordStep a u r n st) = Some rec' /\
    createdAt rec' = createdAt rec /\
    map success (steps rec') = map success (steps rec) ++ [Planner.success r] /\
    map action (steps rec') = map action (steps rec) ++ [a].
Proof.
  intros Hact. unfold recordStep. rewrite Hact. simpl.
  split; [reflexivity|]. eexists. split; [reflexivity|]. simpl.
  rewrite !map_app. auto.
Qed.

Lemma record_calls_active (calls : list Call) (st : Store) (rec : Recording) :
  activeRecording st = Some rec ->
  stored (record_calls calls st) = stored st /\
  exists rec',
    activeRecording (record_calls calls st) = Some rec' /\
    createdAt rec' = createdAt rec /\
    map success (steps rec')
    = map success (steps rec) ++ map call_succeeded calls /\
    map action (steps rec')
    = map action (steps rec) ++ map call_action calls.
Proof.
  revert st rec. induction calls as [|c calls IH]; intros st rec Hact.
  - simpl. split; [reflexivity|]. exists rec. rewrite !app_nil_r. auto.
  - change (record_calls (c :: calls) st)
      with (record_calls calls
              (recordStep (call_action c) (call_url c) (call_result c)
                 (call_now c) st)).
    destruct (recordStep_active (call_action c) (call_url c) (call_result c)
                (call_now c) st rec Hact)
    as [Hs1 (rec1 & Ha1 & Hc1 & Hsu1 & Hac1)].
    destruct (IH _ rec1 Ha1) as [Hs (rec' & Ha & Hc & Hsucc & Hacts)].
    split; [congruence|]. exists rec'. split; [exact Ha|].
    split; [congruence|].
    rewrite Hsucc, Hacts, Hsu1, Hac1. simpl. rewrite <- !app_assoc. auto.
Qed.

Lemma executed_app (a b : list Event) :
  executed (a ++ b) = executed a ++ executed b.
Proof. unfold executed. apply omap_app. Qed.

Lemma last_app_Some {A} (l1 l2 : list A) (y : A) :
  last l2 = Some y -> last (l1 ++ l2) = Some y.
Proof. intros H. now rewrite last_app, H. Qed.

Lemma last_cons_Some {A} (x : A) (l : list A) (y : A) :
  last l = Some y -> last (x :: l) = Some y.
Proof. intros H. now rewrite last_cons, H. Qed.

(** A replay whose every step succeeds again. *)
Lemma replay_loop_all (exec : nat -> Planner.Action -> Planner.StepResult)
    (recording : Recording) (rest : list RecordedStep) (i : nat) :
  (forall j step, rest !! j = Some step ->
     Planner.success (exec (i + j)%nat (action step)) = true) ->
  executed (replay_loop exec recording i rest) = map action rest /\
  last (replay_loop exec recording i rest) = Some (onComplete recording).
Proof.
  revert i. induction rest as [|step rest IH]; intros i Hok.
  - simpl. auto.
  - cbn [replay_loop].
    pose proof (Hok 0%nat step eq_refl) as H0. rewrite Nat.add_0_r in H0.
    rewrite H0. simpl negb. cbv iota.
    destruct (IH (S i)) as [He Hl].
    { intros j s Hj. replace (S i + j)%nat with (i + S j)%nat by lia.
      now apply Hok. }
    split.
    + rewrite !executed_app. destruct (0 <? i)%nat; simpl; now rewrite He.
    + do 3 apply last_app_Some. now apply last_cons_Some.
Qed.

(** A replay whose step [k] is the first to fail. *)
Lemma replay_loop_fails (exec : nat -> Planner.Action -> Planner.StepResult)
    (recording : Recording) (rest : list RecordedStep) (i k : nat)
    (failing : RecordedStep) :
  rest !! k = Some failing ->
  Planner.success (exec (i + k)%nat (action failing)) = false ->
  (forall j step, (j < k)%nat -> rest !! j = Some step ->
     Planner.success (exec (i + j)%nat (action step)) = true) ->
  executed (replay_loop exec recording i rest)
  = map action (take (S k) rest) /\
  exists message,
    last (replay_loop exec recording i rest)
    = Some (onError message failing (i + k)%nat).
Proof.
  revert i k. induction rest as [|step rest IH]; intros i k Hk Hfail Hok.
  - discriminate.
  - cbn [replay_loop]. destruct k as [|k].
    + injection Hk as ->. rewrite Nat.add_0_r in Hfail |- *.
      rewrite Hfail. simpl negb. cbv iota. split.
      * rewrite !executed_app. destruct (0 <? i)%nat; reflexivity.
      * eexists. do 3 apply last_app_Some. reflexivity.
    + pose proof (Hok 0%nat step ltac:(lia) eq_refl) as H0.
      rewrite Nat.add_0_r in H0. rewrite H0. simpl negb. cbv iota.
      destruct (IH (S i) k Hk) as [He (message & Hl)].
      { now replace (S i + k)%nat with (i + S k)%nat by lia. }
      { intros j s Hj Hs. replace (S i + j)%nat with (i + S j)%nat by lia.
        apply Hok; [lia | exact Hs]. }
      replace (i + S k)%nat with (S i + k)%nat by lia. split.
      * rewrite !executed_app.
        destruct (0 <? i)%nat; simpl; now rewrite He.
      * exists message. do 3 apply last_app_Some. now apply last_cons_Some.
Qed.

Lemma existsb_by_flags {A B} (f : A -> bool) (g : B -> bool)
    (l : list A) (l' : list B) :
  map f l = map g l' -> existsb f l = existsb g l'.
Proof.
  revert l'. induction l as [|x l IH]; intros [|y l'] H; try discriminate.
  - reflexivity.
  - simpl in *. injection H as Hx Hl. now rewrite Hx, (IH l').
Qed.

Lemma record_run_spec (task startUrl : string) (started stopped : Z)
    (suffix : string) (calls : list Call) (st : Store) :
  exists rec,
    (record_run task startUrl started suffix calls stopped st).1 = Some rec /\
    map action (steps rec) = map call_action calls /\
    map success (steps rec) = map call_succeeded calls /\
    duration rec = stopped - started /\
    stored (record_run task startUrl started suffix calls stopped st).2
    = if existsb call_succeeded calls
      then Some (take MAX_RECORDINGS (rec :: getRecordings st))
      else stored st.
Proof.
  unfold record_run.
  edestruct (record_calls_active calls
               (startRecording task startUrl started suffix st))
    as [Hs (rec' & Ha & Hc & Hsucc & Hacts)]; [reflexivity|].
  simpl in Hs, Hc, Hsucc, Hacts.
  unfold stopRecording. rewrite Ha. cbn [steps].
  rewrite (existsb_by_flags success call_succeeded _ calls Hsucc).
  eexists. destruct (existsb call_succeeded calls); cbn [fst snd].
  - split; [reflexivity|]. cbn [steps duration]. repeat split; auto; [lia|].
    unfold saveRecording, getRecordings. cbn [stored]. rewrite Hs.
    f_equal. case_match eqn:E; [reflexivity|].
    apply Nat.ltb_ge in E. symmetry. now apply take_ge.
  - split; [reflexivity|]. cbn [steps duration stored]. repeat split; auto. lia.
Qed.

(** C7. A recorded run none of whose steps succeeded leaves the store as it
    was; a run with a successful step puts its recording, with all its
    steps, at the head of the store.  A replay executes the recording's
    successful steps in their order: all of them when each succeeds again,
    and otherwise up to and including the first one that fails, where it
    reports the error and stops. *)
Theorem C7_recording_gate_and_replay
    (task startUrl : string) (started stopped : Z) (suffix : string)
    (calls : list Call) (st : Store)
    (exec : nat -> Planner.Action -> Planner.StepResult)
    (recording : Recording) :
  let run := record_run task startUrl started suffix calls stopped st in
  let successful := List.filter success (steps recording) in
  let replay := replayRecording exec recording in
  ((forall c, c ∈ calls -> call_succeeded c = false) ->
   stored run.2 = stored st) /\
  ((exists c, c ∈ calls /\ call_succeeded c = true) ->
   exists rec,
     run.1 = Some rec /\
     stored run.2 = Some (take MAX_RECORDINGS (rec :: getRecordings st)) /\
     head (getRecordings run.2) = Some rec /\
     map action (steps rec) = map call_action calls /\
     map success (steps rec) = map call_succeeded calls) /\
  ((forall j step, successful !! j = Some step ->
      Planner.success (exec j (action step)) = true) ->
   executed replay = map action successful /\
   last replay = Some (onComplete recording)) /\
  (forall k failing,
     successful !! k = Some failing ->
     Planner.success (exec k (action failing)) = false ->
     (forall j step, (j < k)%nat -> successful !! j = Some step ->
        Planner.success (exec j (action step)) = true) ->
     executed replay = map action (take (S k) successful) /\
     exists message, last replay = Some (onError message failing k)).
Proof.
  cbv zeta.
  destruct (record_run_spec task startUrl started stopped suffix calls st)
    as (rec & Hrun & Hacts & Hsucc & _ & Hstored).
  split; [|split; [|split]].
  - intros Hnone. rewrite Hstored.
    destruct (existsb call_succeeded calls) eqn:E; [|reflexivity].
    apply existsb_exists in E as (c & Hin & Hc).
    apply list_elem_of_In in Hin. rewrite (Hnone c Hin) in Hc. discriminate.
  - intros (c & Hin & Hc). exists rec. split; [exact Hrun|].
    assert (Hsaved : stored
              (record_run task startUrl started suffix calls stopped st).2
              = Some (take MAX_RECORDINGS (rec :: getRecordings st))).
    { rewrite Hstored.
      replace (existsb call_succeeded calls) with true; [reflexivity|].
      symmetry. apply existsb_exists. exists c. split; [|exact Hc].
      now apply list_elem_of_In. }
    split; [exact Hsaved|]. split; [|auto].
    unfold getRecordings at 1. rewrite Hsaved. reflexivity.
  - intros Hok. apply replay_loop_all. exact Hok.
  - intros k failing Hk Hfail Hok.
    apply (replay_loop_fails exec recording _ 0 k failing); assumption.
Qed.

(** The theorem on a run with a failed click and a successful one. *)
Lemma C7_witness :
  let failed := {| call_action := Planner.click "e9"; call_url := "u";
                   call_result := Planner.mkResult false None (Some "gone");
                   call_now := 1 |} in
  let worked := {| call_action := Planner.click "e1"; call_url := "u";
                   call_result := Planner.mkResult true None None;
                   call_now := 2 |} in
  let st := {| activeRecording := None; stored := None |} in
  (exists c, c ∈ [failed; worked] /\ call_succeeded c = true) /\
  exists rec,
    (record_run "t" "u" 0 "abc" [failed; worked] 3 st).1 = Some rec /\
    stored (record_run "t" "u" 0 "abc" [failed; worked] 3 st).2
    = Some (take MAX_RECORDINGS (rec :: getRecordings st)) /\
    head (getRecordings (record_run "t" "u" 0 "abc" [failed; worked] 3 st).2)
    = Some rec /\
    map action (steps rec) = map call_action [failed; worked] /\
    map success (steps rec) = map call_succeeded [failed; worked].
Proof.
  intros failed worked st.
  assert (H : exists c, c ∈ [failed; worked] /\ call_succeeded c = true).
  { exists worked. split; [|reflexivity].
    apply list_elem_of_further, list_elem_of_here. }
  split; [exact H|].
  exact (proj1 (proj2 (C7_recording_gate_and_replay "t" "u" 0 3 "abc"
                         [failed; worked] st
                         (fun _ _ => Planner.mkResult true None None)
                         {| id := ""; task := ""; startUrl := "";
                            steps := []; createdAt := 0; duration := 0 |}))
           H).
Defined.

End RecorderFacts.

(** ** The planner loop *)

Module PlannerFacts.
Import Planner TrimFacts.
Open Scope planner_scope.

(** *** What the parts of the loop emit *)

Lemma bind_run {A B} (c : M A) (k : A -> M B) (st : State) :
  bind c k st = k (c st).1 (c st).2.
Proof. unfold bind. now destruct (c st). Qed.

Lemma emits_ret {A} (q : Event -> bool) (a : A) : emits_only q (ret a).
Proof. intros st. exists []. simpl. now rewrite app_nil_r. Qed.

Lemma emits_bind {A B} (q : Event -> bool) (c : M A) (k : A -> M B) :
  emits_only q c -> (forall a, emits_only q (k a)) -> emits_only q (bind c k).
Proof.
  intros Hc Hk st. unfold bind.
  destruct (Hc st) as (t1 & E1 & Q1). destruct (c st) as [a st1].
  destruct (Hk a st1) as (t2 & E2 & Q2). simpl in E1.
  exists (t1 ++ t2). split.
  - rewrite E2, E1. now rewrite app_assoc.
  - rewrite forallb_app, Q1, Q2. reflexivity.
Qed.

Lemma emits_emit (q : Event -> bool) (e : Event) :
  q e = true -> emits_only q (emit e).
Proof. intros He st. exists [e]. simpl. now rewrite He. Qed.

Lemma emits_silent {A} (q : Event -> bool) (c : M A) :
  (forall st, trace (c st).2 = trace st) -> emits_only q c.
Proof. intros H st. exists []. rewrite H. now rewrite app_nil_r. Qed.

(** Every part of the loop below the terminal callbacks emits quiet events
    only; [q] is any set of events that holds the quiet ones. *)
Section Alphabet.
Variable env : Env.
Variable q : Event -> bool.

Lemma emits_push m : emits_only q (push m).
Proof. now apply emits_silent. Qed.

Lemma emits_get_history : emits_only q get_history.
Proof. now apply emits_silent. Qed.

Lemma emits_set_history h : emits_only q (set_history h).
Proof. now apply emits_silent. Qed.

Lemma emits_date_now : emits_only q (date_now env).
Proof. now apply emits_silent. Qed.

Lemma emits_getSnapshot :
  q GetSnapshot = true -> emits_only q (call_getSnapshot env).
Proof. intros H st. exists [GetSnapshot]. simpl. now rewrite H. Qed.

Lemma emits_executeAction a :
  q (ExecuteAction a) = true -> emits_only q (call_executeAction env a).
Proof. intros H st. exists [ExecuteAction a]. simpl. now rewrite H. Qed.

Lemma emits_chat ms :
  q (Chat ms) = true -> emits_only q (call_chat env ms).
Proof. intros H st. exists [Chat ms]. simpl. now rewrite H. Qed.

Hypothesis q_quiet : forall e, quiet e = true -> q e = true.

Ltac emits :=
  repeat first
    [ apply emits_ret
    | apply emits_push | apply emits_get_history | apply emits_set_history
    | apply emits_date_now
    | apply emits_getSnapshot; apply q_quiet; reflexivity
    | apply emits_executeAction; apply q_quiet; reflexivity
    | apply emits_chat; apply q_quiet; reflexivity
    | apply emits_emit; apply q_quiet; reflexivity
    | apply emits_bind; [|intros ?]
    | match goal with
      | |- emits_only _ (match ?x with _ => _ end) => destruct x
      | |- emits_only _ (if ?x then _ else _) => destruct x
      end ].

Lemma emits_callLLMWithRetry_loop n attempt lastError messages :
  emits_only q (callLLMWithRetry_loop env n attempt lastError messages).
Proof.
  revert attempt lastError.
  induction n as [|n IH]; intros attempt lastError; simpl.
  - emits.
  - emits. unfold sleep. emits. apply IH.
Qed.

Lemma emits_add_usage response : emits_only q (add_usage response).
Proof.
  unfold add_usage. destruct (usage response) as [[i o]|]; [|emits].
  intros st. eexists [_]. split; [reflexivity|]. simpl.
  rewrite q_quiet; reflexivity.
Qed.

Lemma emits_getPlanFromLLM_loop n jsonAttempt lastParseError :
  emits_only q (getPlanFromLLM_loop env n jsonAttempt lastParseError).
Proof.
  revert jsonAttempt lastParseError.
  induction n as [|n IH]; intros jsonAttempt lastParseError; simpl.
  - emits.
  - emits; try apply emits_callLLMWithRetry_loop;
      try apply emits_add_usage; try apply IH.
Qed.

Lemma emits_placeholder text : emits_only q (placeholder env text).
Proof. unfold placeholder. emits. Qed.

Lemma emits_errorSnapshot : emits_only q (errorSnapshot env).
Proof. unfold errorSnapshot, sleep. emits. Qed.

Lemma emits_verifySnapshot : emits_only q (verifySnapshot env).
Proof. unfold verifySnapshot, sleep. emits. Qed.

Lemma emits_execute_steps plan i rest :
  emits_only q (execute_steps env plan i rest).
Proof.
  revert i. induction rest as [|step rest IH]; intros i; simpl.
  - emits.
  - emits; try apply emits_errorSnapshot; try apply emits_verifySnapshot;
      try apply IH.
Qed.

Lemma emits_acquire_state : emits_only q (acquire_state env).
Proof. unfold acquire_state, sleep. emits. Qed.

Lemma emits_compose_message task iteration snapshot :
  emits_only q (compose_message task iteration snapshot).
Proof. unfold compose_message. emits. Qed.

Lemma emits_run_batch plan : emits_only q (run_batch env plan).
Proof.
  unfold run_batch, finalSnapshot. emits;
    try apply emits_execute_steps; try apply emits_verifySnapshot.
Qed.

Lemma emits_getPlanFromLLM : emits_only q (getPlanFromLLM env).
Proof. apply emits_getPlanFromLLM_loop. Qed.

End Alphabet.

Lemma quiet_not_complete (t : list Event) :
  forallb quiet t = true -> count_events is_onComplete t = 0%nat.
Proof.
  unfold count_events. induction t as [|e t IH]; simpl; [reflexivity|].
  intros H. apply andb_prop in H as [He Ht].
  destruct e; simpl in *; auto; discriminate.
Qed.

Lemma count_events_app (p : Event -> bool) (a b : list Event) :
  count_events p (a ++ b) = (count_events p a + count_events p b)%nat.
Proof. unfold count_events. now rewrite List.filter_app, length_app. Qed.

(** *** The shape of a run *)

Section LoopShape.
Variable env : Env.
Variable task : string.

(** One pass of the loop body: it ends with [Continue] or [Throw] after
    quiet events only, or with [Return] after quiet events and one terminal
    callback. *)
Lemma iteration_body_shape (iteration : nat) (st : State) :
  exists t,
    trace (iteration_body env task iteration st).2 = trace st ++ t /\
    match (iteration_body env task iteration st).1 with
    | Continue | Throw _ => forallb quiet t = true
    | Return => exists t0 e, t = t0 ++ [e] /\ forallb quiet t0 = true
                             /\ terminal e = true
    end.
Proof.
  unfold iteration_body. rewrite bind_run.
  destruct (emits_acquire_state env quiet (fun _ H => H) st)
    as (t1 & E1 & Q1).
  destruct (acquire_state env st) as [[retryError|snapshot] st1];
    cbn [fst snd] in *.
  - eexists. split; [simpl; rewrite E1, <- app_assoc; reflexivity|].
    simpl. eauto.
  - rewrite bind_run.
    destruct (emits_compose_message quiet task iteration snapshot st1)
      as (t2 & E2 & Q2).
    destruct (compose_message task iteration snapshot st1) as [[] st2];
      cbn [fst snd] in *.
    rewrite bind_run.
    destruct (emits_getPlanFromLLM env quiet (fun _ H => H) st2)
      as (t3 & E3 & Q3).
    destruct (getPlanFromLLM env st2) as [[message|[plan raw]] st3];
      cbn [fst snd] in *.
    + eexists. split;
        [simpl; rewrite E3, E2, E1, <- !app_assoc; reflexivity|].
      simpl. exists (t1 ++ t2 ++ t3).
      exists (onError ("Failed to get plan: " +:+ message)).
      rewrite <- !app_assoc, !forallb_app, Q1, Q2, Q3. auto.
    + rewrite bind_run. cbn [emit fst snd].
      destruct (length (steps plan) =? 0)%nat.
      * eexists. split;
          [simpl; rewrite E3, E2, E1, <- !app_assoc; reflexivity|].
        simpl. exists (t1 ++ t2 ++ t3 ++ [onPlan plan]).
        exists (onComplete (reasoning plan)).
        rewrite <- !app_assoc, !forallb_app, Q1, Q2, Q3. auto.
      * rewrite bind_run.
        match goal with |- context [run_batch env plan ?s] =>
          destruct (emits_run_batch env quiet (fun _ H => H) plan s)
            as (t4 & E4 & Q4);
          destruct (run_batch env plan s) as [[thrown|[]] st4]
        end.
        -- cbn [fst snd ret trace] in *.
           eexists. split;
             [rewrite E4, E3, E2, E1, <- !app_assoc; reflexivity|].
           rewrite !forallb_app, Q1, Q2, Q3, Q4. reflexivity.
        -- cbn [fst snd ret trace] in *.
           eexists. split;
             [rewrite E4, E3, E2, E1, <- !app_assoc; reflexivity|].
           rewrite !forallb_app, Q1, Q2, Q3, Q4. reflexivity.
Qed.

Lemma reaches_quiet (iteration : nat) (st : State) :
  reaches env task iteration st -> forallb quiet (trace st) = true.
Proof.
  induction 1 as [|iteration st st' _ IH Hbody]; [reflexivity|].
  destruct (iteration_body_shape iteration st) as (t & E & Hshape).
  rewrite Hbody in E, Hshape. simpl in E, Hshape.
  now rewrite E, forallb_app, IH, Hshape.
Qed.

Lemma reaches_run (iteration : nat) (st : State) :
  reaches env task iteration st ->
  (iteration <= MAX_ITERATIONS)%nat ->
  runPlanner env task
  = (planner_loop env (MAX_ITERATIONS - iteration) iteration task st).2.
Proof.
  induction 1 as [|iteration st st' _ IH Hbody]; intros Hle.
  - reflexivity.
  - rewrite IH by lia.
    replace (MAX_ITERATIONS - iteration)%nat
      with (S (MAX_ITERATIONS - S iteration)) by lia.
    cbn [planner_loop]. rewrite bind_run, Hbody. reflexivity.
Qed.

(** A run that resolves ends with one terminal callback, [onComplete] or
    [onError], and calls none before it; a run that is rejected calls
    none. *)
Lemma planner_loop_shape (n iteration : nat) (st : State) :
  exists t,
    trace (planner_loop env n iteration task st).2 = trace st ++ t /\
    match (planner_loop env n iteration task st).1 with
    | inr _ => exists t0 e, t = t0 ++ [e] /\ forallb quiet t0 = true
                            /\ terminal e = true
    | inl _ => forallb quiet t = true
    end.
Proof.
  revert iteration st. induction n as [|n IH]; intros iteration st.
  - eexists [_]. cbn. split; [reflexivity|].
    exists []. eexists. split; [reflexivity|]. split; reflexivity.
  - cbn [planner_loop]. rewrite bind_run.
    destruct (iteration_body_shape iteration st) as (t & E & Hshape).
    destruct (iteration_body env task iteration st) as [[| |thrown] st1];
      cbn [fst snd] in *.
    + exists t. cbn [ret fst snd]. auto.
    + destruct (IH (S iteration) st1) as (t' & E1 & Hrest).
      exists (t ++ t'). rewrite E1, E, <- !app_assoc.
      split; [reflexivity|].
      destruct (planner_loop env n (S iteration) task st1).1.
      * now rewrite forallb_app, Hshape, Hrest.
      * destruct Hrest as (t0 & e & -> & Q0 & He).
        exists (t ++ t0), e. rewrite <- !app_assoc.
        split; [reflexivity|]. now rewrite forallb_app, Hshape, Q0.
    + exists t. cbn [ret fst snd]. auto.
Qed.

Theorem run_ends_once :
  match settled env task with
  | inr _ =>
      exists t0 e,
        trace (runPlanner env task) = t0 ++ [e] /\
        forallb quiet t0 = true /\ terminal e = true
  | inl _ => forallb quiet (trace (runPlanner env task)) = true
  end.
Proof.
  unfold runPlanner, settled.
  destruct (planner_loop_shape MAX_ITERATIONS 0 (initial_state env))
    as (t & E & Hshape).
  rewrite E. exact Hshape.
Qed.

End LoopShape.

(** *** A step of a batch *)

Lemma count_events_snoc_other (p : Event -> bool) (t : list Event)
    (e : Event) :
  p e = false -> count_events p (t ++ [e]) = count_events p t.
Proof.
  intros H. rewrite count_events_app. unfold count_events at 2. simpl.
  rewrite H. simpl. lia.
Qed.

Lemma count_events_snoc_same (p : Event -> bool) (t : list Event)
    (e : Event) :
  p e = true -> count_events p (t ++ [e]) = S (count_events p t).
Proof.
  intros H. rewrite count_events_app. unfold count_events at 2. simpl.
  rewrite H. simpl. lia.
Qed.

Section Batch.
Variable env : Env.

(** The head of the loop body: the step is announced and executed; when
    the execution is rejected the loop is left, and otherwise the result is
    reported. *)
Lemma execute_steps_head (plan : Plan) (i : nat) (step : PlannedStep)
    (rest : list PlannedStep) (st : State) :
  let extended (events : list Event) :=
    {| conversationHistory := conversationHistory st;
       totalUsage := totalUsage st;
       trace := trace st ++ events |} in
  execute_steps env plan i (step :: rest) st =
  match executeAction env (count_events is_ExecuteAction (trace st))
          (action step) with
  | inl thrown =>
      (inl thrown,
       extended [onStepStart step i; ExecuteAction (action step)])
  | inr result =>
      let st1 := extended [onStepStart step i; ExecuteAction (action step);
                           onStepComplete step result] in
      if negb (success result) then
        (errorSnapshot <- errorSnapshot env ;;
         push (error_turn step result errorSnapshot) ;;
         ret (inr true)) st1
      else if (needsVerification step
               || actionNeedsVerification (action step))
              && (Z.of_nat i <? Z.of_nat (length (steps plan)) - 1) then
        (verifySnapshot <- verifySnapshot env ;;
         push (verification_turn step verifySnapshot) ;;
         ret (inr true)) st1
      else execute_steps env plan (S i) rest st1
  end.
Proof.
  cbv zeta. cbn [execute_steps].
  rewrite bind_run. cbn [emit fst snd].
  rewrite bind_run. unfold call_executeAction.
  cbn [emit fst snd trace conversationHistory totalUsage].
  rewrite count_events_snoc_other by reflexivity.
  destruct (executeAction env _ (action step)) as [thrown|result].
  - cbn [ret]. rewrite <- !app_assoc. reflexivity.
  - rewrite bind_run.
    cbn [emit fst snd trace conversationHistory totalUsage].
    rewrite <- !app_assoc. cbn [app].
    destruct (negb _); [reflexivity|]. destruct (_ && _); reflexivity.
Qed.

(** A step that succeeds and is no verification point: the loop goes on
    with the next index. *)
Lemma execute_steps_continue (plan : Plan) (i : nat) (step : PlannedStep)
    (rest : list PlannedStep) (result : StepResult) (st : State) :
  executeAction env (count_events is_ExecuteAction (trace st)) (action step)
  = inr result ->
  success result = true ->
  (needsVerification step || actionNeedsVerification (action step))
  && (Z.of_nat i <? Z.of_nat (length (steps plan)) - 1) = false ->
  execute_steps env plan i (step :: rest) st
  = execute_steps env plan (S i) rest
      {| conversationHistory := conversationHistory st;
         totalUsage := totalUsage st;
         trace := trace st ++ [onStepStart step i;
                               ExecuteAction (action step);
                               onStepComplete step result] |}.
Proof.
  intros Hres Hok Hno. rewrite execute_steps_head. cbv zeta.
  now rewrite Hres, Hok, Hno.
Qed.

(** The snapshot after a failed action: one attempt, and the placeholder
    when it fails. *)
Lemma errorSnapshot_run (st : State) :
  errorSnapshot env st =
  (match getSnapshot env (count_events is_GetSnapshot (trace st)) with
   | inr snapshot => snapshot
   | inl _ =>
       {| url := "unknown"; title := "unknown";
          tree := "(unable to read page)"; interactiveCount := 0;
          timestamp := now env (length (trace st) + 2) |}
   end,
   {| conversationHistory := conversationHistory st;
      totalUsage := totalUsage st;
      trace := trace st ++ [Sleep 500; GetSnapshot] |}).
Proof.
  unfold errorSnapshot. rewrite !bind_run.
  unfold call_getSnapshot, sleep, emit.
  cbn [fst snd trace conversationHistory totalUsage].
  rewrite count_events_snoc_other by reflexivity.
  rewrite <- app_assoc. cbn [app].
  destruct (getSnapshot env _) as [e|s]; [|reflexivity].
  unfold placeholder, date_now. rewrite bind_run.
  cbn [ret fst snd trace]. rewrite length_app. reflexivity.
Qed.

(** The snapshot at a verification point: a second attempt when the first
    fails, and the placeholder when both fail. *)
Lemma verifySnapshot_run (st : State) :
  let k := count_events is_GetSnapshot (trace st) in
  verifySnapshot env st =
  (match getSnapshot env k with
   | inr snapshot => snapshot
   | inl _ =>
       match getSnapshot env (S k) with
       | inr snapshot => snapshot
       | inl _ =>
           {| url := "unknown"; title := "unknown";
              tree := "(page is loading or unreachable)";
              interactiveCount := 0;
              timestamp := now env (length (trace st) + 4) |}
       end
   end,
   {| conversationHistory := conversationHistory st;
      totalUsage := totalUsage st;
      trace := trace st ++ [Sleep 500; GetSnapshot]
               ++ match getSnapshot env k with
                  | inr _ => []
                  | inl _ => [Sleep 1500; GetSnapshot]
                  end |}).
Proof.
  cbv zeta. unfold verifySnapshot. rewrite !bind_run.
  unfold call_getSnapshot, sleep, emit.
  cbn [fst snd trace conversationHistory totalUsage].
  rewrite count_events_snoc_other by reflexivity.
  destruct (getSnapshot env (count_events is_GetSnapshot (trace st))) as [e|s].
  - rewrite !bind_run.
    cbn [fst snd trace conversationHistory totalUsage].
    rewrite count_events_snoc_other by reflexivity.
    rewrite count_events_snoc_same by reflexivity.
    rewrite count_events_snoc_other by reflexivity.
    rewrite <- !app_assoc. cbn [app].
    destruct (getSnapshot env _) as [e2|s2]; [|reflexivity].
    unfold placeholder, date_now. rewrite bind_run.
    cbn [ret fst snd trace]. rewrite length_app. reflexivity.
  - cbn [ret]. rewrite <- !app_assoc. reflexivity.
Qed.

(** C3. Whenever the batch loop is at a step of kind click whose
    [needsVerification] is [false], the step succeeds and it is not the
    last step of the batch: the planner waits, takes a verification
    snapshot (a second attempt if the first fails, and the placeholder if
    both do), appends the verification turn for that step, which tells the
    click and shows that snapshot, and leaves the loop asking for a replan,
    so no later step of the batch is executed. *)
Theorem C3_forced_verification (plan : Plan) (i : nat) (step : PlannedStep)
    (ref : string) (result : StepResult) (st : State) :
  let k := count_events is_GetSnapshot (trace st) in
  let snapshot :=
    match getSnapshot env k with
    | inr first => first
    | inl _ =>
        match getSnapshot env (S k) with
        | inr second => second
        | inl _ =>
            {| url := "unknown"; title := "unknown";
               tree := "(page is loading or unreachable)";
               interactiveCount := 0;
               timestamp := now env (length (trace st) + 7) |}
        end
    end in
  let retry :=
    match getSnapshot env k with
    | inr _ => []
    | inl _ => [Sleep 1500; GetSnapshot]
    end in
  let turn :=
    {| role := user;
       content :=
         "## Action Taken" +:+ Js.nl +:+
         ("Clicked [" +:+ ref +:+ "]") +:+ Js.nl +:+ Js.nl +:+
         "## Updated Page" +:+ Js.nl +:+
         ("URL: " +:+ url snapshot +:+ Js.nl +:+
          "Title: " +:+ title snapshot +:+ Js.nl +:+
          "Interactive elements: " +:+ pretty (interactiveCount snapshot)
          +:+ Js.nl +:+ Js.nl +:+ tree snapshot) +:+ Js.nl +:+ Js.nl +:+
         "Continue with the original task. If the action succeeded, proceed to the next step. If it failed, try an alternative approach." |} in
  steps plan !! i = Some step ->
  (S i < length (steps plan))%nat ->
  action step = click ref ->
  needsVerification step = false ->
  executeAction env (count_events is_ExecuteAction (trace st)) (action step)
  = inr result ->
  success result = true ->
  execute_steps env plan i (drop i (steps plan)) st =
  (inr true,
   {| conversationHistory := conversationHistory st ++ [turn];
      totalUsage := totalUsage st;
      trace := trace st
               ++ [onStepStart step i; ExecuteAction (click ref);
                   onStepComplete step result; Sleep 500; GetSnapshot]
               ++ retry |}).
Proof.
  intros k snapshot retry turn Hstep Hlast Hclick Hflag Hres Hok.
  rewrite (drop_S _ _ _ Hstep), execute_steps_head. cbv zeta.
  rewrite Hres, Hok, Hflag, Hclick.
  cbn [negb orb actionNeedsVerification andb].
  replace (Z.of_nat i <? Z.of_nat (length (steps plan)) - 1) with true
    by (symmetry; apply Z.ltb_lt; lia).
  rewrite bind_run, verifySnapshot_run. cbv zeta.
  cbn [fst snd trace conversationHistory totalUsage].
  rewrite bind_run.
  cbn [push ret fst snd trace conversationHistory totalUsage].
  rewrite !count_events_app.
  cbn [count_events List.filter is_GetSnapshot length].
  rewrite Nat.add_0_r. fold k.
  rewrite length_app. cbn [length].
  replace (length (trace st) + 3 + 4)%nat with (length (trace st) + 7)%nat
    by lia.
  f_equal. f_equal.
  - f_equal. unfold verification_turn, turn. rewrite Hclick. reflexivity.
  - rewrite <- !app_assoc. reflexivity.
Qed.

End Batch.

(** *** The model call of the next iteration *)

Lemma forallb_any (t : list Event) : forallb any_event t = true.
Proof. induction t as [|e t IH]; [reflexivity | exact IH]. Qed.

Lemma emits_any {A} (q : Event -> bool) (c : M A) :
  emits_only q c -> emits_only any_event c.
Proof.
  intros H st. destruct (H st) as (t & E & _). exists t. split; [exact E|].
  apply forallb_any.
Qed.

(** An event emitted first stays first under what follows. *)
Lemma first_event_bind {A B} (c : M A) (k : A -> M B) (st : State)
    (e : Event) (t : list Event) :
  trace (c st).2 = trace st ++ e :: t ->
  (forall a, emits_only any_event (k a)) ->
  exists t', trace (bind c k st).2 = trace st ++ e :: t'.
Proof.
  intros Hc Hk. rewrite bind_run.
  destruct (Hk (c st).1 (c st).2) as (t2 & E2 & _).
  exists (t ++ t2). rewrite E2, Hc, <- app_assoc. reflexivity.
Qed.

Section NextIteration.
Variable env : Env.
Variable task : string.

Lemma appends_iteration_body (iteration : nat) :
  emits_only any_event (iteration_body env task iteration).
Proof.
  intros st.
  destruct (iteration_body_shape env task iteration st) as (t & E & _).
  exists t. split; [exact E|]. apply forallb_any.
Qed.

Lemma appends_planner_loop (n iteration : nat) :
  emits_only any_event (planner_loop env n iteration task).
Proof.
  revert iteration.
  induction n as [|n IH]; intros iteration; cbn [planner_loop].
  - apply emits_bind; [now apply emits_emit | intros; apply emits_ret].
  - apply emits_bind; [apply appends_iteration_body|].
    intros [| |thrown]; [apply emits_ret | apply IH | apply emits_ret].
Qed.

Lemma callLLMWithRetry_first_chat (messages : list LLMMessage) (st : State) :
  exists t, trace (callLLMWithRetry env messages st).2
            = trace st ++ Chat messages :: t.
Proof.
  unfold callLLMWithRetry. cbn [callLLMWithRetry_loop].
  apply first_event_bind with (t := []); [reflexivity|].
  intros [message|response]; [|apply emits_ret].
  destruct (classifyError message); [|apply emits_ret].
  destruct (0 =? MAX_API_RETRIES)%nat; [apply emits_ret|].
  apply emits_bind; [now apply emits_emit|]. intros _.
  apply emits_bind; [now apply emits_emit|]. intros _.
  eapply emits_any, (emits_callLLMWithRetry_loop env quiet). auto.
Qed.

Lemma getPlanFromLLM_first_chat (st : State) :
  exists t, trace (getPlanFromLLM env st).2
            = trace st ++ Chat (conversationHistory st) :: t.
Proof.
  unfold getPlanFromLLM. cbn [getPlanFromLLM_loop].
  rewrite bind_run. cbn [ret fst snd].
  rewrite bind_run. cbn [get_history fst snd].
  destruct (callLLMWithRetry_first_chat (conversationHistory st) st)
    as (t & Ht).
  eapply first_event_bind; [exact Ht|].
  intros [thrown|response]; [apply emits_ret|].
  apply emits_bind; [eapply emits_any, (emits_add_usage quiet); auto|].
  intros _.
  destruct (parsePlan env (response_content response)) as [parseError|plan].
  - apply emits_bind; [now apply emits_silent|]. intros _.
    destruct (0 =? MAX_JSON_RETRIES)%nat; [apply emits_ret|].
    eapply emits_any, (emits_getPlanFromLLM_loop env quiet). auto.
  - apply emits_bind; [apply emits_ret|]. intros _.
    apply emits_bind; [now apply emits_silent|]. intros _. apply emits_ret.
Qed.

Lemma acquire_state_run (st : State) :
  acquire_state env st =
  let k := count_events is_GetSnapshot (trace st) in
  match getSnapshot env k with
  | inr snapshot =>
      (inr snapshot,
       {| conversationHistory := conversationHistory st;
          totalUsage := totalUsage st;
          trace := trace st ++ [GetSnapshot] |})
  | inl _ =>
      (getSnapshot env (S k),
       {| conversationHistory := conversationHistory st;
          totalUsage := totalUsage st;
          trace := trace st ++ [GetSnapshot; Sleep 1000; GetSnapshot] |})
  end.
Proof.
  cbv zeta. unfold acquire_state. rewrite bind_run.
  unfold call_getSnapshot at 1 2. cbn [fst snd emit].
  destruct (getSnapshot env (count_events is_GetSnapshot (trace st))).
  - rewrite bind_run. unfold call_getSnapshot, sleep, emit.
    cbn [fst snd trace conversationHistory totalUsage].
    rewrite count_events_snoc_other by reflexivity.
    rewrite count_events_snoc_same by reflexivity.
    rewrite <- !app_assoc. reflexivity.
  - reflexivity.
Qed.

Lemma acquire_state_history (st : State) :
  conversationHistory (acquire_state env st).2 = conversationHistory st.
Proof.
  rewrite acquire_state_run. cbv zeta.
  destruct (getSnapshot env _); reflexivity.
Qed.

(** The next pass of the loop body, when the page can be read, starts the
    model call on the conversation as the batch left it. *)
Lemma next_iteration_chat (n iteration : nat) (st4 st5 : State)
    (snapshot : PageSnapshot) :
  acquire_state env st4 = (inr snapshot, st5) ->
  exists t,
    trace (planner_loop env (S n) (S iteration) task st4).2
    = trace st5 ++ Chat (conversationHistory st4) :: t.
Proof.
  intros Hacq.
  pose proof (acquire_state_history st4) as Hh. rewrite Hacq in Hh.
  cbn [snd] in Hh. rewrite <- Hh.
  cbn [planner_loop]. rewrite bind_run. unfold iteration_body.
  rewrite bind_run, Hacq. cbn [fst snd compose_message Nat.eqb].
  rewrite bind_run. cbn [ret fst snd].
  destruct (getPlanFromLLM_first_chat st5) as (t & Ht).
  match goal with |- context [bind (getPlanFromLLM env) ?k st5] =>
    destruct (first_event_bind (getPlanFromLLM env) k st5 _ _ Ht)
      as (t' & Ht');
    [|destruct (bind (getPlanFromLLM env) k st5) as [c st6]]
  end.
  { intros [message|[plan raw]].
    - apply emits_bind; [now apply emits_emit | intros; apply emits_ret].
    - apply emits_bind; [now apply emits_emit | intros _].
      destruct (length (steps plan) =? 0)%nat.
      + apply emits_bind; [now apply emits_emit | intros; apply emits_ret].
      + apply emits_bind; [|intros [thrown|[]]; apply emits_ret].
        eapply emits_any, (emits_run_batch env quiet). auto. }
  cbn [fst snd] in *. destruct c.
  - exists t'. exact Ht'.
  - destruct (appends_planner_loop n (S (S iteration)) st6) as (t2 & E2 & _).
    exists (t' ++ t2). rewrite E2, Ht', <- app_assoc. reflexivity.
  - exists t'. exact Ht'.
Qed.

End NextIteration.

(** *** The completion signal *)

Section Completion.
Variable env : Env.
Variable task : string.

(** The loop body on an empty plan. *)
Lemma iteration_body_complete (iteration : nat) (st st1 st2 : State)
    (snapshot : PageSnapshot) (plan : Plan) (raw : string) :
  acquire_state env st = (inr snapshot, st1) ->
  getPlanFromLLM env (compose_message task iteration snapshot st1).2
  = (inr (plan, raw), st2) ->
  steps plan = [] ->
  iteration_body env task iteration st
  = (Return,
     {| conversationHistory := conversationHistory st2;
        totalUsage := totalUsage st2;
        trace := trace st2 ++ [onPlan plan; onComplete (reasoning plan)] |}).
Proof.
  intros Hacq Hplan Hsteps.
  unfold iteration_body. rewrite bind_run, Hacq. cbn [fst snd].
  rewrite bind_run.
  destruct (compose_message task iteration snapshot st1) as [[] st1'].
  cbn [fst snd] in *. rewrite bind_run, Hplan. cbn [fst snd].
  rewrite bind_run, Hsteps. cbn. rewrite <- app_assoc. reflexivity.
Qed.

(** C5. Whenever, at some iteration of a run, the page is read and the
    model call yields a valid plan whose steps list is empty, the run ends
    there: after the model call the trace holds only [onPlan] and one
    [onComplete] with the plan's reasoning, this is the only [onComplete]
    of the whole run, and the run makes no model call and executes no
    action after the one that returned the plan. *)
Theorem C5_completion_signal (iteration : nat) (st st1 st2 : State)
    (snapshot : PageSnapshot) (plan : Plan) (raw : string) :
  reaches env task iteration st ->
  (iteration < MAX_ITERATIONS)%nat ->
  acquire_state env st = (inr snapshot, st1) ->
  getPlanFromLLM env (compose_message task iteration snapshot st1).2
  = (inr (plan, raw), st2) ->
  steps plan = [] ->
  let final := runPlanner env task in
  trace final = trace st2 ++ [onPlan plan; onComplete (reasoning plan)] /\
  conversationHistory final = conversationHistory st2 /\
  count_events is_onComplete (trace final) = 1%nat /\
  count_events is_Chat (trace final) = count_events is_Chat (trace st2) /\
  count_events is_ExecuteAction (trace final)
  = count_events is_ExecuteAction (trace st2).
Proof.
  intros Hreach Hlt Hacq Hplan Hsteps final.
  assert (Hfinal : final =
    {| conversationHistory := conversationHistory st2;
       totalUsage := totalUsage st2;
       trace := trace st2 ++ [onPlan plan; onComplete (reasoning plan)] |}).
  { unfold final. rewrite (reaches_run env task iteration st Hreach) by lia.
    replace (MAX_ITERATIONS - iteration)%nat
      with (S (MAX_ITERATIONS - S iteration)) by lia.
    cbn [planner_loop]. rewrite bind_run.
    rewrite (iteration_body_complete iteration st st1 st2 snapshot plan raw)
      by assumption.
    reflexivity. }
  rewrite Hfinal. cbn [trace conversationHistory].
  assert (Hq : forallb quiet (trace st2) = true).
  { pose proof (reaches_quiet env task iteration st Hreach) as Q0.
    destruct (emits_acquire_state env quiet (fun _ H => H) st)
      as (t1 & E1 & Q1).
    rewrite Hacq in E1. cbn [snd] in E1.
    destruct (emits_compose_message quiet task iteration snapshot st1)
      as (t2 & E2 & Q2).
    destruct (emits_getPlanFromLLM env quiet (fun _ H => H)
                (compose_message task iteration snapshot st1).2)
      as (t3 & E3 & Q3).
    rewrite Hplan in E3. cbn [snd] in E3.
    now rewrite E3, E2, E1, !forallb_app, Q0, Q1, Q2, Q3. }
  repeat split.
  - rewrite count_events_app, (quiet_not_complete _ Hq). reflexivity.
  - rewrite count_events_app. cbn. lia.
  - rewrite count_events_app. cbn. lia.
Qed.

End Completion.

(** *** Failures: of an action, of a snapshot *)

Lemma last_trimConversation (h : list LLMMessage) :
  last (trimConversation h default_maxMessages) = last h.
Proof.
  rewrite trimConversation_eq. unfold default_maxMessages.
  destruct (decide (length h <= 14)%nat) as [Hle|Hgt].
  - rewrite Z.max_l by lia. now rewrite take_drop.
  - rewrite Z.max_r by lia.
    set (k := Z.to_nat (Z.of_nat (length h) - (14 - 2))).
    rewrite <- (take_drop k h) at 3.
    rewrite !last_app.
    destruct (last (drop k h)) eqn:E; [reflexivity|].
    apply last_None in E. apply (f_equal length) in E.
    rewrite length_drop in E. simpl in E. lia.
Qed.

Lemma last_trim_earlier (h : list LLMMessage) :
  last (trim_earlier h) = last h.
Proof.
  unfold trim_earlier, splice.
  destruct (12 <? Z.of_nat (length h)) eqn:E; [|reflexivity].
  apply Z.ltb_lt in E.
  set (k := (Z.to_nat 1 + Z.to_nat (Z.of_nat (length h) - 11))%nat).
  rewrite <- (take_drop k h) at 3.
  rewrite !last_app.
  destruct (last (drop k h)) eqn:E'; [reflexivity|].
  apply last_None in E'. apply (f_equal length) in E'.
  rewrite length_drop in E'. simpl in E'. lia.
Qed.

Section Failures.
Variable env : Env.
Variable task : string.

Lemma run_batch_replan (plan : Plan) (st st3 : State) :
  execute_steps env plan 0 (steps plan) st = (inr true, st3) ->
  run_batch env plan st =
  (inr tt,
   {| conversationHistory :=
        trimConversation (conversationHistory st3) default_maxMessages;
      totalUsage := totalUsage st3;
      trace := trace st3 |}).
Proof.
  intros H. unfold run_batch. rewrite bind_run, H. reflexivity.
Qed.

(** The pass of the loop that comes to a batch: what the batch leaves
    decides how the loop goes on. *)
Lemma planner_loop_batch (n iteration : nat) (st : State) (plan : Plan)
    (st0 : State) :
  enters_batch env task iteration st plan st0 ->
  steps plan <> [] ->
  planner_loop env (S n) iteration task st =
  match run_batch env plan st0 with
  | (inl thrown, st') => (inl thrown, st')
  | (inr _, st') => planner_loop env n (S iteration) task st'
  end.
Proof.
  intros (snapshot & st1 & raw & st2 & Hacq & Hplan & ->) Hne.
  cbn [planner_loop]. rewrite bind_run. unfold iteration_body.
  rewrite bind_run, Hacq. cbn [fst snd]. rewrite bind_run.
  destruct (compose_message task iteration snapshot st1) as [[] st1'].
  cbn [fst snd] in *. rewrite bind_run, Hplan. cbn [fst snd].
  rewrite bind_run.
  destruct (length (steps plan) =? 0)%nat eqn:E.
  { apply Nat.eqb_eq in E. destruct (steps plan); [congruence | discriminate]. }
  rewrite bind_run.
  destruct (run_batch env plan (emit (onPlan plan) st2).2)
    as [[thrown|[]] st']; reflexivity.
Qed.

(** The pass of the loop after a batch, by what the page answers: the
    model is called on the conversation as the batch left it when the page
    can be read, at once or at the second attempt, and the run ends with
    the cannot-read-page error when it cannot. *)
Lemma planner_loop_next (n iteration : nat) (st : State) :
  let k := count_events is_GetSnapshot (trace st) in
  let extended (events : list Event) :=
    {| conversationHistory := conversationHistory st;
       totalUsage := totalUsage st;
       trace := trace st ++ events |} in
  match getSnapshot env k with
  | inr _ =>
      exists t,
        trace (planner_loop env (S n) (S iteration) task st).2
        = trace st ++ [GetSnapshot; Chat (conversationHistory st)] ++ t
  | inl _ =>
      match getSnapshot env (S k) with
      | inr _ =>
          exists t,
            trace (planner_loop env (S n) (S iteration) task st).2
            = trace st ++ [GetSnapshot; Sleep 1000; GetSnapshot;
                           Chat (conversationHistory st)] ++ t
      | inl retryError =>
          planner_loop env (S n) (S iteration) task st
          = (inr tt, extended [GetSnapshot; Sleep 1000; GetSnapshot;
                               onError (cannot_read_page retryError)])
      end
  end.
Proof.
  cbv zeta. pose proof (acquire_state_run env st) as Hacq. cbv zeta in Hacq.
  destruct (getSnapshot env (count_events is_GetSnapshot (trace st)))
    as [e1|s1].
  - destruct (getSnapshot env (S (count_events is_GetSnapshot (trace st))))
      as [e2|s2].
    + cbn [planner_loop]. rewrite bind_run. unfold iteration_body.
      rewrite bind_run, Hacq. cbn. rewrite <- app_assoc. reflexivity.
    + destruct (next_iteration_chat env task n iteration st _ s2 Hacq)
        as (t & Ht).
      exists t. rewrite Ht. cbn [trace]. rewrite <- app_assoc. reflexivity.
  - destruct (next_iteration_chat env task n iteration st _ s1 Hacq)
      as (t & Ht).
    exists t. rewrite Ht. cbn [trace]. rewrite <- app_assoc. reflexivity.
Qed.

End Failures.

(** *** The earlier planner *)

Section EarlierAlphabet.
Variable env : Env.
Variable q : Event -> bool.
Hypothesis q_quiet : forall e, quiet e = true -> q e = true.

Ltac emits :=
  repeat first
    [ apply emits_ret
    | apply emits_push | apply emits_get_history | apply emits_set_history
    | apply emits_getSnapshot; apply q_quiet; reflexivity
    | apply emits_executeAction; apply q_quiet; reflexivity
    | apply emits_chat; apply q_quiet; reflexivity
    | apply emits_emit; apply q_quiet; reflexivity
    | apply emits_add_usage; exact q_quiet
    | apply emits_bind; [|intros ?]
    | match goal with
      | |- emits_only _ (match ?x with _ => _ end) => destruct x
      | |- emits_only _ (if ?x then _ else _) => destruct x
      end ].

Lemma earlier_emits_execute_steps plan i rest :
  emits_only q (Earlier.execute_steps env plan i rest).
Proof.
  revert i. induction rest as [|step rest IH]; intros i; simpl.
  - emits.
  - emits; apply IH.
Qed.

Lemma earlier_emits_run_batch plan :
  emits_only q (Earlier.run_batch env plan).
Proof.
  unfold Earlier.run_batch, Earlier.final_verification.
  emits; apply earlier_emits_execute_steps.
Qed.

Lemma earlier_emits_ask_plan : emits_only q (Earlier.ask_plan env).
Proof. unfold Earlier.ask_plan. emits. Qed.

End EarlierAlphabet.

Section EarlierLoop.
Variable env : Env.
Variable task : string.

Lemma earlier_appends_iteration_body (iteration : nat) :
  emits_only any_event (Earlier.iteration_body env task iteration).
Proof.
  unfold Earlier.iteration_body.
  apply emits_bind; [now apply emits_getSnapshot|].
  intros [thrown|snapshot]; [apply emits_ret|].
  apply emits_bind; [apply emits_compose_message|]. intros _.
  apply emits_bind; [now apply earlier_emits_ask_plan|].
  intros [error|plan].
  - apply emits_bind; [now apply emits_emit | intros; apply emits_ret].
  - apply emits_bind; [now apply emits_emit | intros _].
    destruct (length (steps plan) =? 0)%nat.
    + apply emits_bind; [now apply emits_emit | intros; apply emits_ret].
    + apply emits_bind; [now apply earlier_emits_run_batch|].
      intros [thrown|[]]; apply emits_ret.
Qed.

Lemma earlier_appends_planner_loop (n iteration : nat) :
  emits_only any_event (Earlier.planner_loop env n iteration task).
Proof.
  revert iteration.
  induction n as [|n IH]; intros iteration; cbn [Earlier.planner_loop].
  - apply emits_bind; [now apply emits_emit | intros; apply emits_ret].
  - apply emits_bind; [apply earlier_appends_iteration_body|].
    intros [| |thrown]; [apply emits_ret | apply IH | apply emits_ret].
Qed.

(** The head of the loop body of the earlier planner: when the step is
    executed and reported, a failure or a verification point takes one
    unguarded snapshot. *)
Lemma earlier_execute_steps_head (plan : Plan) (i : nat) (step : PlannedStep)
    (rest : list PlannedStep) (st : State) :
  let extended (h : list LLMMessage) (events : list Event) :=
    {| conversationHistory := h;
       totalUsage := totalUsage st;
       trace := trace st ++ events |} in
  let h := conversationHistory st in
  let started := [onStepStart step i; ExecuteAction (action step)] in
  Earlier.execute_steps env plan i (step :: rest) st =
  match executeAction env (count_events is_ExecuteAction (trace st))
          (action step) with
  | inl thrown => (inl thrown, extended h started)
  | inr result =>
      let reported := started ++ [onStepComplete step result] in
      let page := getSnapshot env (count_events is_GetSnapshot (trace st)) in
      if negb (success result) then
        match page with
        | inl thrown => (inl thrown, extended h (reported ++ [GetSnapshot]))
        | inr errorSnapshot =>
            (inr true,
             extended (h ++ [error_turn step result errorSnapshot])
               (reported ++ [GetSnapshot]))
        end
      else if (needsVerification step
               || actionNeedsVerification (action step))
              && (Z.of_nat i <? Z.of_nat (length (steps plan)) - 1) then
        match page with
        | inl thrown => (inl thrown, extended h (reported ++ [GetSnapshot]))
        | inr verifySnapshot =>
            (inr true,
             extended (h ++ [verification_turn step verifySnapshot])
               (reported ++ [GetSnapshot]))
        end
      else Earlier.execute_steps env plan (S i) rest (extended h reported)
  end.
Proof.
  cbv zeta. cbn [Earlier.execute_steps].
  rewrite bind_run. cbn [emit fst snd].
  rewrite bind_run. unfold call_executeAction.
  cbn [emit fst snd trace conversationHistory totalUsage].
  rewrite count_events_snoc_other by reflexivity.
  destruct (executeAction env _ (action step)) as [thrown|result].
  - cbn [ret]. rewrite <- !app_assoc. reflexivity.
  - rewrite bind_run.
    cbn [emit fst snd trace conversationHistory totalUsage].
    rewrite <- !app_assoc. cbn [app].
    destruct (negb _).
    + rewrite bind_run. unfold call_getSnapshot.
      cbn [emit fst snd trace conversationHistory totalUsage].
      rewrite !count_events_app.
      cbn [count_events List.filter is_GetSnapshot length].
      rewrite Nat.add_0_r.
      destruct (getSnapshot env _) as [thrown|page].
      * cbn [ret]. rewrite <- !app_assoc. reflexivity.
      * rewrite bind_run. cbn. rewrite <- !app_assoc. reflexivity.
    + destruct (_ && _); [|reflexivity].
      rewrite bind_run. unfold call_getSnapshot.
      cbn [emit fst snd trace conversationHistory totalUsage].
      rewrite !count_events_app.
      cbn [count_events List.filter is_GetSnapshot length].
      rewrite Nat.add_0_r.
      destruct (getSnapshot env _) as [thrown|page].
      * cbn [ret]. rewrite <- !app_assoc. reflexivity.
      * rewrite bind_run. cbn. rewrite <- !app_assoc. reflexivity.
Qed.

Lemma earlier_planner_loop_batch (n iteration : nat) (st : State)
    (plan : Plan) (st0 : State) :
  Earlier.enters_batch env task iteration st plan st0 ->
  steps plan <> [] ->
  Earlier.planner_loop env (S n) iteration task st =
  match Earlier.run_batch env plan st0 with
  | (inl thrown, st') => (inl thrown, st')
  | (inr _, st') => Earlier.planner_loop env n (S iteration) task st'
  end.
Proof.
  intros (snapshot & st1 & st2 & Hacq & Hplan & ->) Hne.
  cbn [Earlier.planner_loop]. rewrite bind_run. unfold Earlier.iteration_body.
  rewrite bind_run, Hacq. cbn [fst snd]. rewrite bind_run.
  destruct (compose_message task iteration snapshot st1) as [[] st1'].
  cbn [fst snd] in *. rewrite bind_run, Hplan. cbn [fst snd].
  rewrite bind_run.
  destruct (length (steps plan) =? 0)%nat eqn:E.
  { apply Nat.eqb_eq in E. destruct (steps plan); [congruence | discriminate]. }
  rewrite bind_run.
  destruct (Earlier.run_batch env plan (emit (onPlan plan) st2).2)
    as [[thrown|[]] st']; reflexivity.
Qed.

(** The pass of the loop after a batch: the model is called on the
    conversation as the batch left it when the page can be read, and the
    run is rejected when it cannot. *)
Lemma earlier_planner_loop_next (n iteration : nat) (st : State) :
  match getSnapshot env (count_events is_GetSnapshot (trace st)) with
  | inr _ =>
      exists t,
        trace (Earlier.planner_loop env (S n) (S iteration) task st).2
        = trace st ++ [GetSnapshot; Chat (conversationHistory st)] ++ t
  | inl thrown =>
      Earlier.planner_loop env (S n) (S iteration) task st
      = (inl thrown,
         {| conversationHistory := conversationHistory st;
            totalUsage := totalUsage st;
            trace := trace st ++ [GetSnapshot] |})
  end.
Proof.
  cbn [Earlier.planner_loop]. rewrite bind_run.
  unfold Earlier.iteration_body. rewrite bind_run.
  set (st1 := {| conversationHistory := conversationHistory st;
                 totalUsage := totalUsage st;
                 trace := trace st ++ [GetSnapshot] |}).
  change (call_getSnapshot env st)
    with (getSnapshot env (count_events is_GetSnapshot (trace st)), st1).
  cbn [fst snd].
  destruct (getSnapshot env _) as [thrown|snapshot]; [reflexivity|].
  cbn [compose_message Nat.eqb]. rewrite bind_run. cbn [ret fst snd].
  assert (Hfirst : exists t, trace (Earlier.ask_plan env st1).2
                             = trace st1 ++ Chat (conversationHistory st) :: t).
  { unfold Earlier.ask_plan. rewrite bind_run. cbn [get_history fst snd].
    apply first_event_bind with (t := []); [reflexivity|].
    intros [error|response]; [apply emits_ret|].
    apply emits_bind; [eapply emits_any, (emits_add_usage quiet); auto|].
    intros _. apply emits_bind; [now apply emits_silent|]. intros _.
    apply emits_ret. }
  destruct Hfirst as (t & Ht).
  match goal with |- context [bind (Earlier.ask_plan env) ?k st1] =>
    destruct (first_event_bind (Earlier.ask_plan env) k st1 _ _ Ht)
      as (t' & Ht');
    [|destruct (bind (Earlier.ask_plan env) k st1) as [c st2]]
  end.
  { intros [error|plan].
    - apply emits_bind; [now apply emits_emit | intros; apply emits_ret].
    - apply emits_bind; [now apply emits_emit | intros _].
      destruct (length (steps plan) =? 0)%nat.
      + apply emits_bind; [now apply emits_emit | intros; apply emits_ret].
      + apply emits_bind; [now apply earlier_emits_run_batch|].
        intros [thrown|[]]; apply emits_ret. }
  cbn [fst snd] in *.
  assert (Ht2 : trace st2
                = trace st ++ [GetSnapshot; Chat (conversationHistory st)]
                  ++ t').
  { rewrite Ht'. subst st1. cbn [trace]. now rewrite <- app_assoc. }
  destruct c.
  - exists t'. exact Ht2.
  - destruct (earlier_appends_planner_loop n (S (S iteration)) st2)
      as (t2 & E2 & _).
    exists (t' ++ t2). rewrite E2, Ht2. now rewrite <- !app_assoc.
  - exists t'. exact Ht2.
Qed.

Lemma earlier_run_batch_replan (plan : Plan) (st st3 : State) :
  Earlier.execute_steps env plan 0 (steps plan) st = (inr true, st3) ->
  Earlier.run_batch env plan st =
  (inr tt,
   {| conversationHistory := trim_earlier (conversationHistory st3);
      totalUsage := totalUsage st3;
      trace := trace st3 |}).
Proof.
  intros H. unfold Earlier.run_batch. rewrite bind_run, H. reflexivity.
Qed.

Lemma earlier_run_batch_rejected (plan : Plan) (st st3 : State)
    (thrown : string) :
  Earlier.execute_steps env plan 0 (steps plan) st = (inl thrown, st3) ->
  Earlier.run_batch env plan st = (inl thrown, st3).
Proof.
  intros H. unfold Earlier.run_batch. rewrite bind_run, H. reflexivity.
Qed.

End EarlierLoop.

(** *** A failed action, in both planners *)

Section Replanning.
Variable env : Env.
Variable task : string.

(** C4 (amended). Whenever the batch loop is at a step whose execution
    reports [success = false], no later step of the batch is executed.
    In the planner with retries the page is read once more, the error
    turn of the step is appended to the conversation, showing that page
    or the placeholder, and is still its last message after the trimming;
    the batch ends there, and the next pass of the loop calls the model on
    that conversation when the page can be read at the first attempt or at
    the retry, ends the run with the cannot-read-page error when it
    cannot, and with the max-iterations error when no pass is left.  In
    the earlier planner the same holds as long as the page can be read;
    a snapshot that fails, after the action or at the head of the next
    pass, rejects the run with its error, and after the action nothing is
    appended then. *)
Theorem C4_replan_on_failure (n iteration : nat) (sti : State) (plan : Plan)
    (i : nat) (step : PlannedStep) (result : StepResult) (st : State) :
  let k := count_events is_GetSnapshot (trace st) in
  let after (h : list LLMMessage) (events : list Event) :=
    {| conversationHistory := h;
       totalUsage := totalUsage st;
       trace := trace st ++ [onStepStart step i; ExecuteAction (action step);
                             onStepComplete step result] ++ events |} in
  let turn (page : PageSnapshot) :=
    {| role := user;
       content :=
         "## Error" +:+ Js.nl +:+
         "Action failed: " +:+ default "undefined" (error result)
         +:+ Js.nl +:+ Js.nl +:+
         ("## Action Taken" +:+ Js.nl +:+
          describeAction (action step) +:+ Js.nl +:+ Js.nl +:+
          "## Updated Page" +:+ Js.nl +:+
          formatSnapshot page +:+ Js.nl +:+ Js.nl +:+
          "Continue with the original task. If the action succeeded, proceed to the next step. If it failed, try an alternative approach.") |} in
  let max_iterations :=
    onError "Max iterations (15) reached. Task may be incomplete." in
  steps plan !! i = Some step ->
  executeAction env (count_events is_ExecuteAction (trace st)) (action step)
  = inr result ->
  success result = false ->
  (forall st0,
     enters_batch env task iteration sti plan st0 ->
     execute_steps env plan 0 (steps plan) st0
     = execute_steps env plan i (drop i (steps plan)) st ->
     let page :=
       match getSnapshot env k with
       | inr snapshot => snapshot
       | inl _ =>
           {| url := "unknown"; title := "unknown";
              tree := "(unable to read page)"; interactiveCount := 0;
              timestamp := now env (length (trace st) + 5) |}
       end in
     let h := conversationHistory st ++ [turn page] in
     let st4 :=
       after (trimConversation h default_maxMessages)
         [Sleep 500; GetSnapshot] in
     let next := planner_loop env n (S iteration) task st4 in
     execute_steps env plan i (drop i (steps plan)) st
     = (inr true, after h [Sleep 500; GetSnapshot]) /\
     last (conversationHistory st4) = Some (turn page) /\
     planner_loop env (S n) iteration task sti = next /\
     match n with
     | O =>
         next = (inr tt,
                 after (conversationHistory st4)
                   [Sleep 500; GetSnapshot; max_iterations])
     | S _ =>
         match getSnapshot env (S k) with
         | inr _ =>
             exists t,
               trace next.2
               = trace st4
                 ++ [GetSnapshot; Chat (conversationHistory st4)] ++ t
         | inl _ =>
             match getSnapshot env (S (S k)) with
             | inr _ =>
                 exists t,
                   trace next.2
                   = trace st4
                     ++ [GetSnapshot; Sleep 1000; GetSnapshot;
                         Chat (conversationHistory st4)] ++ t
             | inl retryError =>
                 next = (inr tt,
                         after (conversationHistory st4)
                           [Sleep 500; GetSnapshot;
                            GetSnapshot; Sleep 1000; GetSnapshot;
                            onError (cannot_read_page retryError)])
             end
         end
     end) /\
  (forall st0,
     Earlier.enters_batch env task iteration sti plan st0 ->
     Earlier.execute_steps env plan 0 (steps plan) st0
     = Earlier.execute_steps env plan i (drop i (steps plan)) st ->
     match getSnapshot env k with
     | inl thrown =>
         Earlier.execute_steps env plan i (drop i (steps plan)) st
         = (inl thrown, after (conversationHistory st) [GetSnapshot]) /\
         Earlier.planner_loop env (S n) iteration task sti
         = (inl thrown, after (conversationHistory st) [GetSnapshot])
     | inr page =>
         let h := conversationHistory st ++ [turn page] in
         let st4 := after (trim_earlier h) [GetSnapshot] in
         let next := Earlier.planner_loop env n (S iteration) task st4 in
         Earlier.execute_steps env plan i (drop i (steps plan)) st
         = (inr true, after h [GetSnapshot]) /\
         last (conversationHistory st4) = Some (turn page) /\
         Earlier.planner_loop env (S n) iteration task sti = next /\
         match n with
         | O =>
             next = (inr tt,
                     after (conversationHistory st4)
                       [GetSnapshot; max_iterations])
         | S _ =>
             match getSnapshot env (S k) with
             | inr _ =>
                 exists t,
                   trace next.2
                   = trace st4
                     ++ [GetSnapshot; Chat (conversationHistory st4)] ++ t
             | inl thrown =>
                 next = (inl thrown,
                         after (conversationHistory st4)
                           [GetSnapshot; GetSnapshot])
             end
         end
     end).
Proof.
  intros k after turn max_iterations Hstep Hres Hfail.
  assert (Hne : steps plan <> []).
  { intros E. rewrite E in Hstep. discriminate. }
  assert (Hk : forall h events,
             count_events is_GetSnapshot (trace (after h events))
             = (k + count_events is_GetSnapshot events)%nat).
  { intros h events. unfold after. cbn [trace].
    rewrite !count_events_app. fold k. reflexivity. }
  split.
  - intros st0 Henter Hloop page h st4 next.
    assert (Hexec : execute_steps env plan i (drop i (steps plan)) st
                    = (inr true, after h [Sleep 500; GetSnapshot])).
    { rewrite (drop_S _ _ _ Hstep), execute_steps_head. cbv zeta.
      rewrite Hres, Hfail. cbn [negb].
      rewrite bind_run, errorSnapshot_run.
      cbn [fst snd trace conversationHistory totalUsage].
      rewrite bind_run.
      cbn [push ret fst snd trace conversationHistory totalUsage].
      rewrite !count_events_app.
      cbn [count_events List.filter is_GetSnapshot length].
      rewrite Nat.add_0_r. fold k.
      rewrite length_app. cbn [length].
      replace (length (trace st) + 3 + 2)%nat
        with (length (trace st) + 5)%nat by lia.
      unfold after, h, turn, page, error_turn, buildVerificationMessage.
      rewrite <- !app_assoc. reflexivity. }
    split; [exact Hexec|].
    split; [unfold st4, after; cbn [conversationHistory];
            rewrite last_trimConversation; apply last_snoc|].
    assert (Hbatch : run_batch env plan st0 = (inr tt, st4)).
    { rewrite (run_batch_replan env plan st0 _ (eq_trans Hloop Hexec)).
      reflexivity. }
    split.
    { rewrite (planner_loop_batch env task n iteration sti plan st0 Henter Hne).
      now rewrite Hbatch. }
    destruct n as [|n].
    + unfold next, st4, after, max_iterations. cbn.
      rewrite <- !app_assoc. reflexivity.
    + pose proof (planner_loop_next env task n iteration st4) as Hnext.
      cbv zeta in Hnext. unfold st4 at 1 2 in Hnext.
      rewrite Hk in Hnext.
      change (k + count_events is_GetSnapshot [Sleep 500; GetSnapshot])%nat
        with (k + 1)%nat in Hnext.
      replace (k + 1)%nat with (S k) in Hnext by lia.
      fold st4 in Hnext. fold next in Hnext.
      destruct (getSnapshot env (S k)) as [e1|s1]; [|exact Hnext].
      destruct (getSnapshot env (S (S k))) as [e2|s2]; [|exact Hnext].
      rewrite Hnext. unfold st4, after.
      cbn [trace conversationHistory totalUsage].
      rewrite <- !app_assoc. reflexivity.
  - intros st0 Henter Hloop.
    pose proof (earlier_execute_steps_head env plan i step
                  (drop (S i) (steps plan)) st) as Hhead.
    cbv zeta in Hhead. rewrite Hres, Hfail in Hhead. cbn [negb] in Hhead.
    fold k in Hhead. rewrite <- (drop_S _ _ _ Hstep) in Hhead.
    destruct (getSnapshot env k) as [thrown|page] eqn:Epage.
    + assert (Hexec :
        Earlier.execute_steps env plan i (drop i (steps plan)) st
        = (inl thrown, after (conversationHistory st) [GetSnapshot])).
      { rewrite Hhead. unfold after. rewrite <- !app_assoc. reflexivity. }
      split; [exact Hexec|].
      rewrite (earlier_planner_loop_batch env task n iteration sti plan st0
                 Henter Hne).
      now rewrite (earlier_run_batch_rejected env plan st0 _ thrown
                     (eq_trans Hloop Hexec)).
    + intros h st4 next.
      assert (Hexec :
        Earlier.execute_steps env plan i (drop i (steps plan)) st
        = (inr true, after h [GetSnapshot])).
      { rewrite Hhead.
        unfold after, h, turn, error_turn, buildVerificationMessage.
        rewrite <- !app_assoc. reflexivity. }
      split; [exact Hexec|].
      split; [unfold st4, after; cbn [conversationHistory];
              rewrite last_trim_earlier; apply last_snoc|].
      split.
      { rewrite (earlier_planner_loop_batch env task n iteration sti plan st0
                   Henter Hne).
        now rewrite (earlier_run_batch_replan env plan st0 _
                       (eq_trans Hloop Hexec)). }
      destruct n as [|n].
      * unfold next, st4, after, max_iterations. cbn.
        rewrite <- !app_assoc. reflexivity.
      * pose proof (earlier_planner_loop_next env task n iteration st4)
          as Hnext.
        unfold st4 at 1 in Hnext. rewrite Hk in Hnext.
        change (k + count_events is_GetSnapshot [GetSnapshot])%nat
          with (k + 1)%nat in Hnext.
        replace (k + 1)%nat with (S k) in Hnext by lia.
        fold next in Hnext.
        destruct (getSnapshot env (S k)) as [e1|s1]; [|exact Hnext].
        rewrite Hnext. unfold st4, after.
        cbn [trace conversationHistory totalUsage].
        rewrite <- !app_assoc. reflexivity.
Qed.

(** C9 (amended). When a snapshot cannot be taken: at the head of an
    iteration, of any iteration, it is tried once more after one second,
    and a second failure ends the run with the cannot-read-page error;
    after a failed action it is not tried again and the placeholder
    snapshot is used; at a verification point and at the end of a batch it
    is tried once more after one and a half seconds and a second failure
    gives the placeholder snapshot.  Nothing inside a batch ends the
    run. *)
Theorem C9_snapshot_failures (st : State) (e1 : string) :
  let k := count_events is_GetSnapshot (trace st) in
  let extended (events : list Event) :=
    {| conversationHistory := conversationHistory st;
       totalUsage := totalUsage st;
       trace := trace st ++ events |} in
  getSnapshot env k = inl e1 ->
  acquire_state env st
  = (getSnapshot env (S k), extended [GetSnapshot; Sleep 1000; GetSnapshot]) /\
  (forall e2 n iteration,
     getSnapshot env (S k) = inl e2 ->
     planner_loop env (S n) iteration task st
     = (inr tt, extended [GetSnapshot; Sleep 1000; GetSnapshot;
                          onError (cannot_read_page e2)])) /\
  (exists snapshot,
     errorSnapshot env st = (snapshot, extended [Sleep 500; GetSnapshot]) /\
     tree snapshot = "(unable to read page)") /\
  (exists snapshot,
     verifySnapshot env st
     = (snapshot,
        extended [Sleep 500; GetSnapshot; Sleep 1500; GetSnapshot]) /\
     match getSnapshot env (S k) with
     | inr s => snapshot = s
     | inl _ => tree snapshot = "(page is loading or unreachable)"
     end) /\
  (forall plan, exists t,
     trace (run_batch env plan st).2 = trace st ++ t /\
     forallb quiet t = true).
Proof.
  intros k extended Hfail.
  assert (Hacq : acquire_state env st
            = (getSnapshot env (S k),
               extended [GetSnapshot; Sleep 1000; GetSnapshot])).
  { rewrite acquire_state_run. cbv zeta. fold k. now rewrite Hfail. }
  split; [exact Hacq|]. split; [|split; [|split]].
  - intros e2 n iteration Hfail2. cbn [planner_loop].
    rewrite bind_run. unfold iteration_body. rewrite bind_run, Hacq, Hfail2.
    cbn. rewrite <- app_assoc. reflexivity.
  - rewrite errorSnapshot_run. fold k. rewrite Hfail.
    eexists. split; reflexivity.
  - rewrite verifySnapshot_run. cbv zeta. fold k. rewrite Hfail.
    eexists. split; [reflexivity|].
    destruct (getSnapshot env (S k)); reflexivity.
  - intros plan. apply (emits_run_batch env quiet). auto.
Qed.

End Replanning.

(** *** The first two messages of the conversation *)

Lemma preserves_ret {A} P (a : A) : preserves P (ret a).
Proof. intros st H. exact H. Qed.

Lemma preserves_bind {A B} P (c : M A) (k : A -> M B) :
  preserves P c -> (forall a, preserves P (k a)) -> preserves P (bind c k).
Proof.
  intros Hc Hk st H. rewrite bind_run. apply Hk, Hc, H.
Qed.

Lemma preserves_same {A} P (c : M A) :
  (forall st, conversationHistory (c st).2 = conversationHistory st) ->
  preserves P c.
Proof. intros Hc st H. now rewrite Hc. Qed.

Lemma preserves_push P (m : LLMMessage) :
  (forall h, P h -> P (h ++ [m])) -> preserves P (push m).
Proof. intros Hm st H. now apply Hm. Qed.

Lemma pinned_app m0 m1 h t : pinned m0 m1 h -> pinned m0 m1 (h ++ t).
Proof. intros [H0 H1]. split; now apply lookup_app_l_Some. Qed.

Lemma pinned_trim m0 m1 h maxMessages :
  pinned m0 m1 h -> pinned m0 m1 (trimConversation h maxMessages).
Proof.
  intros [H0 H1]. split; rewrite trimConversation_pinned; auto.
Qed.

Lemma pinned_length m0 m1 h : pinned m0 m1 h -> (2 <= length h)%nat.
Proof. intros [_ H1]. apply lookup_lt_Some in H1. lia. Qed.

(** The pop loop stops at an assistant message. *)
Lemma pop_corrective_rev_shield (r : list LLMMessage) (a : LLMMessage)
    (l : list LLMMessage) :
  role a = assistant ->
  exists r', pop_corrective_rev (r ++ a :: l) = r' ++ a :: l.
Proof.
  intros Ha. induction r as [|m r IH].
  - exists []. simpl. rewrite Ha. now rewrite andb_false_r.
  - cbn [app pop_corrective_rev].
    destruct (_ && _ && _); [exact IH|]. now exists (m :: r).
Qed.

Lemma pop_corrective_pinned m0 m1 h :
  pinned m0 m1 h -> shielded h -> pinned m0 m1 (pop_corrective h).
Proof.
  intros [H0 H1] (l & a & r & -> & Ha & Hl).
  unfold pop_corrective. rewrite rev_app_distr. cbn [rev].
  rewrite <- app_assoc. cbn [app].
  destruct (pop_corrective_rev_shield (rev r) a (rev l) Ha) as (r' & ->).
  rewrite rev_app_distr. cbn [rev]. rewrite rev_involutive, <- app_assoc.
  split.
  - rewrite lookup_app_l by lia. rewrite lookup_app_l in H0 by lia. exact H0.
  - rewrite lookup_app_l by lia. rewrite lookup_app_l in H1 by lia. exact H1.
Qed.

Section Pinning.
Variable env : Env.

Ltac same :=
  repeat first
    [ apply preserves_ret
    | apply preserves_same; reflexivity
    | apply preserves_bind; [|intros ?]
    | match goal with
      | |- preserves _ (match ?x with _ => _ end) => destruct x
      | |- preserves _ (if ?x then _ else _) => destruct x
      end ].

Lemma callLLMWithRetry_loop_history P n attempt lastError messages :
  preserves P (callLLMWithRetry_loop env n attempt lastError messages).
Proof.
  revert attempt lastError. induction n as [|n IH]; intros; simpl.
  - same.
  - same. apply IH.
Qed.

Lemma add_usage_history P response : preserves P (add_usage response).
Proof.
  unfold add_usage. destruct (usage response) as [[i o]|]; same.
Qed.

Lemma getPlanFromLLM_loop_pinned m0 m1 n jsonAttempt lastParseError st :
  pinned m0 m1 (conversationHistory st) ->
  ((0 < jsonAttempt)%nat -> shielded (conversationHistory st)) ->
  pinned m0 m1
    (conversationHistory
       (getPlanFromLLM_loop env n jsonAttempt lastParseError st).2).
Proof.
  revert jsonAttempt lastParseError st.
  induction n as [|n IH]; intros jsonAttempt lastParseError st Hp Hs.
  - exact Hp.
  - cbn [getPlanFromLLM_loop]. rewrite bind_run.
    set (c0 := match lastParseError with
               | Some e => _ | None => _ end).
    assert (H0 : pinned m0 m1 (conversationHistory (c0 st).2) /\
                 ((0 < jsonAttempt)%nat ->
                  shielded (conversationHistory (c0 st).2))).
    { unfold c0. destruct lastParseError as [e|]; [|auto].
      destruct (_ && _); [|auto]. cbn [push snd conversationHistory].
      split; [now apply pinned_app|].
      intros Hj. destruct (Hs Hj) as (l & a & r & -> & Ha & Hl).
      exists l, a, (r ++ [{| role := user; content := corrective_prompt e |}]).
      now rewrite <- app_assoc. }
    destruct (c0 st) as [[] st1]. cbn [fst snd] in *. clear c0.
    destruct H0 as [Hp1 Hs1].
    rewrite bind_run. cbn [get_history fst snd]. rewrite bind_run.
    pose proof (callLLMWithRetry_loop_history
                  (fun h => h = conversationHistory st1)
                  (S MAX_API_RETRIES) 0 None (conversationHistory st1) st1
                  eq_refl) as Hcall.
    fold (callLLMWithRetry env (conversationHistory st1)) in Hcall.
    destruct (callLLMWithRetry env (conversationHistory st1) st1)
      as [[thrown|response] st2]; cbn [fst snd] in *.
    + cbn [ret fst snd]. now rewrite Hcall.
    + rewrite bind_run.
      pose proof (add_usage_history (fun h => h = conversationHistory st1)
                    response st2 Hcall) as Husage.
      destruct (add_usage response st2) as [[] st3]. cbn [fst snd] in *.
      destruct (parsePlan env (response_content response))
        as [parseError|plan].
      * rewrite bind_run. cbn [push fst snd].
        destruct (jsonAttempt =? MAX_JSON_RETRIES)%nat.
        -- cbn. rewrite Husage. now apply pinned_app.
        -- apply IH; cbn [conversationHistory]; rewrite Husage.
           ++ now apply pinned_app.
           ++ intros _. eexists (conversationHistory st1), _, [].
              split; [reflexivity|]. split; [reflexivity|].
              eapply pinned_length, Hp1.
      * rewrite bind_run.
        destruct (0 <? jsonAttempt)%nat eqn:Ej.
        -- rewrite bind_run. cbn. rewrite Husage.
           apply pinned_app. apply pop_corrective_pinned; [exact Hp1|].
           apply Hs1. now apply Nat.ltb_lt.
        -- cbn. rewrite Husage. now apply pinned_app.
Qed.

Lemma snapshots_history P :
  preserves P (errorSnapshot env) /\ preserves P (verifySnapshot env).
Proof. split; [unfold errorSnapshot | unfold verifySnapshot]; same. Qed.

Lemma execute_steps_pinned m0 m1 plan i rest :
  preserves (pinned m0 m1) (execute_steps env plan i rest).
Proof.
  revert i. induction rest as [|step rest IH]; intros i; cbn [execute_steps].
  - same.
  - same; try apply snapshots_history; try apply IH;
      apply preserves_push; intros h; apply pinned_app.
Qed.

Lemma run_batch_pinned m0 m1 plan :
  preserves (pinned m0 m1) (run_batch env plan).
Proof.
  unfold run_batch, finalSnapshot.
  apply preserves_bind; [apply execute_steps_pinned|].
  intros [thrown|needsReplan]; [same|].
  apply preserves_bind.
  - same; try apply snapshots_history.
    apply preserves_push. intros h. apply pinned_app.
  - intros _. intros st H. rewrite !bind_run. cbn. now apply pinned_trim.
Qed.

Lemma iteration_body_pinned m0 m1 task iteration :
  preserves (pinned m0 m1) (iteration_body env task iteration).
Proof.
  unfold iteration_body.
  apply preserves_bind.
  { apply preserves_same. intros st. apply acquire_state_history. }
  intros [retryError|snapshot]; [same|].
  apply preserves_bind.
  { unfold compose_message. destruct (iteration =? 0)%nat; [|same].
    apply preserves_push. intros h. apply pinned_app. }
  intros _. apply preserves_bind.
  { intros st H. apply getPlanFromLLM_loop_pinned; [exact H | lia]. }
  intros [message|[plan raw]]; [same|].
  apply preserves_bind; [same|]. intros _.
  destruct (length (steps plan) =? 0)%nat; [same|].
  apply preserves_bind; [apply run_batch_pinned | intros; same].
Qed.

(** The page that the first pass of a run works with. *)
Lemma first_page_acquired :
  first_page env
  = match (acquire_state env (initial_state env)).1 with
    | inr snapshot => Some snapshot
    | inl _ => None
    end.
Proof.
  rewrite acquire_state_run. cbv zeta. unfold first_page.
  change (count_events is_GetSnapshot (trace (initial_state env)))
    with 0%nat.
  destruct (getSnapshot env 0); [|reflexivity].
  cbn [fst]. destruct (getSnapshot env 1); reflexivity.
Qed.

Lemma first_iteration_pinned task st' :
  iteration_body env task 0 (initial_state env) = (Continue, st') ->
  exists snapshot,
    first_page env = Some snapshot /\
    pinned (system_message env) (task_message task snapshot)
      (conversationHistory st').
Proof.
  unfold iteration_body. rewrite bind_run, first_page_acquired.
  pose proof (acquire_state_history env (initial_state env)) as Hh.
  destruct (acquire_state env (initial_state env))
    as [[retryError|snapshot] st1]; cbn [fst snd] in *; [discriminate|].
  intros Hbody. exists snapshot. split; [reflexivity|].
  set (k := fun r : string + Plan * string => _) in Hbody.
  rewrite bind_run in Hbody.
  cbn [compose_message Nat.eqb push fst snd] in Hbody.
  assert (Hp : preserves
            (pinned (system_message env) (task_message task snapshot))
            (bind (getPlanFromLLM env) k)).
  { apply preserves_bind.
    - intros st H. apply getPlanFromLLM_loop_pinned; [exact H | lia].
    - intros [message|[plan raw]]; unfold k; [same|].
      apply preserves_bind; [same|]. intros _.
      destruct (length (steps plan) =? 0)%nat; [same|].
      apply preserves_bind; [apply run_batch_pinned | intros; same]. }
  match type of Hbody with bind _ _ ?s = _ =>
    specialize (Hp s) end.
  rewrite Hbody in Hp. apply Hp. cbn [conversationHistory].
  rewrite Hh. split; reflexivity.
Qed.

Lemma reaches_pinned task iteration st :
  reaches env task iteration st ->
  match iteration with
  | O => st = initial_state env
  | S _ => exists snapshot,
      first_page env = Some snapshot /\
      pinned (system_message env) (task_message task snapshot)
        (conversationHistory st)
  end.
Proof.
  induction 1 as [|iteration st st' _ IH Hbody]; [reflexivity|].
  destruct iteration as [|iteration].
  - subst st. now apply first_iteration_pinned.
  - destruct IH as (snapshot & Hfirst & Hp). exists snapshot.
    split; [exact Hfirst|].
    pose proof (iteration_body_pinned _ _ task (S iteration) st Hp) as H.
    now rewrite Hbody in H.
Qed.
End Pinning.

(** *** The contexts sent to the model *)

Lemma keeps_ret {A} (I : State -> Prop) (a : A) : keeps I (ret a).
Proof. intros st H. exact H. Qed.

Lemma keeps_bind {A B} (I : State -> Prop) (c : M A) (k : A -> M B) :
  keeps I c -> (forall a, keeps I (k a)) -> keeps I (bind c k).
Proof. intros Hc Hk st H. rewrite bind_run. apply Hk, Hc, H. Qed.

Lemma chats_app (a b : list Event) : chats (a ++ b) = chats a ++ chats b.
Proof. unfold chats. apply omap_app. Qed.

Lemma shielded_app h m : shielded h -> shielded (h ++ [m]).
Proof.
  intros (l & a & r & -> & Ha & Hl). exists l, a, (r ++ [m]).
  now rewrite <- app_assoc.
Qed.

Section Within.
Variable env : Env.
Variable P : list LLMMessage -> Prop.

Lemma within_same {A} (c : M A) :
  (forall st, (c st).2 = st) -> keeps (contexts_within P) c.
Proof. intros Hc st H. now rewrite Hc. Qed.

Lemma within_emit (e : Event) :
  is_Chat e = false -> keeps (contexts_within P) (emit e).
Proof.
  intros He st [Hh Hc]. split; [exact Hh|].
  cbn [emit snd trace]. rewrite chats_app.
  destruct e; try discriminate; cbn; now rewrite app_nil_r.
Qed.

Lemma within_getSnapshot : keeps (contexts_within P) (call_getSnapshot env).
Proof. intros st H. now apply (within_emit GetSnapshot). Qed.

Lemma within_executeAction a :
  keeps (contexts_within P) (call_executeAction env a).
Proof. intros st H. now apply (within_emit (ExecuteAction a)). Qed.

Lemma within_chat (messages : list LLMMessage) :
  P messages -> keeps (contexts_within P) (call_chat env messages).
Proof.
  intros Hm st [Hh Hc]. split; [exact Hh|].
  unfold call_chat. cbn [emit snd trace]. rewrite chats_app.
  apply Forall_app. split; [exact Hc|]. now repeat constructor.
Qed.

Lemma within_push (m : LLMMessage) :
  (forall h, P h -> P (h ++ [m])) -> keeps (contexts_within P) (push m).
Proof. intros Hm st [Hh Hc]. split; [now apply Hm | exact Hc]. Qed.

Lemma within_set_history (f : list LLMMessage -> list LLMMessage) {A}
    (k : M A) :
  (forall h, P h -> P (f h)) ->
  keeps (contexts_within P) k ->
  keeps (contexts_within P)
    (h <- get_history ;; set_history (f h) ;; k).
Proof.
  intros Hf Hk st [Hh Hc]. rewrite !bind_run. cbn [get_history fst snd].
  apply Hk. split; [now apply Hf | exact Hc].
Qed.

Lemma within_add_usage (response : LLMResponse) :
  keeps (contexts_within P) (add_usage response).
Proof.
  unfold add_usage. destruct (usage response) as [[i o]|];
    [|apply keeps_ret].
  intros st [Hh Hc]. split; [exact Hh|].
  cbn [emit snd trace]. rewrite chats_app. cbn. now rewrite app_nil_r.
Qed.

Lemma add_usage_same_history (response : LLMResponse) (st : State) :
  conversationHistory (add_usage response st).2 = conversationHistory st.
Proof.
  unfold add_usage. destruct (usage response) as [[i o]|]; reflexivity.
Qed.

(** A model call sends the messages it was given, whatever the number of
    requests, and leaves the conversation alone. *)
Lemma within_callLLMWithRetry_loop n attempt lastError messages :
  P messages ->
  keeps (contexts_within P)
    (callLLMWithRetry_loop env n attempt lastError messages).
Proof.
  intros Hm. revert attempt lastError.
  induction n as [|n IH]; intros attempt lastError;
    cbn [callLLMWithRetry_loop].
  - apply keeps_ret.
  - apply keeps_bind; [now apply within_chat|].
    intros [message|response]; [|apply keeps_ret].
    destruct (classifyError message); [|apply keeps_ret].
    destruct (attempt =? MAX_API_RETRIES)%nat; [apply keeps_ret|].
    apply keeps_bind; [now apply within_emit|]. intros _.
    apply keeps_bind; [now apply within_emit|]. intros _.
    apply IH.
Qed.

End Within.

Ltac within :=
  repeat first
    [ apply keeps_ret
    | apply within_emit; reflexivity
    | apply within_getSnapshot
    | apply within_executeAction
    | apply within_add_usage
    | apply within_same; reflexivity
    | apply keeps_bind; [|intros ?]
    | match goal with
      | |- keeps _ (match ?x with _ => _ end) => destruct x
      | |- keeps _ (if ?x then _ else _) => destruct x
      end ].

Section PinnedContexts.
Variable env : Env.
Variables m0 m1 : LLMMessage.

Lemma within_snapshots :
  keeps (contexts_within (pinned m0 m1)) (errorSnapshot env) /\
  keeps (contexts_within (pinned m0 m1)) (verifySnapshot env).
Proof.
  split; [unfold errorSnapshot | unfold verifySnapshot];
    unfold sleep, placeholder, date_now; within.
Qed.

Lemma within_getPlanFromLLM_loop n jsonAttempt lastParseError st :
  contexts_within (pinned m0 m1) st ->
  ((0 < jsonAttempt)%nat -> shielded (conversationHistory st)) ->
  contexts_within (pinned m0 m1)
    (getPlanFromLLM_loop env n jsonAttempt lastParseError st).2.
Proof.
  revert jsonAttempt lastParseError st.
  induction n as [|n IH]; intros jsonAttempt lastParseError st Hst Hs.
  - exact Hst.
  - cbn [getPlanFromLLM_loop]. rewrite bind_run.
    set (c0 := match lastParseError with
               | Some e => _ | None => _ end).
    assert (H0 : contexts_within (pinned m0 m1) (c0 st).2 /\
                 ((0 < jsonAttempt)%nat ->
                  shielded (conversationHistory (c0 st).2))).
    { unfold c0. destruct lastParseError as [e|]; [|auto].
      destruct (_ && _); [|auto]. split.
      - apply within_push; [|exact Hst]. intros h. apply pinned_app.
      - intros Hj. cbn [push snd conversationHistory].
        now apply shielded_app, Hs. }
    destruct (c0 st) as [[] st1]. cbn [fst snd] in *. clear c0.
    destruct H0 as [H1 Hs1].
    rewrite bind_run. cbn [get_history fst snd]. rewrite bind_run.
    pose proof (within_callLLMWithRetry_loop env (pinned m0 m1)
                  (S MAX_API_RETRIES) 0 None (conversationHistory st1)
                  (proj1 H1) st1 H1) as H2.
    pose proof (callLLMWithRetry_loop_history env
                  (fun h => h = conversationHistory st1)
                  (S MAX_API_RETRIES) 0 None (conversationHistory st1) st1
                  eq_refl) as E2.
    fold (callLLMWithRetry env (conversationHistory st1)) in H2, E2.
    destruct (callLLMWithRetry env (conversationHistory st1) st1)
      as [[thrown|response] st2]; cbn [fst snd] in *; [exact H2|].
    rewrite bind_run.
    pose proof (within_add_usage (pinned m0 m1) response st2 H2) as H3.
    pose proof (add_usage_same_history response st2) as E3.
    destruct (add_usage response st2) as [[] st3]. cbn [fst snd] in *.
    rewrite E2 in E3.
    destruct (parsePlan env (response_content response))
      as [parseError|plan].
    + rewrite bind_run.
      assert (H4 : contexts_within (pinned m0 m1)
                     (push {| role := assistant;
                              content := response_content response |}
                        st3).2).
      { apply within_push; [|exact H3]. intros h. apply pinned_app. }
      destruct (jsonAttempt =? MAX_JSON_RETRIES)%nat; [exact H4|].
      apply IH; [exact H4|]. intros _.
      cbn [push snd conversationHistory]. rewrite E3.
      eexists (conversationHistory st1), _, [].
      split; [reflexivity|]. split; [reflexivity|].
      eapply pinned_length, H1.
    + rewrite bind_run.
      destruct (0 <? jsonAttempt)%nat eqn:Ej.
      * rewrite !bind_run. cbn [get_history set_history fst snd ret].
        apply within_push; [intros h; apply pinned_app|].
        destruct H3 as [Hh3 Hc3]. split; [|exact Hc3].
        cbn [conversationHistory]. rewrite E3.
        apply pop_corrective_pinned; [apply H1|].
        apply Hs1. now apply Nat.ltb_lt.
      * cbn [ret fst snd]. rewrite bind_run.
        apply (keeps_ret (contexts_within (pinned m0 m1))), within_push;
          [|exact H3].
        intros h. apply pinned_app.
Qed.

Lemma within_execute_steps plan i rest :
  keeps (contexts_within (pinned m0 m1)) (execute_steps env plan i rest).
Proof.
  revert i. induction rest as [|step rest IH]; intros i; cbn [execute_steps].
  - within.
  - within; try apply within_snapshots; try apply IH;
      apply within_push; intros h; apply pinned_app.
Qed.

Lemma within_run_batch plan :
  keeps (contexts_within (pinned m0 m1)) (run_batch env plan).
Proof.
  unfold run_batch, finalSnapshot.
  apply keeps_bind; [apply within_execute_steps|].
  intros [thrown|needsReplan]; [within|].
  apply keeps_bind.
  - within; try apply within_snapshots.
    apply within_push. intros h. apply pinned_app.
  - intros _. apply within_set_history; [|within].
    intros h. apply pinned_trim.
Qed.

(** What follows the first message of a pass keeps the first two
    messages, in the conversation and in every context. *)
Lemma within_plan_and_batch :
  keeps (contexts_within (pinned m0 m1))
    (r <- getPlanFromLLM env ;;
     match r with
     | inl message =>
         emit (onError ("Failed to get plan: " +:+ message)) ;;
         ret Return
     | inr (plan, _) =>
         emit (onPlan plan) ;;
         if (length (steps plan) =? 0)%nat then
           emit (onComplete (reasoning plan)) ;;
           ret Return
         else
           r <- run_batch env plan ;;
           match r with
           | inl thrown => ret (Throw thrown)
           | inr _ => ret Continue
           end
     end).
Proof.
  apply keeps_bind.
  - intros st H. apply within_getPlanFromLLM_loop; [exact H | lia].
  - intros [message|[plan raw]]; [within|].
    apply keeps_bind; [within|]. intros _.
    destruct (length (steps plan) =? 0)%nat; [within|].
    apply keeps_bind; [apply within_run_batch | intros; within].
Qed.

Lemma within_iteration_body task iteration :
  keeps (contexts_within (pinned m0 m1))
    (iteration_body env task (S iteration)).
Proof.
  unfold iteration_body.
  apply keeps_bind; [unfold acquire_state, sleep; within|].
  intros [retryError|snapshot]; [within|].
  apply keeps_bind; [cbn [compose_message Nat.eqb]; within|]. intros _.
  apply within_plan_and_batch.
Qed.

Lemma within_planner_loop task n iteration :
  keeps (contexts_within (pinned m0 m1))
    (planner_loop env n (S iteration) task).
Proof.
  revert iteration. induction n as [|n IH]; intros iteration;
    cbn [planner_loop].
  - within.
  - apply keeps_bind; [apply within_iteration_body|].
    intros [| |thrown]; [within | apply IH | within].
Qed.

End PinnedContexts.

Section HeadedContexts.
Variable env : Env.
Variable m0 : LLMMessage.

Lemma head_app (h : list LLMMessage) (m : LLMMessage) :
  h !! 0%nat = Some m0 -> (h ++ [m]) !! 0%nat = Some m0.
Proof. apply lookup_app_l_Some. Qed.

Lemma head_trim_earlier (h : list LLMMessage) :
  h !! 0%nat = Some m0 -> trim_earlier h !! 0%nat = Some m0.
Proof.
  unfold trim_earlier, splice.
  destruct (12 <? Z.of_nat (length h)); [|auto].
  destruct h as [|m h]; [discriminate|]. auto.
Qed.

Lemma earlier_within_execute_steps plan i rest :
  keeps (contexts_within (fun h => h !! 0%nat = Some m0))
    (Earlier.execute_steps env plan i rest).
Proof.
  revert i.
  induction rest as [|step rest IH]; intros i; cbn [Earlier.execute_steps].
  - within.
  - within; try apply IH; apply within_push; intros h; apply head_app.
Qed.

Lemma earlier_within_run_batch plan :
  keeps (contexts_within (fun h => h !! 0%nat = Some m0))
    (Earlier.run_batch env plan).
Proof.
  unfold Earlier.run_batch, Earlier.final_verification.
  apply keeps_bind; [apply earlier_within_execute_steps|].
  intros [thrown|needsReplan]; [within|].
  apply keeps_bind.
  - within; apply within_push; intros h; apply head_app.
  - intros [thrown|[]]; [within|].
    apply within_set_history; [apply head_trim_earlier | within].
Qed.

Lemma earlier_within_ask_plan :
  keeps (contexts_within (fun h => h !! 0%nat = Some m0))
    (Earlier.ask_plan env).
Proof.
  intros st H. unfold Earlier.ask_plan. rewrite bind_run.
  cbn [get_history fst snd]. revert st H. intros st H.
  refine (keeps_bind _ (call_chat env (conversationHistory st)) _ _ _ st H).
  - apply within_chat. exact (proj1 H).
  - intros [error|response]; [within|].
    within. apply within_push; intros h; apply head_app.
Qed.

Lemma earlier_within_planner_loop task n iteration :
  keeps (contexts_within (fun h => h !! 0%nat = Some m0))
    (Earlier.planner_loop env n iteration task).
Proof.
  revert iteration. induction n as [|n IH]; intros iteration;
    cbn [Earlier.planner_loop].
  - within.
  - apply keeps_bind.
    + unfold Earlier.iteration_body.
      apply keeps_bind; [within|].
      intros [thrown|snapshot]; [within|].
      apply keeps_bind.
      { unfold compose_message. destruct (iteration =? 0)%nat; [|within].
        apply within_push; intros h; apply head_app. }
      intros _. apply keeps_bind; [apply earlier_within_ask_plan|].
      intros [error|plan]; [within|].
      apply keeps_bind; [within|]. intros _.
      destruct (length (steps plan) =? 0)%nat; [within|].
      apply keeps_bind; [apply earlier_within_run_batch | intros; within].
    + intros [| |thrown]; [within | apply IH | within].
Qed.

End HeadedContexts.

Lemma planner_loop_step (env : Env) (n iteration : nat) (task : string)
    (st : State) :
  planner_loop env (S n) iteration task st =
  match iteration_body env task iteration st with
  | (Return, st1) => (inr tt, st1)
  | (Continue, st1) => planner_loop env n (S iteration) task st1
  | (Throw thrown, st1) => (inl thrown, st1)
  end.
Proof.
  cbn [planner_loop]. rewrite bind_run.
  destruct (iteration_body env task iteration st) as [[| |thrown] st1];
    reflexivity.
Qed.

(** The first pass of a run: when the page is read, the task message
    takes its place at index 1 before the first context is sent. *)
Lemma first_iteration_within (env : Env) (task : string) :
  match first_page env with
  | Some page =>
      contexts_within (pinned (system_message env) (task_message task page))
        (iteration_body env task 0 (initial_state env)).2
  | None =>
      (iteration_body env task 0 (initial_state env)).1 = Return /\
      chats (trace (iteration_body env task 0 (initial_state env)).2) = []
  end.
Proof.
  rewrite first_page_acquired. unfold iteration_body. rewrite !bind_run.
  pose proof (acquire_state_run env (initial_state env)) as Hacq.
  cbv zeta in Hacq.
  change (count_events is_GetSnapshot (trace (initial_state env)))
    with 0%nat in Hacq.
  assert (Hquiet : chats (trace (acquire_state env (initial_state env)).2)
                   = [] /\
                   conversationHistory
                     (acquire_state env (initial_state env)).2
                   = [system_message env]).
  { rewrite Hacq. destruct (getSnapshot env 0); split; reflexivity. }
  destruct Hquiet as [Hc Hh]. clear Hacq.
  destruct (acquire_state env (initial_state env))
    as [[retryError|page] st1]; cbn [fst snd] in *.
  - split; [reflexivity|].
    unfold bind. cbn [emit ret fst snd trace].
    rewrite chats_app, Hc. reflexivity.
  - cbn [compose_message Nat.eqb]. apply within_plan_and_batch. split.
    + cbn [push snd conversationHistory]. rewrite Hh. split; reflexivity.
    + cbn [push snd trace]. rewrite Hc. constructor.
Qed.

(** A run of the planner with retries: the first two messages of the
    conversation, once the task is there, are those of every context sent
    to the model and of the conversation the run ends with. *)
Lemma run_pinned (env : Env) (task : string) :
  match first_page env with
  | Some page =>
      contexts_within (pinned (system_message env) (task_message task page))
        (runPlanner env task)
  | None => chats (trace (runPlanner env task)) = []
  end.
Proof.
  pose proof (first_iteration_within env task) as Hfirst.
  unfold runPlanner. change MAX_ITERATIONS with (S 14).
  rewrite planner_loop_step.
  destruct (first_page env) as [page|].
  - destruct (iteration_body env task 0 (initial_state env))
      as [[| |thrown] st1]; cbn [fst snd] in *; try exact Hfirst.
    now apply within_planner_loop.
  - destruct Hfirst as [Hret Hc].
    destruct (iteration_body env task 0 (initial_state env))
      as [control st1]; cbn [fst snd] in *.
    subst control. exact Hc.
Qed.

(** C6 (amended). In the planner with retries: through any sequence of
    pushes and trims, a message that sits at index 0 or at index 1 stays
    there unchanged; one trim keeps the first two messages and the
    messages from [recentStart] on, so it removes only messages at indices
    2 and above, and none of the last [maxMessages - 2]; the removal of
    corrective prompts keeps the first two messages as well, since it
    stops at the rejected reply that stands after them; and in a run,
    every context sent to the model, the conversation at the head of every
    iteration after the first and the conversation that the run ends with
    hold the system prompt at index 0 and, at index 1, the one task message
    that the first iteration built from the task and the page it read.
    In the earlier planner only index 0 is kept: through pushes and trims
    the message at index 0 stays, a trim keeps it and the last ten
    messages once there are more than twelve, which puts the first of
    those ten at index 1, and every context of a run and the conversation
    it ends with start with the system prompt. *)
Theorem C6_context_pinning (env : Env) (task : string)
    (h : list LLMMessage) (ops : list HistoryOp) :
  let first_two (page : PageSnapshot) (ms : list LLMMessage) :=
    ms !! 0%nat = Some (system_message env) /\
    ms !! 1%nat = Some (task_message task page) in
  let first_one (ms : list LLMMessage) :=
    ms !! 0%nat = Some (system_message env) in
  ((forall i m, (i < 2)%nat -> h !! i = Some m ->
                apply_ops h ops !! i = Some m) /\
   (forall maxMessages,
      trimConversation h maxMessages
      = take 2 h
        ++ drop (Z.to_nat (Z.max 2 (Z.of_nat (length h) - (maxMessages - 2))))
             h) /\
   (forall i m, (i < 2)%nat -> h !! i = Some m -> shielded h ->
                pop_corrective h !! i = Some m) /\
   match first_page env with
   | Some page =>
       Forall (first_two page) (chats (trace (runPlanner env task))) /\
       first_two page (conversationHistory (runPlanner env task)) /\
       forall iteration st,
         reaches env task (S iteration) st ->
         first_two page (conversationHistory st)
   | None =>
       chats (trace (runPlanner env task)) = [] /\
       forall iteration st, ~ reaches env task (S iteration) st
   end) /\
  ((forall m, h !! 0%nat = Some m ->
              apply_ops_earlier h ops !! 0%nat = Some m) /\
   (trim_earlier h
    = if 12 <? Z.of_nat (length h)
      then take 1 h ++ drop (length h - 10) h
      else h) /\
   ((12 < length h)%nat ->
    trim_earlier h !! 1%nat = h !! (length h - 10)%nat) /\
   Forall first_one (chats (trace (Earlier.runPlanner env task))) /\
   first_one (conversationHistory (Earlier.runPlanner env task))).
Proof.
  intros first_two first_one.
  split; [split; [|split; [|split]]|split; [|split; [|split]]].
  - revert h. induction ops as [|op ops IH]; intros h i m Hi Hm; simpl.
    + exact Hm.
    + apply IH; [exact Hi|]. now apply apply_op_pinned.
  - intros. apply trimConversation_eq.
  - intros i m Hi Hm Hs.
    assert (Hlen : (2 <= length h)%nat).
    { destruct Hs as (l & a & r & -> & _ & Hl). rewrite length_app. lia. }
    destruct (lookup_lt_is_Some_2 h 0) as [x0 H0]; [lia|].
    destruct (lookup_lt_is_Some_2 h 1) as [x1 H1]; [lia|].
    destruct (pop_corrective_pinned x0 x1 h (conj H0 H1) Hs) as [P0 P1].
    destruct i as [|[|i]]; [congruence | congruence | lia].
  - pose proof (run_pinned env task) as Hrun.
    destruct (first_page env) as [page|] eqn:Efirst.
    + destruct Hrun as [Hh Hc]. split; [exact Hc|]. split; [exact Hh|].
      intros iteration st Hreach.
      destruct (reaches_pinned env task (S iteration) st Hreach)
        as (page' & Hfirst & Hp).
      rewrite Efirst in Hfirst. injection Hfirst as <-. exact Hp.
    + split; [exact Hrun|]. intros iteration st Hreach.
      destruct (reaches_pinned env task (S iteration) st Hreach)
        as (page' & Hfirst & _).
      rewrite Efirst in Hfirst. discriminate.
  - revert h. induction ops as [|op ops IH]; intros h m Hm; simpl.
    + exact Hm.
    + apply IH. destruct op as [m'|maxMessages]; simpl.
      * now apply lookup_app_l_Some.
      * now apply head_trim_earlier.
  - unfold trim_earlier, splice.
    destruct (12 <? Z.of_nat (length h)) eqn:E; [|reflexivity].
    apply Z.ltb_lt in E. f_equal. f_equal. lia.
  - intros Hlen. unfold trim_earlier, splice.
    replace (12 <? Z.of_nat (length h)) with true
      by (symmetry; apply Z.ltb_lt; lia).
    rewrite lookup_app_r by (rewrite length_take; lia).
    rewrite length_take, lookup_drop. f_equal. lia.
  - assert (H : contexts_within first_one (Earlier.runPlanner env task)).
    { unfold Earlier.runPlanner. apply earlier_within_planner_loop.
      split; [reflexivity | constructor]. }
    destruct H as [Hh Hc]. split; [exact Hc | exact Hh].
Qed.

(** C6 (as stated, refuted). A run of the earlier planner in which the
    model waits, again and again: the first seven contexts it sends.  The
    sixth still has the task message at index 1; the trim after it takes
    the task message away, and the seventh has a reply of the model
    there. *)
Lemma C6_counterexample :
  let task := "click the Go button" in
  let contexts := chats (trace (Earlier.runPlanner waiting_env task)) in
  (contexts !! 5%nat ≫= (.!! 1%nat)
   = Some (task_message task example_snapshot)) /\
  (contexts !! 6%nat ≫= (.!! 1%nat)
   = Some {| role := assistant; content := "wait" |}) /\
  (chats (trace (runPlanner waiting_env task)) !! 6%nat ≫= (.!! 1%nat)
   = Some (task_message task example_snapshot)).
Proof. vm_compute. repeat split; reflexivity. Qed.

(** C6 on the runs of the two planners in which the model waits, again and
    again. *)
Lemma C6_witness :
  let env := waiting_env in
  let task := "click the Go button" in
  first_page env = Some example_snapshot /\
  Forall (fun ms => ms !! 0%nat = Some (system_message env) /\
                    ms !! 1%nat = Some (task_message task example_snapshot))
         (chats (trace (runPlanner env task))) /\
  Forall (fun ms => ms !! 0%nat = Some (system_message env))
         (chats (trace (Earlier.runPlanner env task))) /\
  length (chats (trace (Earlier.runPlanner env task))) = 15%nat.
Proof.
  intros env task. split; [reflexivity|].
  pose proof (C6_context_pinning env task [] [])
    as [[_ [_ [_ Hlater]]] Hearlier].
  change (first_page env) with (Some example_snapshot) in Hlater.
  split; [exact (proj1 Hlater)|].
  split; [exact (proj1 (proj2 (proj2 (proj2 Hearlier)))) | reflexivity].
Defined.


(** *** The theorems on the example environments *)

(** C3 on the plan "click, then type": the click is step 0 of 2, and the
    verification turn tells the click and shows the page. *)
Lemma C3_witness :
  let env := click_env in
  let st := initial_state env in
  (steps click_then_type !! 0%nat = Some click_go /\
   (1 < length (steps click_then_type))%nat /\
   action click_go = click "e7" /\
   needsVerification click_go = false /\
   executeAction env (count_events is_ExecuteAction (trace st))
     (action click_go) = inr succeeded /\
   success succeeded = true) /\
  execute_steps env click_then_type 0 (drop 0 (steps click_then_type)) st =
  (inr true,
   {| conversationHistory :=
        [{| role := system; content := "You are WebProwler." |};
         {| role := user;
            content :=
              "## Action Taken" +:+ Js.nl +:+
              "Clicked [e7]" +:+ Js.nl +:+ Js.nl +:+
              "## Updated Page" +:+ Js.nl +:+
              "URL: https://example.test/" +:+ Js.nl +:+
              "Title: Example" +:+ Js.nl +:+
              "Interactive elements: 1" +:+ Js.nl +:+ Js.nl +:+
              "button [e7]" +:+ Js.nl +:+ Js.nl +:+
              "Continue with the original task. If the action succeeded, proceed to the next step. If it failed, try an alternative approach." |}];
      totalUsage := (0, 0);
      trace := [onStepStart click_go 0; ExecuteAction (click "e7");
                onStepComplete click_go succeeded;
                Sleep 500; GetSnapshot] |}).
Proof.
  intros env st. split; [repeat split; apply le_n|].
  exact (C3_forced_verification env click_then_type 0 click_go "e7"
           succeeded st eq_refl (le_n 2) eq_refl eq_refl eq_refl eq_refl).
Defined.

(** C4 (as stated, refuted). The click fails and the page cannot be read
    any more.  In the planner with retries the error turn is appended, and
    the next iteration ends the run with the cannot-read-page error: the
    only model call of the run is the one before the failure.  In the
    earlier planner the run is rejected by the snapshot that follows the
    failure, and nothing was appended after the reply of the model. *)
Lemma C4_counterexample :
  let task := "click the Go button" in
  (exists messages,
     trace (runPlanner unreadable_env task) =
     [GetSnapshot; Chat messages; onPlan click_then_type;
      onStepStart click_go 0; ExecuteAction (click "e7");
      onStepComplete click_go not_found; Sleep 500; GetSnapshot;
      GetSnapshot; Sleep 1000; GetSnapshot;
      onError (cannot_read_page disconnected)]) /\
  (exists messages,
     Earlier.settled unreadable_env task = inl disconnected /\
     trace (Earlier.runPlanner unreadable_env task) =
     [GetSnapshot; Chat messages; onPlan click_then_type;
      onStepStart click_go 0; ExecuteAction (click "e7");
      onStepComplete click_go not_found; GetSnapshot] /\
     conversationHistory (Earlier.runPlanner unreadable_env task)
     = messages ++ [{| role := assistant; content := "click, type" |}]).
Proof.
  split; eexists; vm_compute; repeat split; reflexivity.
Qed.

(** C4 on the plan "click, then type" when the click fails and the page
    stays readable: in both planners the batch stops at the click with the
    error turn, and the next iteration calls the model again. *)
Lemma C4_witness :
  let env := failing_env in
  let task := "click the Go button" in
  let sti := initial_state env in
  let st0 :=
    (emit (onPlan click_then_type)
       (getPlanFromLLM env
          (compose_message task 0 example_snapshot
             (acquire_state env sti).2).2).2).2 in
  let turn :=
    {| role := user;
       content :=
         "## Error" +:+ Js.nl +:+
         "Action failed: Element not found: e7" +:+ Js.nl +:+ Js.nl +:+
         "## Action Taken" +:+ Js.nl +:+
         "Clicked [e7]" +:+ Js.nl +:+ Js.nl +:+
         "## Updated Page" +:+ Js.nl +:+
         "URL: https://example.test/" +:+ Js.nl +:+
         "Title: Example" +:+ Js.nl +:+
         "Interactive elements: 1" +:+ Js.nl +:+ Js.nl +:+
         "button [e7]" +:+ Js.nl +:+ Js.nl +:+
         "Continue with the original task. If the action succeeded, proceed to the next step. If it failed, try an alternative approach." |} in
  let failed :=
    [onStepStart click_go 0; ExecuteAction (click "e7");
     onStepComplete click_go not_found] in
  let after (events : list Event) :=
    {| conversationHistory := conversationHistory st0 ++ [turn];
       totalUsage := (0, 0);
       trace := trace st0 ++ failed ++ events |} in
  (steps click_then_type !! 0%nat = Some click_go /\
   executeAction env (count_events is_ExecuteAction (trace st0))
     (action click_go) = inr not_found /\
   success not_found = false /\
   enters_batch env task 0 sti click_then_type st0 /\
   Earlier.enters_batch env task 0 sti click_then_type st0) /\
  (execute_steps env click_then_type 0 (steps click_then_type) st0
   = (inr true, after [Sleep 500; GetSnapshot]) /\
   exists t,
     trace (planner_loop env 15 0 task sti).2
     = trace (after [Sleep 500; GetSnapshot])
       ++ [GetSnapshot;
           Chat (conversationHistory (after [Sleep 500; GetSnapshot]))]
       ++ t) /\
  (Earlier.execute_steps env click_then_type 0 (steps click_then_type) st0
   = (inr true, after [GetSnapshot]) /\
   exists t,
     trace (Earlier.planner_loop env 15 0 task sti).2
     = trace (after [GetSnapshot])
       ++ [GetSnapshot; Chat (conversationHistory (after [GetSnapshot]))]
       ++ t).
Proof.
  intros env task sti st0 turn failed after.
  assert (Hlater : enters_batch env task 0 sti click_then_type st0).
  { eexists _, _, _, _. repeat split; reflexivity. }
  assert (Hearlier : Earlier.enters_batch env task 0 sti click_then_type st0).
  { eexists _, _, _. repeat split; reflexivity. }
  split; [repeat split; assumption|].
  destruct (C4_replan_on_failure env task 14 0 sti click_then_type 0
              click_go not_found st0 eq_refl eq_refl eq_refl) as [H1 H2].
  split.
  - destruct (H1 st0 Hlater eq_refl) as (Hexec & _ & Hrun & Hnext).
    split; [exact Hexec|].
    change (planner_loop env 15 0 task sti)
      with (planner_loop env (S 14) 0 task sti).
    rewrite Hrun. exact Hnext.
  - destruct (H2 st0 Hearlier eq_refl) as (Hexec & _ & Hrun & Hnext).
    split; [exact Hexec|].
    change (Earlier.planner_loop env 15 0 task sti)
      with (Earlier.planner_loop env (S 14) 0 task sti).
    rewrite Hrun. exact Hnext.
Defined.

(** C5 on a run whose first model call answers with the empty plan. *)
Lemma C5_witness :
  let env := done_env in
  let task := "click the Go button" in
  let st1 := (acquire_state env (initial_state env)).2 in
  let st2 :=
    (getPlanFromLLM env (compose_message task 0 example_snapshot st1).2).2 in
  let plan := {| steps := []; reasoning := "Done. Clicked Go." |} in
  (acquire_state env (initial_state env) = (inr example_snapshot, st1) /\
   getPlanFromLLM env (compose_message task 0 example_snapshot st1).2
   = (inr (plan, "done"), st2)) /\
  trace (runPlanner env task)
  = trace st2 ++ [onPlan plan; onComplete (reasoning plan)] /\
  count_events is_onComplete (trace (runPlanner env task)) = 1%nat.
Proof.
  intros env task st1 st2 plan.
  split; [split; reflexivity|].
  destruct (C5_completion_signal env task 0 (initial_state env) st1 st2
              example_snapshot plan "done" (reaches_start env task)
              (Nat.lt_0_succ 14) eq_refl eq_refl eq_refl)
    as (Htrace & _ & Hcount & _).
  split; assumption.
Defined.

(** C9 (as stated, refuted). The first iteration goes through; at the head
    of the second one, in the middle of the run, the page cannot be read
    twice and the run ends with the cannot-read-page error: no placeholder
    snapshot is used there. *)
Lemma C9_counterexample :
  let env := lost_page_env in
  let task := "wait a moment" in
  let st1 := (iteration_body env task 0 (initial_state env)).2 in
  let ending := [GetSnapshot; Sleep 1000; GetSnapshot;
                 onError (cannot_read_page disconnected)] in
  (iteration_body env task 0 (initial_state env)).1 = Continue /\
  iteration_body env task 1 st1
  = (Return, {| conversationHistory := conversationHistory st1;
                totalUsage := totalUsage st1;
                trace := trace st1 ++ ending |}) /\
  trace (runPlanner env task) = trace st1 ++ ending.
Proof. vm_compute. repeat split; reflexivity. Qed.

(** C9 at the head of the second iteration of that run. *)
Lemma C9_witness :
  let env := lost_page_env in
  let task := "wait a moment" in
  let st1 := (iteration_body env task 0 (initial_state env)).2 in
  let k := count_events is_GetSnapshot (trace st1) in
  getSnapshot env k = inl disconnected /\
  acquire_state env st1
  = (getSnapshot env (S k),
     {| conversationHistory := conversationHistory st1;
        totalUsage := totalUsage st1;
        trace := trace st1 ++ [GetSnapshot; Sleep 1000; GetSnapshot] |}).
Proof.
  intros env task st1 k. split; [reflexivity|].
  exact (proj1 (C9_snapshot_failures env task st1 disconnected eq_refl)).
Defined.

End PlannerFacts.

(** ** The model call and its retries *)

Module RetryFacts.
Import Planner PlannerFacts.
Open Scope planner_scope.

Section Retry.
Variable env : Env.

Lemma callLLMWithRetry_loop_run (n attempt : nat) (lastError : option string)
    (messages : list LLMMessage) (st : State) :
  (n + attempt = S MAX_API_RETRIES)%nat -> (0 < n)%nat ->
  let k0 := count_events is_Chat (trace st) in
  exists waits : list Q,
    (length waits < n)%nat /\
    callLLMWithRetry_loop env n attempt lastError messages st
    = (chat env (k0 + length waits) messages,
       {| conversationHistory := conversationHistory st;
          totalUsage := totalUsage st;
          trace := trace st
                   ++ concat (imap (fun i w =>
                                      retry_round messages (attempt + i) w)
                                   waits)
                   ++ [Chat messages] |}) /\
    (forall i w, waits !! i = Some w ->
       exists message kind,
         chat env (k0 + i) messages = inl message /\
         classifyError message = retryable kind /\
         w = backoffMs kind (attempt + i)) /\
    (forall message,
       chat env (k0 + length waits) messages = inl message ->
       classifyError message = fatal
       \/ (attempt + length waits = MAX_API_RETRIES)%nat).
Proof.
  cbv zeta. revert attempt lastError st.
  induction n as [|n IH]; intros attempt lastError st Hsum Hpos; [lia|].
  cbn [callLLMWithRetry_loop]. rewrite bind_run.
  unfold call_chat at 1 2. cbn [fst snd emit].
  set (k0 := count_events is_Chat (trace st)).
  destruct (chat env k0 messages) as [message|response] eqn:Hchat.
  - destruct (classifyError message) as [kind|] eqn:Hclass.
    + destruct (attempt =? MAX_API_RETRIES)%nat eqn:Hlast.
      * apply Nat.eqb_eq in Hlast.
        exists []. cbn [length imap concat app]. rewrite !Nat.add_0_r.
        split; [lia|]. split; [now rewrite Hchat|].
        split; [intros i w Hi; discriminate|]. intros; now right.
      * apply Nat.eqb_neq in Hlast.
        rewrite !bind_run. unfold sleep.
        cbn [emit fst snd trace conversationHistory totalUsage].
        match goal with |- context [callLLMWithRetry_loop env n _ _ _ ?s] =>
          destruct (IH (S attempt) (Some message) s)
            as (waits & Hlen & Hrun & Hw & Hend);
            [lia | unfold MAX_API_RETRIES in *; lia|]
        end.
        cbn [trace conversationHistory totalUsage] in Hrun, Hw, Hend.
        rewrite !count_events_snoc_other in Hrun, Hw, Hend by reflexivity.
        rewrite count_events_snoc_same in Hrun, Hw, Hend by reflexivity.
        fold k0 in Hrun, Hw, Hend.
        exists (backoffMs kind attempt :: waits).
        split; [simpl; lia|]. split.
        { rewrite Hrun. cbn [length]. f_equal.
          - f_equal. lia.
          - f_equal. rewrite <- !app_assoc. f_equal.
            cbn [imap concat retry_round app]. rewrite Nat.add_0_r.
            do 3 f_equal. f_equal. f_equal. apply imap_ext. intros i w _.
            simpl. f_equal. lia. }
        split.
        { intros [|i] w Hi.
          - injection Hi as <-. exists message, kind.
            rewrite !Nat.add_0_r. auto.
          - destruct (Hw i w Hi) as (m & kd & H1 & H2 & H3).
            exists m, kd. replace (k0 + S i)%nat with (S k0 + i)%nat by lia.
            replace (attempt + S i)%nat with (S attempt + i)%nat by lia. auto. }
        { intros m Hm. cbn [length] in *.
          replace (k0 + S (length waits))%nat
            with (S k0 + length waits)%nat in Hm by lia.
          destruct (Hend m Hm); [now left | right; lia]. }
    + exists []. cbn [length imap concat app]. rewrite !Nat.add_0_r.
      split; [lia|]. split; [now rewrite Hchat|].
      split; [intros i w Hi; discriminate|].
      intros m Hm. left. congruence.
  - exists []. cbn [length imap concat app]. rewrite !Nat.add_0_r.
    split; [lia|]. split; [now rewrite Hchat|].
    split; [intros i w Hi; discriminate|].
    intros m Hm. congruence.
Qed.


(** X1. A model call makes at most six requests, all with the same messages.
    Each request before the last failed with a retryable error and is
    followed by the rate-limit notice and by the wait that [backoffMs] gives
    for the kind of the error and the number of the attempt. The last
    request is the first that succeeds or fails with a fatal error, or else
    the sixth: a request that fails with a retryable error, the sixth apart,
    is always followed by another. The call returns what its last request
    returned or threw, and it leaves the conversation and the token totals
    as they are. *)
Theorem callLLMWithRetry_rounds (messages : list LLMMessage) (st : State) :
  let k0 := count_events is_Chat (trace st) in
  exists waits : list Q,
    (length waits <= MAX_API_RETRIES)%nat /\
    callLLMWithRetry env messages st
    = (chat env (k0 + length waits) messages,
       {| conversationHistory := conversationHistory st;
          totalUsage := totalUsage st;
          trace := trace st
                   ++ concat (imap (retry_round messages) waits)
                   ++ [Chat messages] |}) /\
    Forall2 (fun i w =>
               exists message kind,
                 chat env (k0 + i) messages = inl message /\
                 classifyError message = retryable kind /\
                 w = backoffMs kind i)
            (seq 0 (length waits)) waits /\
    match chat env (k0 + length waits) messages with
    | inr _ => True
    | inl message =>
        classifyError message = fatal
        \/ length waits = MAX_API_RETRIES
    end.
Proof.
  cbv zeta. unfold callLLMWithRetry.
  destruct (callLLMWithRetry_loop_run (S MAX_API_RETRIES) 0 None messages st)
    as (waits & Hlen & Hrun & Hw & Hend); [lia | lia |].
  exists waits. split; [lia|]. split; [exact Hrun|]. split.
  - apply Forall2_same_length_lookup_2; [now rewrite length_seq|].
    intros i x w Hx Hi. apply lookup_seq in Hx as [-> _]. now apply Hw.
  - destruct (chat env _ messages) as [message|response]; [|exact Logic.I].
    now apply Hend.
Qed.

(** X2. An error that [classifyError] finds fatal is thrown at once: one
    request, no notice and no wait. *)
Theorem callLLMWithRetry_fatal (messages : list LLMMessage) (st : State)
    (message : string) :
  chat env (count_events is_Chat (trace st)) messages = inl message ->
  classifyError message = fatal ->
  callLLMWithRetry env messages st
  = (inl message,
     {| conversationHistory := conversationHistory st;
        totalUsage := totalUsage st;
        trace := trace st ++ [Chat messages] |}).
Proof.
  intros Hchat Hfatal. unfold callLLMWithRetry.
  cbn [callLLMWithRetry_loop]. rewrite bind_run.
  unfold call_chat at 1 2. cbn [fst snd emit]. rewrite Hchat, Hfatal.
  reflexivity.
Qed.

End Retry.

(** The theorem on an API that refuses the key. *)
Lemma callLLMWithRetry_fatal_witness :
  let env := erroring_env "401 invalid x-api-key" in
  let st := initial_state env in
  (chat env (count_events is_Chat (trace st)) []
   = inl "401 invalid x-api-key" /\
   classifyError "401 invalid x-api-key" = fatal) /\
  callLLMWithRetry env [] st
  = (inl "401 invalid x-api-key",
     {| conversationHistory := conversationHistory st;
        totalUsage := totalUsage st;
        trace := trace st ++ [Chat []] |}).
Proof.
  intros env st. split; [split; reflexivity|].
  exact (callLLMWithRetry_fatal env [] st "401 invalid x-api-key"
           eq_refl eq_refl).
Defined.

Lemma total_sleep_app (a b : list Event) :
  (total_sleep (a ++ b) == total_sleep a + total_sleep b)%Q.
Proof.
  induction a as [|e a IH]; simpl.
  - now rewrite Qplus_0_l.
  - destruct e; try exact IH. rewrite IH. now rewrite Qplus_assoc.
Qed.

Lemma backoffMs_le_tpm (kind : RetryKind) (attempt : nat) :
  (attempt < MAX_API_RETRIES)%nat ->
  (backoffMs kind attempt <= backoffMs tpm attempt)%Q.
Proof.
  intros H. unfold MAX_API_RETRIES in H.
  do 5 (destruct attempt as [|attempt];
        [destruct kind; vm_compute; discriminate|]).
  lia.
Qed.

Lemma wait_within (w : Q) (attempt : nat) (c : Q) :
  (w <= backoffMs tpm attempt)%Q ->
  Qle_bool (backoffMs tpm attempt) c = true -> (w <= c)%Q.
Proof.
  intros Hw Hc. apply Qle_bool_iff in Hc. eapply Qle_trans; eassumption.
Qed.

(** X3. The timers of one model call add up to at most 186.875 s: the five
    waits of the token-per-minute schedule, the longest of the three. *)
Theorem callLLMWithRetry_total_wait (env : Env) (messages : list LLMMessage)
    (st : State) :
  exists t,
    trace (callLLMWithRetry env messages st).2 = trace st ++ t /\
    (total_sleep t <= 186875)%Q.
Proof.
  unfold callLLMWithRetry.
  destruct (callLLMWithRetry_loop_run env (S MAX_API_RETRIES) 0 None
              messages st) as (waits & Hlen & Hrun & Hw & _); [lia | lia |].
  rewrite Hrun. cbn [snd trace]. eexists. split; [reflexivity|].
  rewrite total_sleep_app. cbn [total_sleep fold_right].
  assert (Hb : forall i w, waits !! i = Some w ->
            (w <= backoffMs tpm i)%Q).
  { intros i w Hi. destruct (Hw i w Hi) as (m & kind & _ & _ & ->).
    apply backoffMs_le_tpm. apply lookup_lt_Some in Hi. lia. }
  clear Hw Hrun. unfold MAX_API_RETRIES in Hlen.
  destruct waits as [|w0 [|w1 [|w2 [|w3 [|w4 [|w5 waits]]]]]];
    [| | | | | |simpl in Hlen; lia];
    change (fun i w => retry_round messages (0 + i) w)
      with (retry_round messages);
    cbn [imap concat app]; unfold compose, retry_round;
    cbn [app total_sleep fold_right];
    try pose proof (wait_within _ _ 15000 (Hb 0%nat _ eq_refl) eq_refl);
    try pose proof (wait_within _ _ 22500 (Hb 1%nat _ eq_refl) eq_refl);
    try pose proof (wait_within _ _ 33750 (Hb 2%nat _ eq_refl) eq_refl);
    try pose proof (wait_within _ _ 50625 (Hb 3%nat _ eq_refl) eq_refl);
    try pose proof (wait_within _ _ 65000 (Hb 4%nat _ eq_refl) eq_refl);
    lra.
Qed.

End RetryFacts.

(** ** The contexts sent to the model *)

Module ContextFacts.
Import Planner TrimFacts PlannerFacts RetryFacts.
Open Scope planner_scope.

Lemma chats_rounds (messages : list LLMMessage) (attempt : nat)
    (waits : list Q) :
  chats (concat (imap (fun i w => retry_round messages (attempt + i) w) waits))
  = replicate (length waits) messages.
Proof.
  revert attempt. induction waits as [|w waits IH]; intros attempt.
  - reflexivity.
  - cbn [imap concat length replicate]. rewrite chats_app. cbn.
    f_equal. rewrite <- (IH (S attempt)). f_equal. f_equal.
    apply imap_ext. intros i x _. simpl. f_equal. lia.
Qed.

Lemma count_chats (t : list Event) :
  count_events is_Chat t = length (chats t).
Proof.
  unfold count_events, chats. induction t as [|e t IH]; [reflexivity|].
  destruct e; simpl; auto.
Qed.

(** *** What keeps a conversation headed *)

Lemma headed_by_app m0 h m :
  role m <> system -> headed_by m0 h -> headed_by m0 (h ++ [m]).
Proof.
  intros Hm (rest & -> & Hrest). exists (rest ++ [m]). split; [reflexivity|].
  apply Forall_app. split; [exact Hrest|]. now constructor.
Qed.

Lemma headed_by_prefix m0 p l :
  p <> [] -> headed_by m0 (p ++ l) -> headed_by m0 p.
Proof.
  intros Hp (rest & E & Hrest). destruct p as [|m p]; [congruence|].
  simpl in E. injection E as -> <-. exists p. split; [reflexivity|].
  now apply Forall_app in Hrest as [? _].
Qed.

Lemma pop_corrective_rev_split (r : list LLMMessage) :
  exists d, r = d ++ pop_corrective_rev r
            /\ (r <> [] -> pop_corrective_rev r <> []).
Proof.
  induction r as [|m r (d & E & Hne)].
  - exists []. split; [reflexivity|]. congruence.
  - cbn [pop_corrective_rev].
    destruct ((1 <? length (m :: r))%nat) eqn:E1; cbn [andb].
    + destruct (_ && _).
      * exists (m :: d). split; [simpl; now f_equal|].
        intros _. apply Hne. apply Nat.ltb_lt in E1. simpl in E1.
        destruct r; [simpl in E1; lia | congruence].
      * exists []. split; [reflexivity|]. congruence.
    + exists []. split; [reflexivity|]. congruence.
Qed.

Lemma pop_corrective_split (h : list LLMMessage) :
  exists l, h = pop_corrective h ++ l /\ (h <> [] -> pop_corrective h <> []).
Proof.
  unfold pop_corrective.
  destruct (pop_corrective_rev_split (rev h)) as (d & E & Hne).
  exists (rev d). split.
  - rewrite <- rev_app_distr, <- E. now rewrite rev_involutive.
  - intros Hh Hp. apply Hne.
    + intros Hr. apply Hh. rewrite <- (rev_involutive h), Hr. reflexivity.
    + rewrite <- (rev_involutive (pop_corrective_rev (rev h))), Hp.
      reflexivity.
Qed.

Lemma headed_by_pop m0 h : headed_by m0 h -> headed_by m0 (pop_corrective h).
Proof.
  intros Hh. destruct (pop_corrective_split h) as (l & E & Hne).
  apply headed_by_prefix with l.
  - apply Hne. destruct Hh as (rest & -> & _). congruence.
  - now rewrite <- E.
Qed.

Lemma length_pop_corrective h :
  (length (pop_corrective h) <= length h)%nat.
Proof.
  destruct (pop_corrective_split h) as (l & E & _).
  rewrite E at 2. rewrite length_app. lia.
Qed.

Lemma headed_by_trim m0 h maxMessages :
  headed_by m0 h -> headed_by m0 (trimConversation h maxMessages).
Proof.
  intros (rest & -> & Hrest). rewrite trimConversation_eq.
  set (k := Z.to_nat _).
  assert (Hk : (2 <= k)%nat) by (subst k; lia).
  destruct k as [|[|k]]; try lia.
  exists (take 1 rest ++ drop (S k) rest). split; [reflexivity|].
  apply Forall_app. split; [now apply Forall_take | now apply Forall_drop].
Qed.

Lemma length_trim h :
  (length (trimConversation h default_maxMessages) <= 14)%nat.
Proof.
  rewrite trimConversation_eq, length_app, length_take, length_drop.
  unfold default_maxMessages. lia.
Qed.


Section Contexts.
Variable env : Env.
Variable m0 : LLMMessage.

Lemma callLLMWithRetry_chats (messages : list LLMMessage) (st : State) :
  exists t k,
    (callLLMWithRetry env messages st).2
    = {| conversationHistory := conversationHistory st;
         totalUsage := totalUsage st;
         trace := trace st ++ t |} /\
    chats t = replicate k messages /\ (1 <= k <= 6)%nat.
Proof.
  unfold callLLMWithRetry.
  destruct (callLLMWithRetry_loop_run env (S MAX_API_RETRIES) 0 None
              messages st) as (waits & Hlen & Hrun & _); [lia | lia |].
  rewrite Hrun. eexists _, (S (length waits)). split; [reflexivity|].
  split; [|unfold MAX_API_RETRIES in Hlen; lia].
  rewrite chats_app, (chats_rounds messages 0 waits).
  change (chats [Chat messages]) with (replicate 1 messages).
  rewrite <- replicate_add. f_equal. lia.
Qed.

Lemma add_usage_run (response : LLMResponse) (st : State) :
  exists total t,
    add_usage response st
    = (tt, {| conversationHistory := conversationHistory st;
              totalUsage := total;
              trace := trace st ++ t |}) /\
    chats t = [].
Proof.
  unfold add_usage. destruct (usage response) as [[i o]|].
  - eexists _, [_]. split; reflexivity.
  - exists (totalUsage st), []. rewrite app_nil_r. destruct st.
    split; reflexivity.
Qed.

Lemma getPlanFromLLM_loop_contexts (n j : nat) (e : option string)
    (st : State) (B : nat) :
  (n + j = 3)%nat -> (0 < n)%nat ->
  headed_by m0 (conversationHistory st) ->
  (length (conversationHistory st) + (if (0 <? j)%nat then 1 else 0)
   + 2 * (n - 1) <= B)%nat ->
  exists t,
    trace (getPlanFromLLM_loop env n j e st).2 = trace st ++ t /\
    Forall (fun ms => (length ms <= B)%nat /\ headed_by m0 ms) (chats t) /\
    (length (chats t) <= 6 * n)%nat /\
    headed_by m0 (conversationHistory (getPlanFromLLM_loop env n j e st).2) /\
    (length (conversationHistory (getPlanFromLLM_loop env n j e st).2)
     <= B + 1)%nat.
Proof.
  revert j e st. induction n as [|n IH]; intros j e st Hsum Hpos Hh Hlen;
    [lia|].
  cbn [getPlanFromLLM_loop]. rewrite bind_run.
  set (c0 := match e with
             | Some e0 => if Js.truthy e0 && (0 <? j)%nat
                          then push {| role := user;
                                       content := corrective_prompt e0 |}
                          else ret tt
             | None => ret tt
             end).
  assert (H1 : exists h1,
             c0 st = (tt, {| conversationHistory := h1;
                             totalUsage := totalUsage st;
                             trace := trace st |}) /\
             headed_by m0 h1 /\
             (length h1 <= length (conversationHistory st)
                           + (if (0 <? j)%nat then 1 else 0))%nat).
  { subst c0. destruct e as [e0|].
    - destruct (Js.truthy e0); cbn [andb].
      + destruct (0 <? j)%nat.
        * eexists. split; [reflexivity|]. split.
          -- now apply headed_by_app.
          -- rewrite length_app. simpl. lia.
        * exists (conversationHistory st). destruct st.
          split; [reflexivity|]. split; [exact Hh | simpl; lia].
      + exists (conversationHistory st). destruct st.
        split; [reflexivity|]. split; [exact Hh | simpl; lia].
    - exists (conversationHistory st). destruct st.
      split; [reflexivity|]. split; [exact Hh | simpl; lia]. }
  destruct H1 as (h1 & -> & Hh1 & Hlen1). cbn [fst snd].
  rewrite bind_run. cbn [get_history fst snd conversationHistory].
  rewrite bind_run.
  match goal with |- context [callLLMWithRetry env h1 ?s] =>
    destruct (callLLMWithRetry_chats h1 s) as (t1 & k & E1 & Hc1 & Hk);
    destruct (callLLMWithRetry env h1 s) as [r st2]
  end.
  cbn [fst snd conversationHistory totalUsage trace] in *. subst st2.
  assert (Hall1 : Forall (fun ms => (length ms <= B)%nat /\ headed_by m0 ms)
                         (chats t1)).
  { rewrite Hc1. apply Forall_replicate. split; [lia | exact Hh1]. }
  destruct r as [thrown|response].
  - exists t1. cbn [ret fst snd trace conversationHistory].
    split; [reflexivity|]. split; [exact Hall1|].
    split; [rewrite Hc1, length_replicate; lia|].
    split; [exact Hh1 | lia].
  - rewrite bind_run.
    match goal with |- context [add_usage response ?s] =>
      destruct (add_usage_run response s) as (total & tu & -> & Hcu)
    end.
    cbn [fst snd conversationHistory totalUsage trace].
    destruct (parsePlan env (response_content response))
      as [parseError|plan].
    + rewrite bind_run. cbn [push fst snd conversationHistory totalUsage trace].
      destruct (j =? MAX_JSON_RETRIES)%nat eqn:Ej.
      * exists (t1 ++ tu). cbn [ret fst snd trace conversationHistory].
        split; [now rewrite app_assoc|].
        rewrite chats_app, Hcu, app_nil_r.
        split; [exact Hall1|].
        split; [rewrite Hc1, length_replicate; lia|].
        split; [now apply headed_by_app|]. rewrite length_app. simpl. lia.
      * apply Nat.eqb_neq in Ej. unfold MAX_JSON_RETRIES in Ej.
        match goal with |- context [getPlanFromLLM_loop env n _ _ ?s] =>
          destruct (IH (S j) (Some parseError) s)
            as (t2 & E2 & Hall2 & Hn2 & Hh2 & Hl2);
            [lia | lia | now apply headed_by_app
            | cbn [conversationHistory]; rewrite length_app; simpl;
              destruct (0 <? j)%nat; lia |]
        end.
        cbn [trace] in E2.
        exists (t1 ++ tu ++ t2).
        split; [rewrite E2, <- !app_assoc; reflexivity|].
        rewrite !chats_app, Hcu. cbn [app].
        split; [apply Forall_app; split; assumption|].
        split; [rewrite length_app, Hc1, length_replicate; lia|].
        split; assumption.
    + rewrite bind_run.
      assert (H2 : exists h2,
                 (if (0 <? j)%nat
                  then h <- get_history ;; set_history (pop_corrective h)
                  else ret tt)
                   {| conversationHistory := h1; totalUsage := total;
                      trace := (trace st ++ t1) ++ tu |}
                 = (tt, {| conversationHistory := h2; totalUsage := total;
                           trace := (trace st ++ t1) ++ tu |}) /\
                 headed_by m0 h2 /\ (length h2 <= length h1)%nat).
      { destruct (0 <? j)%nat.
        - exists (pop_corrective h1). split; [reflexivity|].
          split; [now apply headed_by_pop | apply length_pop_corrective].
        - exists h1. split; [reflexivity|]. split; [exact Hh1 | lia]. }
      destruct H2 as (h2 & -> & Hh2 & Hl2).
      cbn [fst snd]. rewrite bind_run.
      cbn [push ret fst snd conversationHistory totalUsage trace].
      exists (t1 ++ tu). split; [now rewrite app_assoc|].
      rewrite chats_app, Hcu, app_nil_r.
      split; [exact Hall1|].
      split; [rewrite Hc1, length_replicate; lia|].
      split; [now apply headed_by_app|]. rewrite length_app. simpl. lia.
Qed.

End Contexts.

End ContextFacts.

(** ** Bounds on a run *)

Module RunFacts.
Import Planner TrimFacts PlannerFacts RetryFacts ContextFacts.
Open Scope planner_scope.

Lemma chats_silent (t : list Event) :
  forallb (fun e => negb (is_Chat e)) t = true -> chats t = [].
Proof.
  induction t as [|e t IH]; [reflexivity|]. simpl.
  intros H. apply andb_prop in H as [He Ht].
  destruct e; try discriminate; now apply IH.
Qed.

Section ChatFree.
Variable env : Env.

Ltac chat_free :=
  repeat first
    [ apply emits_ret
    | apply emits_push | apply emits_get_history | apply emits_set_history
    | apply emits_date_now
    | apply emits_getSnapshot; reflexivity
    | apply emits_executeAction; reflexivity
    | apply emits_emit; reflexivity
    | apply emits_bind; [|intros ?]
    | match goal with
      | |- emits_only _ (match ?x with _ => _ end) => destruct x
      | |- emits_only _ (if ?x then _ else _) => destruct x
      end ].

Lemma chat_free_snapshots :
  emits_only (fun e => negb (is_Chat e)) (errorSnapshot env) /\
  emits_only (fun e => negb (is_Chat e)) (verifySnapshot env).
Proof.
  split; [unfold errorSnapshot | unfold verifySnapshot];
    unfold sleep, placeholder; chat_free.
Qed.

Lemma chat_free_execute_steps plan i rest :
  emits_only (fun e => negb (is_Chat e)) (execute_steps env plan i rest).
Proof.
  revert i. induction rest as [|step rest IH]; intros i; cbn [execute_steps].
  - chat_free.
  - chat_free; try apply chat_free_snapshots; apply IH.
Qed.

Lemma chat_free_run_batch plan :
  emits_only (fun e => negb (is_Chat e)) (run_batch env plan).
Proof.
  unfold run_batch, finalSnapshot.
  chat_free; try apply chat_free_execute_steps; apply chat_free_snapshots.
Qed.

Lemma chat_free_acquire_state :
  emits_only (fun e => negb (is_Chat e)) (acquire_state env).
Proof. unfold acquire_state, sleep. chat_free. Qed.

End ChatFree.

Section Contexts.
Variable env : Env.
Variable task : string.
Variable m0 : LLMMessage.

Ltac same :=
  repeat first
    [ apply preserves_ret
    | apply preserves_same; reflexivity
    | apply preserves_bind; [|intros ?]
    | match goal with
      | |- preserves _ (match ?x with _ => _ end) => destruct x
      | |- preserves _ (if ?x then _ else _) => destruct x
      end ].

Lemma execute_steps_headed plan i rest :
  preserves (headed_by m0) (execute_steps env plan i rest).
Proof.
  revert i. induction rest as [|step rest IH]; intros i; cbn [execute_steps].
  - same.
  - same; try apply snapshots_history; try apply IH;
      apply preserves_push; intros h; now apply headed_by_app.
Qed.

Lemma run_batch_headed plan : preserves (headed_by m0) (run_batch env plan).
Proof.
  unfold run_batch, finalSnapshot.
  apply preserves_bind; [apply execute_steps_headed|].
  intros [thrown|needsReplan]; [same|].
  apply preserves_bind.
  - same; try apply snapshots_history.
    apply preserves_push; intros h; now apply headed_by_app.
  - intros _. intros st H. rewrite !bind_run. cbn. now apply headed_by_trim.
Qed.

Lemma run_batch_length plan st :
  (run_batch env plan st).1 = inr tt ->
  (length (conversationHistory (run_batch env plan st).2) <= 14)%nat.
Proof.
  unfold run_batch. rewrite bind_run.
  destruct (execute_steps env plan 0 (steps plan) st)
    as [[thrown|needsReplan] st1]; cbn [fst snd]; [discriminate|].
  intros _. rewrite !bind_run.
  cbn [set_history get_history ret snd fst conversationHistory].
  apply length_trim.
Qed.

(** One pass of the loop body, from a conversation headed by [m0] that has
    room for the task: the contexts it sends, and the conversation it
    leaves when the loop goes on. *)
Lemma iteration_body_contexts (iteration : nat) (st : State) :
  headed_by m0 (conversationHistory st) ->
  (length (conversationHistory st)
   + (if (iteration =? 0)%nat then 1 else 0) <= 14)%nat ->
  exists t,
    trace (iteration_body env task iteration st).2 = trace st ++ t /\
    Forall (fun ms => (length ms <= 18)%nat /\ headed_by m0 ms) (chats t) /\
    (length (chats t) <= 18)%nat /\
    ((iteration_body env task iteration st).1 = Continue ->
     headed_by m0
       (conversationHistory (iteration_body env task iteration st).2) /\
     (length (conversationHistory (iteration_body env task iteration st).2)
      <= 14)%nat).
Proof.
  intros Hh Hlen. unfold iteration_body. rewrite bind_run.
  destruct (chat_free_acquire_state env st) as (t1 & E1 & Q1).
  pose proof (acquire_state_history env st) as Hh1.
  destruct (acquire_state env st) as [[retryError|snapshot] st1];
    cbn [fst snd] in *.
  - rewrite bind_run. cbn [emit ret fst snd trace].
    exists (t1 ++ [onError (cannot_read_page retryError)]).
    split; [now rewrite E1, app_assoc|].
    rewrite chats_app, (chats_silent t1 Q1). cbn.
    split; [constructor|]. split; [lia | discriminate].
  - rewrite bind_run.
    assert (H2 : exists h2,
               compose_message task iteration snapshot st1
               = (tt, {| conversationHistory := h2;
                         totalUsage := totalUsage st1;
                         trace := trace st1 |}) /\
               headed_by m0 h2 /\ (length h2 <= 14)%nat).
    { unfold compose_message. destruct (iteration =? 0)%nat.
      - eexists. split; [reflexivity|]. rewrite Hh1. split.
        + now apply headed_by_app.
        + rewrite length_app. simpl. lia.
      - exists (conversationHistory st1). destruct st1.
        split; [reflexivity|]. cbn in *. rewrite Hh1.
        split; [exact Hh | lia]. }
    destruct H2 as (h2 & -> & Hh2 & Hl2). cbn [fst snd].
    rewrite bind_run. unfold getPlanFromLLM.
    match goal with |- context [getPlanFromLLM_loop env _ _ _ ?s] =>
      destruct (getPlanFromLLM_loop_contexts env m0 (S MAX_JSON_RETRIES) 0
                  None s 18)
        as (t3 & E3 & Hall3 & Hn3 & Hh3 & Hl3);
        [reflexivity | unfold MAX_JSON_RETRIES; lia | exact Hh2
        | cbn; lia |];
      destruct (getPlanFromLLM_loop env (S MAX_JSON_RETRIES) 0 None s)
        as [[message|[plan raw]] st3]
    end; cbn [fst snd trace conversationHistory] in *.
    + rewrite bind_run. cbn [emit ret fst snd trace].
      exists (t1 ++ t3 ++ [onError ("Failed to get plan: " +:+ message)]).
      split; [rewrite E3, E1, <- !app_assoc; reflexivity|].
      rewrite !chats_app, (chats_silent t1 Q1). cbn [app].
      change (chats [onError _]) with (@nil (list LLMMessage)).
      rewrite app_nil_r. split; [exact Hall3|].
      split; [unfold MAX_JSON_RETRIES in Hn3; lia | discriminate].
    + rewrite bind_run. cbn [emit fst snd].
      destruct (length (steps plan) =? 0)%nat.
      * rewrite bind_run. cbn [emit ret fst snd trace].
        exists (t1 ++ t3 ++ [onPlan plan; onComplete (reasoning plan)]).
        split; [rewrite E3, E1, <- !app_assoc; reflexivity|].
        rewrite !chats_app, (chats_silent t1 Q1). cbn [app].
        change (chats [onPlan _; onComplete _])
          with (@nil (list LLMMessage)).
        rewrite app_nil_r. split; [exact Hall3|].
        split; [unfold MAX_JSON_RETRIES in Hn3; lia | discriminate].
      * rewrite bind_run.
        match goal with |- context [run_batch env plan ?s] =>
          destruct (chat_free_run_batch env plan s) as (t4 & E4 & Q4);
          pose proof (run_batch_headed plan s) as Hh4;
          pose proof (run_batch_length plan s) as Hl4;
          destruct (run_batch env plan s) as [[thrown|[]] st4]
        end.
        -- cbn [fst snd ret trace conversationHistory] in *.
           exists (t1 ++ t3 ++ [onPlan plan] ++ t4).
           split; [rewrite E4, E3, E1, <- !app_assoc; reflexivity|].
           rewrite !chats_app, (chats_silent t1 Q1), (chats_silent t4 Q4).
           cbn [app].
           change (chats [onPlan _]) with (@nil (list LLMMessage)).
           rewrite !app_nil_r. split; [exact Hall3|].
           split; [unfold MAX_JSON_RETRIES in Hn3; lia | discriminate].
        -- cbn [fst snd ret trace conversationHistory] in *.
           exists (t1 ++ t3 ++ [onPlan plan] ++ t4).
           split; [rewrite E4, E3, E1, <- !app_assoc; reflexivity|].
           rewrite !chats_app, (chats_silent t1 Q1), (chats_silent t4 Q4).
           cbn [app].
           change (chats [onPlan _]) with (@nil (list LLMMessage)).
           rewrite !app_nil_r. split; [exact Hall3|].
           split; [unfold MAX_JSON_RETRIES in Hn3; lia|].
           intros _. split; [apply Hh4; exact Hh3 | now apply Hl4].
Qed.

Lemma planner_loop_contexts (n iteration : nat) (st : State) :
  headed_by m0 (conversationHistory st) ->
  (length (conversationHistory st)
   + (if (iteration =? 0)%nat then 1 else 0) <= 14)%nat ->
  exists t,
    trace (planner_loop env n iteration task st).2 = trace st ++ t /\
    Forall (fun ms => (length ms <= 18)%nat /\ headed_by m0 ms) (chats t) /\
    (length (chats t) <= 18 * n)%nat.
Proof.
  revert iteration st. induction n as [|n IH]; intros iteration st Hh Hlen.
  - cbn [planner_loop]. rewrite bind_run. cbn [emit ret fst snd trace].
    eexists. split; [reflexivity|].
    cbn. split; [constructor | lia].
  - cbn [planner_loop]. rewrite bind_run.
    destruct (iteration_body_contexts iteration st Hh Hlen)
      as (t & E & Hall & Hn & Hnext).
    destruct (iteration_body env task iteration st) as [[| |thrown] st1];
      cbn [fst snd ret] in *;
      [exists t; split; [exact E|]; split; [exact Hall | lia] | |
       exists t; split; [exact E|]; split; [exact Hall | lia]].
    destruct (Hnext eq_refl) as [Hh1 Hl1].
    destruct (IH (S iteration) st1 Hh1) as (t2 & E2 & Hall2 & Hn2);
      [cbn; lia|].
    exists (t ++ t2). split; [rewrite E2, E, <- app_assoc; reflexivity|].
    rewrite chats_app. split; [apply Forall_app; split; assumption|].
    rewrite length_app. lia.
Qed.

End Contexts.

Lemma run_contexts (env : Env) (task : string) :
  Forall (fun ms => (length ms <= 18)%nat
                    /\ headed_by (system_message env) ms)
         (chats (trace (runPlanner env task))) /\
  (length (chats (trace (runPlanner env task))) <= 270)%nat.
Proof.
  unfold runPlanner.
  destruct (planner_loop_contexts env task (system_message env)
              MAX_ITERATIONS 0 (initial_state env))
    as (t & E & Hall & Hn).
  - exists []. split; [reflexivity | constructor].
  - cbn. lia.
  - rewrite E. cbn [initial_state trace app].
    split; [exact Hall | unfold MAX_ITERATIONS in Hn; lia].
Qed.

(** X4. Every request to the model starts with the system prompt, holds no
    other system message, and carries at most eighteen messages: the
    fourteen that trimming leaves, and the two rejected replies and the two
    corrective prompts of the JSON retries. *)
Theorem run_context_shape (env : Env) (task : string) :
  Forall (fun ms => (length ms <= 18)%nat
                    /\ headed_by (system_message env) ms)
         (chats (trace (runPlanner env task))).
Proof. exact (proj1 (run_contexts env task)). Qed.

(** X5. A run sends at most 270 requests to the model: fifteen iterations,
    three parse attempts in each, six requests in each attempt. *)
Theorem run_request_bound (env : Env) (task : string) :
  (count_events is_Chat (trace (runPlanner env task))
   <= MAX_ITERATIONS * (S MAX_JSON_RETRIES * S MAX_API_RETRIES))%nat.
Proof.
  rewrite count_chats. exact (proj2 (run_contexts env task)).
Qed.

End RunFacts.

(** ** Actions and plans *)

Module OrderFacts.
Import Planner PlannerFacts.
Open Scope planner_scope.

Lemma in_plan_order_skip (t rest : list Event) (pending : list Action) :
  forallb beside_plans t = true ->
  in_plan_order pending rest -> in_plan_order pending (t ++ rest).
Proof.
  induction t as [|e t IH]; intros Hq H; [exact H|].
  cbn [forallb] in Hq. apply andb_prop in Hq as [He Ht].
  destruct e; try discriminate; cbn [app in_plan_order]; now apply IH.
Qed.

Lemma self_planned_beside (t : list Event) :
  forallb beside_plans t = true -> self_planned t.
Proof. intros Hq pending rest Hrest. now apply in_plan_order_skip. Qed.

Lemma self_planned_app (t1 t2 : list Event) :
  self_planned t1 -> self_planned t2 -> self_planned (t1 ++ t2).
Proof.
  intros H1 H2 pending rest Hrest. rewrite <- app_assoc.
  apply H1. intros p. now apply H2.
Qed.

Section Order.
Variable env : Env.

Ltac beside :=
  repeat first
    [ apply emits_ret
    | apply emits_push | apply emits_get_history | apply emits_set_history
    | apply emits_date_now
    | apply emits_getSnapshot; reflexivity
    | apply emits_chat; reflexivity
    | apply emits_emit; reflexivity
    | apply emits_bind; [|intros ?]
    | match goal with
      | |- emits_only _ (match ?x with _ => _ end) => destruct x
      | |- emits_only _ (if ?x then _ else _) => destruct x
      end ].

Lemma beside_callLLMWithRetry_loop n attempt lastError messages :
  emits_only beside_plans
    (callLLMWithRetry_loop env n attempt lastError messages).
Proof.
  revert attempt lastError.
  induction n as [|n IH]; intros attempt lastError;
    cbn [callLLMWithRetry_loop].
  - beside.
  - unfold sleep. beside. apply IH.
Qed.

Lemma beside_add_usage response :
  emits_only beside_plans (add_usage response).
Proof.
  unfold add_usage. destruct (usage response) as [[i o]|]; [|beside].
  intros st. eexists [_]. split; reflexivity.
Qed.

Lemma beside_getPlanFromLLM_loop n jsonAttempt lastParseError :
  emits_only beside_plans
    (getPlanFromLLM_loop env n jsonAttempt lastParseError).
Proof.
  revert jsonAttempt lastParseError.
  induction n as [|n IH]; intros jsonAttempt lastParseError;
    cbn [getPlanFromLLM_loop].
  - beside.
  - beside; try apply beside_callLLMWithRetry_loop;
      try apply beside_add_usage; apply IH.
Qed.

Lemma beside_snapshots :
  emits_only beside_plans (errorSnapshot env) /\
  emits_only beside_plans (verifySnapshot env).
Proof.
  split; [unfold errorSnapshot | unfold verifySnapshot];
    unfold sleep, placeholder; beside.
Qed.

Lemma beside_acquire_state : emits_only beside_plans (acquire_state env).
Proof. unfold acquire_state, sleep. beside. Qed.

Lemma beside_compose_message task iteration snapshot :
  emits_only beside_plans (compose_message task iteration snapshot).
Proof. unfold compose_message. beside. Qed.

(** The batch loop from step [i] on executes the steps that are left, in
    their order, until it stops. *)
Lemma execute_steps_order (plan : Plan) (i : nat) (rest : list PlannedStep)
    (st : State) :
  exists t,
    trace (execute_steps env plan i rest st).2 = trace st ++ t /\
    forall after,
      (forall p, in_plan_order p after) ->
      in_plan_order (map action rest) (t ++ after).
Proof.
  revert i st. induction rest as [|step rest IH]; intros i st.
  - exists []. cbn. rewrite app_nil_r. split; [reflexivity|]. auto.
  - rewrite execute_steps_head. cbv zeta.
    destruct (executeAction env _ _) as [thrown|result].
    { exists [onStepStart step i; ExecuteAction (action step)].
      split; [reflexivity|].
      intros after Hafter. cbn [app map in_plan_order]. auto. }
    set (st1 := {| conversationHistory := _; totalUsage := _; trace := _ |}).
    assert (Hstop : forall (c : M (string + bool)),
              emits_only beside_plans c ->
              exists t,
                trace (c st1).2 = trace st ++ t /\
                forall after,
                  (forall p, in_plan_order p after) ->
                  in_plan_order (map action (step :: rest)) (t ++ after)).
    { intros c Hc. destruct (Hc st1) as (t & E & Q).
      exists ([onStepStart step i; ExecuteAction (action step);
               onStepComplete step result] ++ t).
      split; [rewrite E; subst st1; cbn [trace]; now rewrite <- app_assoc|].
      intros after Hafter. cbn [app map in_plan_order].
      split; [reflexivity|]. now apply in_plan_order_skip. }
    destruct (negb (success result)).
    + apply Hstop. apply emits_bind; [apply beside_snapshots|]. intros s.
      apply emits_bind; [apply emits_push | intros; apply emits_ret].
    + destruct (_ && _).
      * apply Hstop. apply emits_bind; [apply beside_snapshots|]. intros s.
        apply emits_bind; [apply emits_push | intros; apply emits_ret].
      * destruct (IH (S i) st1) as (t & E & Ht).
        exists ([onStepStart step i; ExecuteAction (action step);
                 onStepComplete step result] ++ t).
        split; [rewrite E; subst st1; cbn [trace]; now rewrite <- app_assoc|].
        intros after Hafter. cbn [app map in_plan_order].
        split; [reflexivity|]. now apply Ht.
Qed.

Lemma run_batch_order (plan : Plan) (st : State) :
  exists t,
    trace (run_batch env plan st).2 = trace st ++ t /\
    forall after,
      (forall p, in_plan_order p after) ->
      in_plan_order (map action (steps plan)) (t ++ after).
Proof.
  unfold run_batch. rewrite bind_run.
  destruct (execute_steps_order plan 0 (steps plan) st) as (t1 & E1 & H1).
  destruct (execute_steps env plan 0 (steps plan) st)
    as [[thrown|needsReplan] st1]; cbn [fst snd] in *.
  { exists t1. split; [exact E1 | exact H1]. }
  match goal with |- context [bind ?c ?k st1] =>
    assert (Hq : emits_only beside_plans (bind c k))
  end.
  { unfold finalSnapshot. beside; apply beside_snapshots. }
  destruct (Hq st1) as (t2 & E2 & Q2).
  exists (t1 ++ t2). split; [rewrite E2, E1; now rewrite app_assoc|].
  intros after Hafter. rewrite <- app_assoc. apply H1.
  intros p. now apply in_plan_order_skip.
Qed.

Lemma iteration_body_order (task : string) (iteration : nat) (st : State) :
  exists t,
    trace (iteration_body env task iteration st).2 = trace st ++ t /\
    self_planned t.
Proof.
  unfold iteration_body. rewrite bind_run.
  destruct (beside_acquire_state st) as (t1 & E1 & Q1).
  destruct (acquire_state env st) as [[retryError|snapshot] st1];
    cbn [fst snd] in *.
  - rewrite bind_run. cbn [emit ret fst snd trace].
    exists (t1 ++ [onError (cannot_read_page retryError)]).
    split; [now rewrite E1, app_assoc|].
    apply self_planned_beside. now rewrite forallb_app, Q1.
  - rewrite bind_run.
    destruct (beside_compose_message task iteration snapshot st1)
      as (t2 & E2 & Q2).
    destruct (compose_message task iteration snapshot st1) as [[] st2];
      cbn [fst snd] in *.
    rewrite bind_run.
    destruct (beside_getPlanFromLLM_loop (S MAX_JSON_RETRIES) 0 None st2)
      as (t3 & E3 & Q3).
    fold (getPlanFromLLM env) in E3.
    destruct (getPlanFromLLM env st2) as [[message|[plan raw]] st3];
      cbn [fst snd] in *.
    + rewrite bind_run. cbn [emit ret fst snd trace].
      exists (t1 ++ t2 ++ t3 ++ [onError ("Failed to get plan: " +:+ message)]).
      split; [rewrite E3, E2, E1, <- !app_assoc; reflexivity|].
      apply self_planned_beside. now rewrite !forallb_app, Q1, Q2, Q3.
    + rewrite bind_run. cbn [emit fst snd].
      assert (Hhead : forallb beside_plans (t1 ++ t2 ++ t3) = true)
        by now rewrite !forallb_app, Q1, Q2, Q3.
      destruct (length (steps plan) =? 0)%nat.
      * rewrite bind_run. cbn [emit ret fst snd trace].
        exists ((t1 ++ t2 ++ t3)
                ++ [onPlan plan; onComplete (reasoning plan)]).
        split; [rewrite E3, E2, E1, <- !app_assoc; reflexivity|].
        apply self_planned_app; [now apply self_planned_beside|].
        intros pending rest Hrest. cbn [app in_plan_order]. apply Hrest.
      * rewrite bind_run.
        match goal with |- context [run_batch env plan ?s] =>
          destruct (run_batch_order plan s) as (t4 & E4 & H4);
          destruct (run_batch env plan s) as [[thrown|[]] st4]
        end;
        cbn [fst snd ret trace] in *;
        (exists ((t1 ++ t2 ++ t3) ++ onPlan plan :: t4);
         split; [rewrite E4, E3, E2, E1, <- !app_assoc; reflexivity|];
         apply self_planned_app; [now apply self_planned_beside|];
         intros pending rest Hrest; cbn [app in_plan_order]; now apply H4).
Qed.

Lemma planner_loop_order (task : string) (n iteration : nat) (st : State) :
  exists t,
    trace (planner_loop env n iteration task st).2 = trace st ++ t /\
    self_planned t.
Proof.
  revert iteration st. induction n as [|n IH]; intros iteration st.
  - cbn [planner_loop]. rewrite bind_run. cbn [emit ret fst snd trace].
    eexists. split; [reflexivity|].
    now apply self_planned_beside.
  - cbn [planner_loop]. rewrite bind_run.
    destruct (iteration_body_order task iteration st) as (t & E & Ht).
    destruct (iteration_body env task iteration st) as [[| |thrown] st1];
      cbn [fst snd ret] in *.
    + exists t. split; [exact E | exact Ht].
    + destruct (IH (S iteration) st1) as (t2 & E2 & Ht2).
      exists (t ++ t2). split; [rewrite E2, E, <- app_assoc; reflexivity|].
      now apply self_planned_app.
    + exists t. split; [exact E | exact Ht].
Qed.

(** X6. A run executes planned actions only: after each plan that it
    announces it executes actions of that plan, from the first on and in
    order, and no action at all before the first plan. *)
Theorem run_actions_planned (task : string) :
  in_plan_order [] (trace (runPlanner env task)).
Proof.
  unfold runPlanner.
  destruct (planner_loop_order task MAX_ITERATIONS 0 (initial_state env))
    as (t & E & Ht).
  rewrite E. cbn [initial_state trace app].
  rewrite <- (app_nil_r t). apply Ht. intros p. exact I.
Qed.

End Order.
End OrderFacts.

(** ** Getting a plan *)

Module PlanFacts.
Import Planner TrimFacts PlannerFacts RetryFacts ContextFacts.
Open Scope planner_scope.

Lemma corrective_prompt_marked (e : string) :
  Js.includes "not valid JSON" (corrective_prompt e) = true.
Proof. reflexivity. Qed.

(** The pop loop removes a corrective prompt that follows an assistant
    message, and nothing else. *)
Lemma pop_corrective_prompt (l : list LLMMessage) (a : LLMMessage)
    (e : string) :
  role a = assistant ->
  pop_corrective (l ++ [a; {| role := user; content := corrective_prompt e |}])
  = l ++ [a].
Proof.
  intros Ha. unfold pop_corrective. rewrite rev_app_distr.
  cbn [rev app pop_corrective_rev length Nat.ltb Nat.leb role content andb].
  rewrite corrective_prompt_marked, Ha, andb_false_r. cbn [andb].
  cbn [rev]. now rewrite rev_involutive.
Qed.

Lemma pop_corrective_assistant (l : list LLMMessage) (a : LLMMessage) :
  role a = assistant -> pop_corrective (l ++ [a]) = l ++ [a].
Proof.
  intros Ha. unfold pop_corrective. rewrite rev_app_distr.
  cbn [rev app pop_corrective_rev]. rewrite Ha, andb_false_r. cbn [andb].
  cbn [rev]. now rewrite rev_involutive.
Qed.

Section Plans.
Variable env : Env.

Lemma callLLMWithRetry_answer (messages : list LLMMessage) (st : State)
    (response : LLMResponse) :
  chat env (count_events is_Chat (trace st)) messages = inr response ->
  callLLMWithRetry env messages st
  = (inr response,
     {| conversationHistory := conversationHistory st;
        totalUsage := totalUsage st;
        trace := trace st ++ [Chat messages] |}).
Proof.
  intros Hchat. unfold callLLMWithRetry.
  cbn [callLLMWithRetry_loop]. rewrite bind_run.
  unfold call_chat at 1 2. cbn [fst snd emit]. now rewrite Hchat.
Qed.

Lemma callLLMWithRetry_thrown (messages : list LLMMessage) (st : State)
    (message : string) :
  (callLLMWithRetry env messages st).1 = inl message ->
  exists k, chat env k messages = inl message.
Proof.
  unfold callLLMWithRetry.
  destruct (callLLMWithRetry_loop_run env (S MAX_API_RETRIES) 0 None
              messages st) as (waits & _ & Hrun & _); [lia | lia |].
  rewrite Hrun. cbn [fst]. eauto.
Qed.

Lemma getPlanFromLLM_loop_outcome (n j : nat) (e : option string)
    (st : State) :
  (n + j = 3)%nat -> (0 < n)%nat ->
  match (getPlanFromLLM_loop env n j e st).1 with
  | inr (plan, raw) =>
      parsePlan env raw = inr plan /\
      last (conversationHistory (getPlanFromLLM_loop env n j e st).2)
      = Some {| role := assistant; content := raw |}
  | inl message =>
      (exists k messages, chat env k messages = inl message) \/
      (exists raw parseError,
         parsePlan env raw = inl parseError /\
         message = "LLM returned invalid JSON after 3 attempts. Last error: "
                   +:+ parseError /\
         last (conversationHistory (getPlanFromLLM_loop env n j e st).2)
         = Some {| role := assistant; content := raw |})
  end.
Proof.
  revert j e st. induction n as [|n IH]; intros j e st Hsum Hpos; [lia|].
  cbn [getPlanFromLLM_loop]. rewrite bind_run.
  match goal with |- context [bind get_history _ ?s] => set (st1 := s) end.
  rewrite bind_run. cbn [get_history fst snd]. rewrite bind_run.
  pose proof (callLLMWithRetry_thrown (conversationHistory st1) st1) as Hthrown.
  destruct (callLLMWithRetry env (conversationHistory st1) st1)
    as [[thrown|response] st2]; cbn [fst snd] in *.
  - left. destruct (Hthrown thrown eq_refl) as (k & Hk). eauto.
  - clear Hthrown. rewrite bind_run.
    destruct (add_usage response st2) as [[] st3]. cbn [fst snd].
    destruct (parsePlan env (response_content response))
      as [parseError|plan] eqn:Hparse.
    + rewrite bind_run. cbn [push fst snd].
      destruct (j =? MAX_JSON_RETRIES)%nat eqn:Ej.
      * cbn [ret fst snd conversationHistory]. right.
        exists (response_content response), parseError.
        split; [exact Hparse|]. split; [reflexivity|].
        now rewrite last_snoc.
      * apply Nat.eqb_neq in Ej. unfold MAX_JSON_RETRIES in Ej.
        apply IH; lia.
    + rewrite !bind_run. cbn [push ret fst snd conversationHistory].
      split; [exact Hparse|]. now rewrite last_snoc.
Qed.

(** X7. How [getPlanFromLLM] ends. When it returns, the plan is the parse of
    the reply it returns, and that reply is the last message of the
    conversation, as an assistant message. When it throws, the error is one
    that a request to the model threw, or it reports the parse error of the
    third reply, which is then the last message of the conversation. The
    throw after the loop is never reached. *)
Theorem getPlanFromLLM_outcome (st : State) :
  let history := conversationHistory (getPlanFromLLM env st).2 in
  match (getPlanFromLLM env st).1 with
  | inr (plan, raw) =>
      parsePlan env raw = inr plan /\
      last history = Some {| role := assistant; content := raw |}
  | inl message =>
      (exists k messages, chat env k messages = inl message) \/
      (exists raw parseError,
         parsePlan env raw = inl parseError /\
         message = "LLM returned invalid JSON after 3 attempts. Last error: "
                   +:+ parseError /\
         last history = Some {| role := assistant; content := raw |})
  end.
Proof.
  exact (getPlanFromLLM_loop_outcome (S MAX_JSON_RETRIES) 0 None st
           eq_refl ltac:(unfold MAX_JSON_RETRIES; lia)).
Qed.

(** X8. A reply that does not parse, followed by one that does: the model is
    asked again with the rejected reply and a corrective prompt appended; on
    success the corrective prompt is removed and the rejected reply stays,
    so that the conversation ends with two assistant messages. *)
Theorem getPlanFromLLM_second_try (st : State) (first second : LLMResponse)
    (parseError : string) (plan : Plan) :
  let k0 := count_events is_Chat (trace st) in
  let h := conversationHistory st in
  let rejected := {| role := assistant;
                     content := response_content first |} in
  let retry :=
    h ++ rejected
      :: (if Js.truthy parseError
          then [{| role := user; content := corrective_prompt parseError |}]
          else []) in
  chat env k0 h = inr first ->
  parsePlan env (response_content first) = inl parseError ->
  chat env (S k0) retry = inr second ->
  parsePlan env (response_content second) = inr plan ->
  (getPlanFromLLM env st).1 = inr (plan, response_content second) /\
  chats (trace (getPlanFromLLM env st).2) = chats (trace st) ++ [h; retry] /\
  conversationHistory (getPlanFromLLM env st).2
  = h ++ [rejected; {| role := assistant;
                       content := response_content second |}].
Proof.
  cbv zeta. intros Hfirst Hparse1 Hsecond Hparse2.
  unfold getPlanFromLLM. cbn [getPlanFromLLM_loop].
  rewrite bind_run. cbn [ret fst snd].
  rewrite bind_run. cbn [get_history fst snd]. rewrite bind_run.
  rewrite (callLLMWithRetry_answer _ _ _ Hfirst). cbn [fst snd].
  rewrite bind_run.
  match goal with |- context [add_usage first ?s] =>
    destruct (add_usage_run first s) as (total1 & tu1 & -> & Hcu1)
  end.
  cbn [fst snd conversationHistory totalUsage trace]. rewrite Hparse1.
  rewrite bind_run. cbn [push fst snd conversationHistory totalUsage trace].
  cbn [Nat.eqb MAX_JSON_RETRIES].
  change MAX_JSON_RETRIES with 2%nat. cbn [getPlanFromLLM_loop].
  rewrite bind_run. cbn [Nat.ltb Nat.leb]. rewrite andb_true_r.
  set (st2 := {| conversationHistory := _ ++ [_]; totalUsage := total1;
                 trace := _ |}).
  assert (Hk : count_events is_Chat (trace st2)
               = S (count_events is_Chat (trace st))).
  { subst st2. cbn [trace]. rewrite !count_chats, !chats_app, Hcu1.
    rewrite !length_app. simpl. lia. }
  destruct (Js.truthy parseError) eqn:Etruthy.
  - cbn [push fst snd]. rewrite bind_run. cbn [get_history fst snd].
    rewrite bind_run. subst st2.
    cbn [conversationHistory totalUsage trace] in *.
    rewrite <- app_assoc. cbn [app].
    match goal with |- context [callLLMWithRetry env ?ms ?s] =>
      rewrite (callLLMWithRetry_answer ms s second)
    end.
    2:{ cbn [trace]. rewrite Hk. exact Hsecond. }
    cbn [fst snd]. rewrite bind_run.
    match goal with |- context [add_usage second ?s] =>
      destruct (add_usage_run second s) as (total2 & tu2 & -> & Hcu2)
    end.
    cbn [fst snd conversationHistory totalUsage trace]. rewrite Hparse2.
    rewrite !bind_run.
    cbn [get_history set_history push ret fst snd conversationHistory
         totalUsage trace].
    rewrite pop_corrective_prompt by reflexivity.
    split; [reflexivity|]. split.
    + rewrite !chats_app, Hcu1, Hcu2. cbn. now rewrite <- !app_assoc.
    + now rewrite <- app_assoc.
  - cbn [ret fst snd]. rewrite bind_run. cbn [get_history fst snd].
    rewrite bind_run. subst st2.
    cbn [conversationHistory totalUsage trace] in *.
    match goal with |- context [callLLMWithRetry env ?ms ?s] =>
      rewrite (callLLMWithRetry_answer ms s second)
    end.
    2:{ cbn [trace]. rewrite Hk. exact Hsecond. }
    cbn [fst snd]. rewrite bind_run.
    match goal with |- context [add_usage second ?s] =>
      destruct (add_usage_run second s) as (total2 & tu2 & -> & Hcu2)
    end.
    cbn [fst snd conversationHistory totalUsage trace]. rewrite Hparse2.
    rewrite !bind_run.
    cbn [get_history set_history push ret fst snd conversationHistory
         totalUsage trace].
    rewrite pop_corrective_assistant by reflexivity.
    split; [reflexivity|]. split.
    + rewrite !chats_app, Hcu1, Hcu2. cbn. now rewrite <- !app_assoc.
    + now rewrite <- app_assoc.
Qed.

End Plans.

(** The theorem on a model that answers with prose first and with a plan
    when asked again. *)
Lemma getPlanFromLLM_second_try_witness :
  let env := stammering_env in
  let st := {| conversationHistory :=
                 [system_message env;
                  task_message "click the Go button" example_snapshot];
               totalUsage := (0, 0);
               trace := [GetSnapshot] |} in
  let first := {| response_content := "Sure! Here is the plan";
                  usage := None |} in
  let second := {| response_content := "done"; usage := None |} in
  let rejected := {| role := assistant;
                     content := "Sure! Here is the plan" |} in
  let retry :=
    conversationHistory st
    ++ [rejected;
        {| role := user; content := corrective_prompt "Unexpected token" |}] in
  (chat env 0 (conversationHistory st) = inr first /\
   parsePlan env "Sure! Here is the plan" = inl "Unexpected token" /\
   chat env 1 retry = inr second /\
   parsePlan env "done"
   = inr {| steps := []; reasoning := "Done. Clicked Go." |}) /\
  conversationHistory (getPlanFromLLM env st).2
  = conversationHistory st
    ++ [rejected; {| role := assistant; content := "done" |}].
Proof.
  intros env st first second rejected retry.
  split; [repeat split; reflexivity|].
  exact (proj2 (proj2 (getPlanFromLLM_second_try env st first second
                         "Unexpected token"
                         {| steps := []; reasoning := "Done. Clicked Go." |}
                         eq_refl eq_refl eq_refl eq_refl))).
Defined.

End PlanFacts.

(** ** Batches *)

Module BatchFacts.
Import Planner TrimFacts PlannerFacts RetryFacts ContextFacts.
Open Scope planner_scope.

Lemma executed_actions_app (a b : list Event) :
  executed_actions (a ++ b) = executed_actions a ++ executed_actions b.
Proof. unfold executed_actions. apply omap_app. Qed.

Section Batches.
Variable env : Env.

(** The batch loop is left by an error only when [executeAction] throws
    it, and that call is then the last event. *)
Lemma execute_steps_thrown (plan : Plan) (i : nat) (rest : list PlannedStep)
    (st : State) :
  match (execute_steps env plan i rest st).1 with
  | inl thrown =>
      exists k a,
        executeAction env k a = inl thrown /\
        last (trace (execute_steps env plan i rest st).2)
        = Some (ExecuteAction a)
  | inr _ => True
  end.
Proof.
  revert i st. induction rest as [|step rest IH]; intros i st.
  - exact I.
  - rewrite execute_steps_head. cbv zeta.
    destruct (executeAction env _ _) as [thrown|result] eqn:E.
    { cbn [fst snd trace]. eexists _, _. split; [exact E|].
      rewrite last_app. reflexivity. }
    destruct (negb (success result)).
    + rewrite !bind_run. exact I.
    + destruct (_ && _); [rewrite !bind_run; exact I|]. apply IH.
Qed.



(** X9. The actions executed by the batch loop are the first steps of what
    is left of the batch, in their order: all of them when the loop runs to
    its end, and at least one when it breaks off or is left by the error of
    an action. *)
Theorem execute_steps_prefix (plan : Plan) (i : nat)
    (rest : list PlannedStep) (st : State) :
  exists t k,
    trace (execute_steps env plan i rest st).2 = trace st ++ t /\
    executed_actions t = map action (take k rest) /\
    match (execute_steps env plan i rest st).1 with
    | inr false => k = length rest
    | inr true | inl _ => (1 <= k <= length rest)%nat
    end.
Proof.
  revert i st. induction rest as [|step rest IH]; intros i st.
  - exists [], 0%nat. cbn. now rewrite app_nil_r.
  - rewrite execute_steps_head. cbv zeta.
    destruct (executeAction env _ _) as [thrown|result].
    { eexists _, 1%nat. split; [reflexivity|].
      split; [reflexivity | simpl; lia]. }
    set (st1 := {| conversationHistory := _; totalUsage := _; trace := _ |}).
    destruct (negb (success result)).
    + rewrite !bind_run, errorSnapshot_run.
      cbn [push ret fst snd trace]. subst st1. cbn [trace].
      eexists _, 1%nat. split; [now rewrite <- app_assoc|].
      split; [reflexivity | simpl; lia].
    + destruct (_ && _).
      * rewrite !bind_run, verifySnapshot_run. cbv zeta.
        cbn [push ret fst snd trace]. subst st1. cbn [trace].
        eexists _, 1%nat. split; [now rewrite <- app_assoc|].
        split; [|simpl; lia].
        rewrite !executed_actions_app. cbn [app].
        destruct (getSnapshot env _); reflexivity.
      * destruct (IH (S i) st1) as (t & k & E & Hex & Hk).
        exists ([onStepStart step i; ExecuteAction (action step);
                 onStepComplete step result] ++ t), (S k).
        split; [rewrite E; subst st1; cbn [trace];
                now rewrite <- app_assoc|].
        split.
        -- rewrite executed_actions_app, Hex. reflexivity.
        -- destruct (execute_steps env plan (S i) rest st1).1 as [|[|]];
             simpl; lia.
Qed.

(** What the batch loop does to the conversation: one user message when
    it breaks off, nothing when it runs to its end or is left by the error
    of an action. *)
Lemma execute_steps_turn (plan : Plan) (i : nat) (rest : list PlannedStep)
    (st : State) :
  match (execute_steps env plan i rest st).1 with
  | inr true =>
      exists m, role m = user /\
        conversationHistory (execute_steps env plan i rest st).2
        = conversationHistory st ++ [m]
  | inr false | inl _ =>
      conversationHistory (execute_steps env plan i rest st).2
      = conversationHistory st
  end.
Proof.
  revert i st. induction rest as [|step rest IH]; intros i st.
  - reflexivity.
  - rewrite execute_steps_head. cbv zeta.
    destruct (executeAction env _ _) as [thrown|result]; [reflexivity|].
    set (st1 := {| conversationHistory := _; totalUsage := _; trace := _ |}).
    destruct (negb (success result)).
    + rewrite !bind_run, errorSnapshot_run.
      cbn [push ret fst snd conversationHistory]. eexists.
      split; [|reflexivity]. reflexivity.
    + destruct (_ && _).
      * rewrite !bind_run, verifySnapshot_run. cbv zeta.
        cbn [push ret fst snd conversationHistory]. eexists.
        split; [|reflexivity]. reflexivity.
      * apply (IH (S i) st1).
Qed.

(** X10. A batch that is not left by the error of an action adds exactly one
    user message to the conversation, whether it breaks off at a failure or
    a verification point or runs to its end, and the conversation is trimmed
    after that. A batch that is left by the error of an action leaves the
    conversation as it was: nothing is appended and nothing is trimmed. *)
Theorem run_batch_turn (plan : Plan) (st : State) :
  steps plan <> [] ->
  match (run_batch env plan st).1 with
  | inr _ =>
      exists m,
        role m = user /\
        conversationHistory (run_batch env plan st).2
        = trimConversation (conversationHistory st ++ [m])
            default_maxMessages
  | inl thrown =>
      conversationHistory (run_batch env plan st).2 = conversationHistory st
      /\ exists k a, executeAction env k a = inl thrown
  end.
Proof.
  intros Hne. unfold run_batch. rewrite bind_run.
  pose proof (execute_steps_turn plan 0 (steps plan) st) as Hturn.
  pose proof (execute_steps_thrown plan 0 (steps plan) st) as Hthrown.
  destruct (execute_steps env plan 0 (steps plan) st)
    as [[thrown|needsReplan] st1]; cbn [fst snd] in *.
  { split; [exact Hturn|].
    destruct Hthrown as (k & a & E & _). now exists k, a. }
  destruct needsReplan; cbn [negb].
  - destruct Hturn as (m & Hm & Hh). rewrite !bind_run.
    cbn [ret get_history set_history fst snd conversationHistory].
    exists m. split; [exact Hm|]. now rewrite Hh.
  - rewrite !bind_run. unfold finalSnapshot. rewrite verifySnapshot_run.
    cbv zeta. cbn [fst snd].
    destruct (last (steps plan)) as [lastAction|] eqn:Hlast.
    + eexists (verification_turn lastAction _). split; [reflexivity|].
      cbn [push ret get_history set_history fst snd conversationHistory].
      now rewrite Hturn.
    + apply last_None in Hlast. contradiction.
Qed.

End Batches.

(** The theorem on the click-and-type batch, when the click is made and
    when the callback throws. *)
Lemma run_batch_turn_witness :
  steps click_then_type <> [] /\
  (exists m,
     role m = user /\
     conversationHistory
       (run_batch click_env click_then_type (initial_state click_env)).2
     = trimConversation (conversationHistory (initial_state click_env) ++ [m])
         default_maxMessages) /\
  (run_batch throwing_env click_then_type (initial_state throwing_env)).1
  = inl "Error: No active tab" /\
  conversationHistory
    (run_batch throwing_env click_then_type (initial_state throwing_env)).2
  = conversationHistory (initial_state throwing_env).
Proof.
  assert (H : steps click_then_type <> []) by (vm_compute; discriminate).
  split; [exact H|]. split; [|split; [reflexivity|]].
  - exact (run_batch_turn click_env click_then_type (initial_state click_env)
             H).
  - exact (proj1 (run_batch_turn throwing_env click_then_type
                    (initial_state throwing_env) H)).
Defined.

End BatchFacts.

(** ** Token usage and the end of a run *)

Module UsageFacts.
Import Planner PlannerFacts BatchFacts.
Open Scope planner_scope.

Lemma reported_usage_snoc (t : list Event) (e : Event) :
  reported_usage (t ++ [e])
  = match e with onUsage i o => (i, o) | _ => reported_usage t end.
Proof.
  unfold reported_usage. rewrite omap_app.
  destruct e; simpl; rewrite ?app_nil_r; try reflexivity.
  now rewrite last_snoc.
Qed.

(** A computation that leaves the totals alone and emits no usage report. *)
Lemma keeps_usage_silent {A} (c : M A) :
  (forall st, totalUsage (c st).2 = totalUsage st
              /\ trace (c st).2 = trace st) ->
  keeps usage_reported c.
Proof.
  intros Hc st H. destruct (Hc st) as [Hu Ht].
  unfold usage_reported. now rewrite Hu, Ht.
Qed.

Lemma keeps_usage_emit (e : Event) :
  match e with onUsage _ _ => False | _ => True end ->
  keeps usage_reported (emit e).
Proof.
  intros He st H. unfold usage_reported, emit. cbn [snd trace totalUsage].
  rewrite reported_usage_snoc. destruct e; try exact H. contradiction.
Qed.

Section Usage.
Variable env : Env.

Lemma keeps_usage_getSnapshot : keeps usage_reported (call_getSnapshot env).
Proof. intros st H. now apply (keeps_usage_emit GetSnapshot). Qed.

Lemma keeps_usage_executeAction a :
  keeps usage_reported (call_executeAction env a).
Proof. intros st H. now apply (keeps_usage_emit (ExecuteAction a)). Qed.

Lemma keeps_usage_chat ms : keeps usage_reported (call_chat env ms).
Proof. intros st H. now apply (keeps_usage_emit (Chat ms)). Qed.

Lemma keeps_usage_add_usage response :
  keeps usage_reported (add_usage response).
Proof.
  intros st H. unfold add_usage. destruct (usage response) as [[i o]|].
  - unfold usage_reported, emit. cbn [snd trace totalUsage].
    now rewrite reported_usage_snoc.
  - exact H.
Qed.

Ltac keeps :=
  repeat first
    [ apply keeps_ret
    | apply keeps_usage_getSnapshot | apply keeps_usage_executeAction
    | apply keeps_usage_chat | apply keeps_usage_add_usage
    | apply keeps_usage_emit; exact I
    | apply keeps_usage_silent; intros ?; split; reflexivity
    | apply keeps_bind; [|intros ?]
    | match goal with
      | |- keeps _ (match ?x with _ => _ end) => destruct x
      | |- keeps _ (if ?x then _ else _) => destruct x
      end ].

Lemma keeps_usage_callLLMWithRetry_loop n attempt lastError messages :
  keeps usage_reported
    (callLLMWithRetry_loop env n attempt lastError messages).
Proof.
  revert attempt lastError.
  induction n as [|n IH]; intros attempt lastError; cbn [callLLMWithRetry_loop].
  - keeps.
  - unfold sleep. keeps. apply IH.
Qed.

Lemma keeps_usage_getPlanFromLLM_loop n jsonAttempt lastParseError :
  keeps usage_reported (getPlanFromLLM_loop env n jsonAttempt lastParseError).
Proof.
  revert jsonAttempt lastParseError.
  induction n as [|n IH]; intros jsonAttempt lastParseError;
    cbn [getPlanFromLLM_loop].
  - keeps.
  - keeps; try apply keeps_usage_callLLMWithRetry_loop; apply IH.
Qed.

Lemma keeps_usage_snapshots :
  keeps usage_reported (errorSnapshot env) /\
  keeps usage_reported (verifySnapshot env).
Proof.
  split; [unfold errorSnapshot | unfold verifySnapshot];
    unfold sleep, placeholder; keeps.
Qed.

Lemma keeps_usage_execute_steps plan i rest :
  keeps usage_reported (execute_steps env plan i rest).
Proof.
  revert i. induction rest as [|step rest IH]; intros i; cbn [execute_steps].
  - keeps.
  - keeps; try apply keeps_usage_snapshots; apply IH.
Qed.

Lemma keeps_usage_iteration_body task iteration :
  keeps usage_reported (iteration_body env task iteration).
Proof.
  unfold iteration_body, acquire_state, compose_message, getPlanFromLLM,
    run_batch, finalSnapshot, sleep.
  keeps; try apply keeps_usage_getPlanFromLLM_loop;
    try apply keeps_usage_execute_steps; try apply keeps_usage_snapshots.
Qed.

Lemma keeps_usage_planner_loop n iteration task :
  keeps usage_reported (planner_loop env n iteration task).
Proof.
  revert iteration. induction n as [|n IH]; intros iteration;
    cbn [planner_loop].
  - keeps.
  - apply keeps_bind; [apply keeps_usage_iteration_body|].
    intros [| |thrown]; [apply keeps_ret | apply IH | apply keeps_ret].
Qed.

(** X11. At the end of a run the token totals are those that the last
    [onUsage] callback reported, and zero when there was none: every change
    of the totals is reported. *)
Theorem run_usage_reported (task : string) :
  reported_usage (trace (runPlanner env task))
  = totalUsage (runPlanner env task).
Proof.
  unfold runPlanner. now apply keeps_usage_planner_loop.
Qed.



(** A run that is rejected: the callback throws at the first click. *)
Example run_rejected :
  settled throwing_env "click the Go button" = inl "Error: No active tab" /\
  count_events terminal (trace (runPlanner throwing_env "click the Go button"))
  = 0%nat.
Proof. vm_compute. split; reflexivity. Qed.

End Usage.
End UsageFacts.

(** ** The window of the conversation *)

Module WindowFacts.
Import Planner TrimFacts.

(** X13. [trimConversation] leaves the conversation with as many messages as
    it had, or with [maxMessages] of them when it had more (with two, when
    [maxMessages] is less than two). The first two messages stay as they
    are, what is kept besides them are the most recent messages, and a
    conversation of at most [maxMessages] messages, or of at most two, is
    not changed at all. Trimming a second time changes nothing. *)
Theorem trimConversation_window (h : list LLMMessage) (maxMessages : Z) :
  let trimmed := trimConversation h maxMessages in
  Z.of_nat (length trimmed)
  = Z.min (Z.of_nat (length h)) (Z.max 2 maxMessages) /\
  take 2 trimmed = take 2 h /\
  drop 2 trimmed
  = drop (Z.to_nat (Z.max 2 (Z.of_nat (length h) - (maxMessages - 2)))) h /\
  (Z.of_nat (length h) <= Z.max 2 maxMessages -> trimmed = h) /\
  trimConversation trimmed maxMessages = trimmed.
Proof.
  cbv zeta.
  assert (Hlen : Z.of_nat (length (trimConversation h maxMessages))
                 = Z.min (Z.of_nat (length h)) (Z.max 2 maxMessages)).
  { rewrite trimConversation_eq, length_app, length_take, length_drop. lia. }
  split; [exact Hlen|]. split; [|split; [|split]].
  - rewrite trimConversation_eq.
    destruct (decide (2 <= length h)%nat) as [H2|H2].
    + rewrite take_app_le by (rewrite length_take; lia).
      rewrite take_take. reflexivity.
    + rewrite (drop_ge h) by lia. rewrite app_nil_r. apply take_take.
  - rewrite trimConversation_eq.
    set (k := Z.to_nat _). assert (Hk : (2 <= k)%nat) by (subst k; lia).
    destruct (decide (2 <= length h)%nat) as [H2|H2].
    + rewrite drop_app_length'; [reflexivity|]. rewrite length_take. lia.
    + rewrite !drop_ge; [reflexivity | lia |].
      rewrite length_app, length_take, length_drop. lia.
  - intros Hle. rewrite trimConversation_eq.
    destruct (decide (Z.of_nat (length h) <= maxMessages)) as [HM|HM].
    + rewrite Z.max_l by lia. apply take_drop.
    + rewrite take_ge by lia. rewrite drop_ge by lia. apply app_nil_r.
  - rewrite (trimConversation_eq (trimConversation h maxMessages)).
    set (t := trimConversation h maxMessages) in *.
    set (k := Z.to_nat _).
    destruct (decide (length t <= 2)%nat) as [H2|H2].
    + rewrite take_ge by lia. rewrite drop_ge by (subst k; lia).
      apply app_nil_r.
    + assert (k = 2%nat) as -> by (subst k; lia). apply take_drop.
Qed.

End WindowFacts.

(** ** Providers and the classification of their errors *)

Module ProviderFacts.
Import Planner Provider ContextFacts RunFacts.

(** *** [includes] *)

Lemma prefix_app (needle rest : string) :
  String.prefix needle (needle +:+ rest) = true.
Proof.
  induction needle as [|c needle IH]; simpl.
  - now destruct rest.
  - destruct (ascii_dec c c); [exact IH | congruence].
Qed.

Lemma includes_here (needle rest : string) :
  Js.includes needle (needle +:+ rest) = true.
Proof.
  pose proof (prefix_app needle rest) as H.
  destruct (needle +:+ rest); cbn [Js.includes]; now rewrite H.
Qed.

Lemma includes_skip (needle before hay : string) :
  Js.includes needle hay = true ->
  Js.includes needle (before +:+ hay) = true.
Proof.
  intros H. induction before as [|c before IH]; [exact H|].
  change (String c before +:+ hay) with (String c (before +:+ hay)).
  cbn [Js.includes]. rewrite IH. apply orb_true_r.
Qed.

Lemma prefix_tail (before needle hay : string) :
  String.prefix (before +:+ needle) hay = true ->
  Js.includes needle hay = true.
Proof.
  revert hay. induction before as [|c before IH]; intros hay H.
  - change ("" +:+ needle) with needle in H.
    destruct hay; cbn [Js.includes]; now rewrite H.
  - destruct hay as [|c' hay]; [discriminate|].
    change (String c before +:+ needle)
      with (String c (before +:+ needle)) in H.
    cbn [String.prefix] in H.
    destruct (ascii_dec c c'); [|discriminate].
    cbn [Js.includes]. rewrite (IH hay H). apply orb_true_r.
Qed.

(** A text that includes [before ++ needle] includes [needle]. *)
Lemma includes_tail (before needle hay : string) :
  Js.includes (before +:+ needle) hay = true ->
  Js.includes needle hay = true.
Proof.
  induction hay as [|c hay IH]; intros H.
  - cbn [Js.includes] in H. rewrite orb_false_r in H.
    now apply prefix_tail in H.
  - cbn [Js.includes] in H. apply orb_prop in H as [H|H].
    + now apply prefix_tail in H.
    + cbn [Js.includes]. rewrite (IH H). apply orb_true_r.
Qed.

(** X14. [classifyError] in closed form. The tests for "input tokens per
    minute" and "output tokens per minute" add nothing to the test for
    "tokens per minute", and a message that mentions 429 or "rate" is
    handled as a rate limit whatever else it mentions. *)
Theorem classifyError_closed (msg : string) :
  classifyError msg
  = if Js.includes "429" msg || Js.includes "rate" msg
    then if Js.includes "tokens per minute" msg
         then retryable tpm else retryable rpm
    else if Js.includes "500" msg || Js.includes "502" msg
            || Js.includes "503" msg || Js.includes "529" msg
            || Js.includes "overloaded" msg
         then retryable server
         else fatal.
Proof.
  unfold classifyError.
  destruct (Js.includes "429" msg || Js.includes "rate" msg); [|reflexivity].
  destruct (Js.includes "tokens per minute" msg) eqn:E; [reflexivity|].
  destruct (Js.includes "input tokens per minute" msg) eqn:Ei.
  { apply (includes_tail "input ") in Ei. congruence. }
  destruct (Js.includes "output tokens per minute" msg) eqn:Eo.
  { apply (includes_tail "output ") in Eo. congruence. }
  reflexivity.
Qed.

Lemma api_error_includes (p : LLMProvider) (status : Z) (body : string) :
  Js.includes (pretty status) (api_error p status body) = true.
Proof.
  unfold api_error. do 2 apply includes_skip. apply includes_here.
Qed.

(** X15. A response with status 429, 500, 502, 503 or 529 is thrown by every
    provider as an error that the planner retries, and one with status 429
    is never taken for a server error. *)
Theorem api_error_retried (p : LLMProvider) (status : Z) (body : string) :
  status ∈ [429; 500; 502; 503; 529] ->
  exists kind,
    classifyError (api_error p status body) = retryable kind /\
    (status = 429 -> kind <> server).
Proof.
  intros Hin. pose proof (api_error_includes p status body) as Hinc.
  unfold classifyError.
  destruct (Js.includes "429" _ || Js.includes "rate" _) eqn:E1.
  - destruct (_ || _ || _); eexists; split; try reflexivity; discriminate.
  - apply orb_false_iff in E1 as [E429 _].
    exists server. split.
    + apply list_elem_of_In in Hin. simpl in Hin.
      destruct Hin as [<-|[<-|[<-|[<-|[<-|[]]]]]].
      * change (pretty 429) with "429" in Hinc. congruence.
      * change (pretty 500) with "500" in Hinc. now rewrite Hinc.
      * change (pretty 502) with "502" in Hinc.
        rewrite Hinc. now rewrite orb_true_r.
      * change (pretty 503) with "503" in Hinc.
        rewrite Hinc. now rewrite !orb_true_r.
      * change (pretty 529) with "529" in Hinc.
        rewrite Hinc. now rewrite !orb_true_r.
    + intros ->. change (pretty 429) with "429" in Hinc. congruence.
Qed.

(** The theorem on a rate-limit response of the Anthropic API. *)
Lemma api_error_retried_witness :
  let p := AnthropicProvider example_config in
  429 ∈ [429; 500; 502; 503; 529] /\
  exists kind,
    classifyError (api_error p 429 "rate_limit_error") = retryable kind /\
    kind <> server.
Proof.
  intros p.
  assert (H : 429 ∈ [429; 500; 502; 503; 529]) by apply list_elem_of_here.
  split; [exact H|].
  destruct (api_error_retried p 429 "rate_limit_error" H)
    as (kind & Hkind & Hnot).
  exists kind. split; [exact Hkind | exact (Hnot eq_refl)].
Defined.

(** *** Requests *)

Lemma map_plain (messages : list LLMMessage) : map plain messages = messages.
Proof.
  induction messages as [|[r c] messages IH]; [reflexivity|].
  simpl. now rewrite IH.
Qed.

Lemma nonSystemMessages_rest (rest : list LLMMessage) :
  Forall (fun m => role m <> system) rest -> nonSystemMessages rest = rest.
Proof.
  unfold nonSystemMessages. induction 1 as [|m rest Hm _ IH];
    [reflexivity|].
  cbn [List.filter]. unfold is_system at 1.
  destruct (role m); [congruence | |]; cbn [negb]; now rewrite IH.
Qed.

Lemma request_headed (p : LLMProvider) (m0 : LLMMessage)
    (messages : list LLMMessage) :
  role m0 = system -> headed_by m0 messages ->
  exists rest,
    messages = m0 :: rest /\
    request_body (request p messages) = carries p (content m0) rest.
Proof.
  intros H0 (rest & -> & Hrest). exists rest. split; [reflexivity|].
  assert (Hfind : systemMessage (m0 :: rest) = Some m0).
  { unfold systemMessage, is_system. cbn [find]. now rewrite H0. }
  assert (Hfilter : nonSystemMessages (m0 :: rest) = rest).
  { unfold nonSystemMessages at 1. cbn [List.filter]. unfold is_system at 1.
    rewrite H0. cbn [negb]. now apply nonSystemMessages_rest. }
  destruct p as [config|config|config]; cbn [request request_body carries].
  - now rewrite Hfind, Hfilter, map_plain.
  - rewrite map_plain. destruct m0 as [r c]. cbn in *. now subst r.
  - now rewrite Hfind, Hfilter.
Qed.

(** X16. Whatever the provider, every request of a run carries the whole
    context: the system prompt (as the system field, for Anthropic and
    Gemini) and all the other messages, in their order. *)
Theorem run_requests_whole (env : Env) (task : string) (p : LLMProvider) :
  Forall (fun messages =>
            exists rest,
              messages = system_message env :: rest /\
              request_body (request p messages)
              = carries p (SYSTEM_PROMPT env) rest)
         (chats (trace (runPlanner env task))).
Proof.
  eapply Forall_impl; [apply (run_contexts env task)|].
  intros messages [_ H]. now apply (request_headed p (system_message env)).
Qed.

End ProviderFacts.

(** ** The snapshot tree and its text *)

Module TreeFacts.
Import Parser RefFacts SnapshotFacts.

(** *** Counting *)

Lemma countInteractive_fold (cs : list PageNode) (c : Z) :
  Forall (fun child => forall c,
            countInteractive child c
            = c + Z.of_nat (length (List.filter interactive (nodes child))))
         cs ->
  fold_left (fun c child => countInteractive child c) cs c
  = c + Z.of_nat (length (List.filter interactive (flat_map nodes cs))).
Proof.
  intros H. revert c. induction H as [|child cs Hc _ IH]; intros c; simpl.
  - lia.
  - rewrite IH, Hc, List.filter_app, length_app. lia.
Qed.

Lemma countInteractive_nodes (node : PageNode) (c : Z) :
  countInteractive node c
  = c + Z.of_nat (length (List.filter interactive (nodes node))).
Proof.
  revert c. induction node as [node IH] using node_ind. intros c.
  destruct node as [rf rl nm tg prps inter dpth cs].
  cbn [countInteractive nodes children interactive] in *.
  rewrite countInteractive_fold by exact IH.
  cbn [List.filter interactive]. destruct inter; cbn [length]; lia.
Qed.

Lemma nodeHasInteractive_nodes (node : PageNode) :
  nodeHasInteractive node = existsb interactive (nodes node).
Proof.
  induction node as [node IH] using node_ind.
  destruct node as [rf rl nm tg prps inter dpth cs].
  cbn [nodeHasInteractive nodes children interactive existsb] in *.
  f_equal. induction IH as [|child cs Hc _ IHcs]; [reflexivity|].
  cbn [existsb flat_map]. rewrite existsb_app, Hc, IHcs. reflexivity.
Qed.

(** X17. [countInteractive] adds the number of interactive nodes of the tree
    to the count it is given, and [nodeHasInteractive] holds of the trees
    for which that number is not zero. *)
Theorem countInteractive_counts (node : PageNode) (c : Z) :
  countInteractive node c
  = c + Z.of_nat (length (List.filter interactive (nodes node))) /\
  nodeHasInteractive node = (0 <? countInteractive node 0).
Proof.
  split; [apply countInteractive_nodes|].
  rewrite nodeHasInteractive_nodes, countInteractive_nodes.
  induction (nodes node) as [|n l IH]; [reflexivity|].
  cbn [existsb List.filter]. destruct (interactive n); cbn [orb length].
  - symmetry. apply Z.ltb_lt. lia.
  - exact IH.
Qed.


(** *** Serialization is a cut of the listing *)

Lemma chars_cons (l : string) (ls : list string) :
  chars (l :: ls) = Js.len l + 1 + chars ls.
Proof. reflexivity. Qed.

Section Cut.
Variable maxChars : Z.

(** [out'] is [out] with the first [k] lines of [full] appended, and stops
    short of [full] only with the budget used up. *)
Lemma cut_none (full : list string) (out : Output) :
  maxChars <= count out ->
  exists k,
    out = {| lines := lines out ++ take k full;
             count := count out + chars (take k full) |} /\
    (k = length full \/ maxChars <= count out + chars (take k full)).
Proof.
  intros H. exists 0%nat. rewrite take_0. cbn [chars fold_right].
  rewrite app_nil_r, Z.add_0_r. destruct out. split; [reflexivity|].
  right. exact H.
Qed.

Lemma cut_fold (f : PageNode -> list string)
    (ser : PageNode -> Output -> Output) (cs : list PageNode) :
  (forall child out, maxChars <= count out -> ser child out = out) ->
  Forall (fun child => forall out, exists k,
            ser child out
            = {| lines := lines out ++ take k (f child);
                 count := count out + chars (take k (f child)) |} /\
            (k = length (f child)
             \/ maxChars <= count out + chars (take k (f child)))) cs ->
  forall out, exists k,
    fold_left (fun o child => ser child o) cs out
    = {| lines := lines out ++ take k (flat_map f cs);
         count := count out + chars (take k (flat_map f cs)) |} /\
    (k = length (flat_map f cs)
     \/ maxChars <= count out + chars (take k (flat_map f cs))).
Proof.
  intros Hstop H. induction H as [|child cs Hc _ IH]; intros out.
  - exists 0%nat. cbn. rewrite app_nil_r, Z.add_0_r. destruct out. auto.
  - cbn [fold_left flat_map]. destruct (Hc out) as (k1 & E1 & [Hfull|Hcut]).
    + subst k1. rewrite take_ge in E1 by lia.
      destruct (IH (ser child out)) as (k2 & E2 & Hk2).
      exists (length (f child) + k2)%nat.
      rewrite take_app_add' by reflexivity.
      rewrite E2, E1. cbn [lines count].
      rewrite chars_app, <- app_assoc, length_app.
      split; [f_equal; lia|].
      destruct Hk2 as [-> | Hk2]; [left; reflexivity | right].
      rewrite E1 in Hk2. cbn [count] in Hk2. lia.
    + exists (k1 `min` length (f child))%nat.
      assert (Htake : take (k1 `min` length (f child))
                        (f child ++ flat_map f cs)
                      = take k1 (f child)).
      { rewrite take_app_le by lia.
        destruct (Nat.min_spec k1 (length (f child))) as [[_ ->]|[Hge ->]];
          [reflexivity|]. now rewrite !take_ge by lia. }
      rewrite Htake.
      assert (Hrest : fold_left (fun o c => ser c o) cs (ser child out)
                      = ser child out).
      { assert (Hb : maxChars <= count (ser child out))
          by (rewrite E1; exact Hcut).
        clear -Hb Hstop. revert Hb. generalize (ser child out) as o.
        induction cs as [|c cs IHcs]; intros o Hb; [reflexivity|].
        cbn [fold_left]. rewrite Hstop by exact Hb. now apply IHcs. }
      rewrite Hrest. split; [exact E1 | right; exact Hcut].
Qed.

Lemma serializeNode_cut (node : PageNode) :
  forall indent out, exists k,
    serializeNode node indent maxChars out
    = {| lines := lines out ++ take k (listing node indent);
         count := count out + chars (take k (listing node indent)) |} /\
    (k = length (listing node indent)
     \/ maxChars <= count out + chars (take k (listing node indent))).
Proof.
  induction node as [node IH] using node_ind. intros indent out.
  destruct node as [rf rl nm tg prps inter dpth cs].
  cbn [serializeNode listing children] in *.
  destruct (maxChars <=? count out) eqn:E.
  - apply Z.leb_le in E. now apply cut_none.
  - set (line := node_line _ indent).
    destruct (cut_fold (fun child => listing child (S indent))
                (fun child o => serializeNode child (S indent) maxChars o) cs)
      with (out := push_line line out) as (k & Ek & Hk).
    + intros child o Ho. now apply serializers_stop.
    + eapply Forall_impl; [exact IH|]. intros child Hchild o. apply Hchild.
    + exists (S k). rewrite Ek. cbn [push_line lines count firstn length].
      rewrite chars_cons, <- app_assoc. split; [f_equal; lia|].
      destruct Hk as [-> | Hk]; [now left | right].
      cbn [push_line count] in Hk. lia.
Qed.

Lemma serializeInteractive_cut (node : PageNode) :
  forall indent out, exists k,
    serializeInteractive node indent maxChars out
    = {| lines := lines out ++ take k (listing_interactive node indent);
         count := count out
                  + chars (take k (listing_interactive node indent)) |} /\
    (k = length (listing_interactive node indent)
     \/ maxChars
        <= count out + chars (take k (listing_interactive node indent))).
Proof.
  induction node as [node IH] using node_ind. intros indent out.
  destruct node as [rf rl nm tg prps inter dpth cs].
  cbn [serializeInteractive listing_interactive children] in *.
  destruct (maxChars <=? count out) eqn:E.
  - apply Z.leb_le in E. now apply cut_none.
  - destruct (nodeHasInteractive _); cbn [negb].
    + set (line := node_line _ indent).
      destruct (cut_fold (fun child => listing_interactive child (S indent))
                  (fun child o =>
                     serializeInteractive child (S indent) maxChars o) cs)
        with (out := push_line line out) as (k & Ek & Hk).
      * intros child o Ho. now apply serializers_stop.
      * eapply Forall_impl; [exact IH|]. intros child Hchild o. apply Hchild.
      * exists (S k). rewrite Ek. cbn [push_line lines count firstn length].
        rewrite chars_cons, <- app_assoc. split; [f_equal; lia|].
        destruct Hk as [-> | Hk]; [now left | right].
        cbn [push_line count] in Hk. lia.
    + exists 0%nat. cbn. rewrite app_nil_r, Z.add_0_r. destruct out. auto.
Qed.

End Cut.

(** X18. The lines of a snapshot are an initial part of the listing of the
    tree in document order (of the nodes that hold an interactive node, for
    the interactive filter), indented by depth in the tree; the listing is
    cut short only when the lines taken have used up [maxChars]. *)
Theorem serialize_cut (filter : Filter) (tree : PageNode) (maxChars : Z) :
  let full := match filter with
              | FilterAll => listing tree 0
              | FilterInteractive => listing_interactive tree 0
              end in
  exists k,
    lines (serialize filter tree maxChars) = take k full /\
    (k = length full \/ maxChars <= chars (take k full)).
Proof.
  cbv zeta. unfold serialize. destruct filter.
  - destruct (serializeNode_cut maxChars tree 0 {| lines := []; count := 0 |})
      as (k & -> & Hk).
    exists k. cbn [lines count app] in *. split; [reflexivity|].
    destruct Hk; [now left | right; lia].
  - destruct (serializeInteractive_cut maxChars tree 0
                {| lines := []; count := 0 |}) as (k & -> & Hk).
    exists k. cbn [lines count app] in *. split; [reflexivity|].
    destruct Hk; [now left | right; lia].
Qed.

End TreeFacts.

(** ** What [buildNode] keeps *)

Module BuildFacts.
Import Parser RefFacts SnapshotFacts.

Lemma getOrCreateRef_truthy (heap : Heap) (el : Element) (st : RefState) :
  Js.truthy (getOrCreateRef heap el st).1 = true.
Proof.
  unfold getOrCreateRef.
  destruct (refsByElement st !! el) as [existing|]; [|reflexivity].
  destruct (Js.truthy existing) eqn:E; [|reflexivity].
  destruct (_ ≫= _) as [stored|]; [|reflexivity].
  destruct (decide _); [exact E | reflexivity].
Qed.

Lemma Forall_flat_map_nodes (P : PageNode -> Prop) (cs : list PageNode) :
  Forall (fun c => Forall P (nodes c)) cs -> Forall P (flat_map nodes cs).
Proof.
  induction 1 as [|c cs Hc _ IH]; simpl; [constructor|].
  apply Forall_app. split; assumption.
Qed.

Lemma kept_deeper (depth0 maxDepth : Z) (node : PageNode) :
  kept (depth0 + 1) maxDepth node -> kept depth0 maxDepth node.
Proof. intros (Hd & Ht & Hu). repeat split; auto; lia. Qed.

Section Build.
Variable heap : Heap.
Variable maxDepth : Z.
Variable viewportOnly : bool.

Lemma for_children_built (P : PageNode -> Prop) (cs : list DomElement)
    (build : DomElement -> RefState -> option PageNode * RefState) :
  Forall (fun c => forall st,
            match (build c st).1 with
            | Some tree => Forall P (nodes tree)
            | None => True
            end) cs ->
  forall st, Forall (fun c => Forall P (nodes c)) (for_children build cs st).1.
Proof.
  induction 1 as [|c cs Hc _ IH]; intros st; simpl; [constructor|].
  specialize (Hc st). destruct (build c st) as [[n|] st1]; simpl in Hc.
  - specialize (IH st1). destruct (for_children build cs st1) as [rest st2].
    simpl in *. now constructor.
  - specialize (IH st1). destruct (for_children build cs st1) as [rest st2].
    exact IH.
Qed.

Lemma buildNode_nodes (el : DomElement) :
  forall depth st,
    match (buildNode heap el depth maxDepth viewportOnly st).1 with
    | Some tree =>
        Forall (fun n => kept depth maxDepth n /\ labelled n) (nodes tree)
    | None => True
    end.
Proof.
  induction el as [el IHc IHf] using dom_ind. intros depth st.
  destruct el as [id tg vis inview rl inter nm prps text cs ttl fname src doc].
  cbn [buildNode el_tag el_visible el_in_viewport el_role el_interactive
       el_name el_props el_shallow_text el_children el_title el_frame_name
       el_src el_content_document el_id] in *.
  destruct (has tg SKIP_TAGS) eqn:Hskip; [exact I|].
  destruct (negb vis); [exact I|].
  destruct (maxDepth <? depth) eqn:Hdepth; [exact I|].
  apply Z.ltb_ge in Hdepth.
  destruct (viewportOnly && negb inview); [exact I|].
  destruct (String.eqb tg "iframe") eqn:Hframe.
  - destruct doc as [| |body]; cbn [frame_body_all] in IHf.
    + pose proof (getOrCreateRef_truthy heap id st) as Href.
      destruct (getOrCreateRef heap id st) as [rf st1]. cbn [fst] in *.
      cbn [nodes children flat_map app]. constructor; [|constructor].
      split; [|unfold labelled; cbn; now rewrite Href].
      split; [cbn; lia|]. split; reflexivity.
    + exact I.
    + specialize (IHf (depth + 1) st).
      destruct (buildNode heap body (depth + 1) maxDepth viewportOnly st)
        as [[iframeNode|] st1]; cbn [fst] in *; [|exact I].
      pose proof (getOrCreateRef_truthy heap id st1) as Href.
      destruct (getOrCreateRef heap id st1) as [rf st2]. cbn [fst] in *.
      cbn [nodes children]. constructor.
      * split; [|unfold labelled; cbn; now rewrite Href].
        split; [cbn; lia|]. split; reflexivity.
      * destruct iframeNode as [r0 rl0 nm0 tg0 p0 i0 d0 cs0].
        cbn [nodes children] in IHf |- *. apply Forall_cons in IHf as [_ IHf].
        eapply Forall_impl; [exact IHf|]. intros n [Hk Hl].
        split; [now apply kept_deeper | exact Hl].
  - pose proof (for_children_built
                  (fun n => kept (depth + 1) maxDepth n /\ labelled n) cs
                  (fun child => buildNode heap child (depth + 1) maxDepth
                                  viewportOnly)) as Hcs.
    assert (IHc' : Forall (fun c => forall st,
                match (buildNode heap c (depth + 1) maxDepth viewportOnly
                         st).1 with
                | Some tree =>
                    Forall (fun n => kept (depth + 1) maxDepth n
                                     /\ labelled n) (nodes tree)
                | None => True
                end) cs).
    { eapply Forall_impl; [exact IHc|]. intros c Hc. apply Hc. }
    specialize (Hcs IHc' st).
    destruct (for_children _ cs st) as [children st1]. cbn [fst] in Hcs.
    set (uns := negb (Js.truthy rl) && negb inter && negb (Js.truthy nm)).
    assert (Hweak : Forall (fun c => Forall (fun n => kept depth maxDepth n
                                                   /\ labelled n) (nodes c))
                           children).
    { eapply Forall_impl; [exact Hcs|]. intros c Hc.
      eapply Forall_impl; [exact Hc|]. intros n [Hk Hl].
      split; [now apply kept_deeper | exact Hl]. }
    destruct (uns && (length children =? 1)%nat) eqn:Hone.
    + cbn [fst]. destruct children as [|c children]; [exact I|].
      cbn [head]. now apply Forall_cons in Hweak as [Hc _].
    + destruct (uns && (length children =? 0)%nat && negb (Js.truthy text));
        [exact I|].
      destruct (inter || Js.truthy rl) eqn:Hlab.
      * pose proof (getOrCreateRef_truthy heap id st1) as Href.
        destruct (getOrCreateRef heap id st1) as [rf st2]. cbn [fst] in *.
        cbn [nodes Parser.children]. constructor.
        -- split; [|unfold labelled; cbn; now rewrite Href, Hlab].
           split; [cbn; lia|]. split; [exact Hskip | exact Hone].
        -- now apply Forall_flat_map_nodes.
      * cbn [fst nodes Parser.children]. constructor.
        -- split; [|unfold labelled; cbn; now rewrite Hlab].
           split; [cbn; lia|]. split; [exact Hskip | exact Hone].
        -- now apply Forall_flat_map_nodes.
Qed.

(** X19. Every node of the tree that [buildNode] returns lies between the
    depth it was called at and [maxDepth], has a tag that is not skipped,
    and is no pass-through container: a node without role, interaction and
    name never has exactly one child. *)
Theorem buildNode_kept (el : DomElement) (depth : Z) (st st' : RefState)
    (tree : PageNode) :
  buildNode heap el depth maxDepth viewportOnly st = (Some tree, st') ->
  Forall (kept depth maxDepth) (nodes tree).
Proof.
  intros H. pose proof (buildNode_nodes el depth st) as Hn.
  rewrite H in Hn. eapply Forall_impl; [exact Hn|]. now intros n [? _].
Qed.

(** X20. In the tree that [buildNode] returns, the nodes that carry a ref
    are the interactive ones and those with a role. *)
Theorem buildNode_labelled (el : DomElement) (depth : Z) (st st' : RefState)
    (tree : PageNode) :
  buildNode heap el depth maxDepth viewportOnly st = (Some tree, st') ->
  Forall labelled (nodes tree).
Proof.
  intros H. pose proof (buildNode_nodes el depth st) as Hn.
  rewrite H in Hn. eapply Forall_impl; [exact Hn|]. now intros n [_ ?].
Qed.

End Build.

(** The two theorems on the example page: the wrapper around the Submit
    button is passed through, the body is kept without a ref. *)
Lemma buildNode_kept_witness :
  let built :=
    buildNode all_live (page_root example_page) 0 12 true fresh_refs in
  built = (Some example_tree, built.2) /\
  Forall (kept 0 12) (nodes example_tree).
Proof.
  intros built.
  assert (H : built = (Some example_tree, built.2)) by reflexivity.
  split; [exact H|].
  exact (buildNode_kept all_live 12 true (page_root example_page) 0
           fresh_refs built.2 example_tree H).
Defined.

Lemma buildNode_labelled_witness :
  let built :=
    buildNode all_live (page_root example_page) 0 12 true fresh_refs in
  built = (Some example_tree, built.2) /\
  Forall labelled (nodes example_tree).
Proof.
  intros built.
  assert (H : built = (Some example_tree, built.2)) by reflexivity.
  split; [exact H|].
  exact (buildNode_labelled all_live 12 true (page_root example_page) 0
           fresh_refs built.2 example_tree H).
Defined.

(** X21. [filter] and [maxChars] decide the text of a snapshot and nothing
    else: the url, the title, the count of interactive elements (which is
    taken over the whole tree, also when the text is cut), the timestamp and
    the ref table are the same for every choice of them. *)
Theorem takeSnapshot_text_options (heap : Heap) (page : Page) (st : RefState)
    (maxDepth : option Z) (viewportOnly : option bool)
    (filter filter' : option Filter) (maxChars maxChars' : option Z) :
  let snap := takeSnapshot heap
                {| opt_filter := filter; opt_maxDepth := maxDepth;
                   opt_maxChars := maxChars;
                   opt_viewportOnly := viewportOnly |} page st in
  let snap' := takeSnapshot heap
                 {| opt_filter := filter'; opt_maxDepth := maxDepth;
                    opt_maxChars := maxChars';
                    opt_viewportOnly := viewportOnly |} page st in
  url snap.1 = url snap'.1 /\
  title snap.1 = title snap'.1 /\
  interactiveCount snap.1 = interactiveCount snap'.1 /\
  timestamp snap.1 = timestamp snap'.1 /\
  snap.2 = snap'.2.
Proof.
  cbv zeta. unfold takeSnapshot.
  cbn [opt_filter opt_maxDepth opt_maxChars opt_viewportOnly].
  destruct (buildNode _ _ _ _ _ _) as [[tree|] st1]; cbn; auto.
Qed.

End BuildFacts.

(** ** The refs of a snapshot *)

Module BoundFacts.
Import Parser RefFacts SnapshotFacts BuildFacts.

Lemma extends_refl (st : RefState) : extends st st.
Proof. intros r el H. exact H. Qed.

Lemma extends_trans (st1 st2 st3 : RefState) :
  extends st1 st2 -> extends st2 st3 -> extends st1 st3.
Proof. intros H12 H23 r el H. apply H23, H12, H. Qed.

Lemma bound_in_later (st st' : RefState) (ids ids' : list Element)
    (node : PageNode) :
  extends st st' -> ids ⊆ ids' ->
  bound_in st ids node -> bound_in st' ids' node.
Proof.
  intros He Hi [H|(id & Hid & Hb)]; [now left | right].
  exists id. split; [now apply Hi | now apply He].
Qed.

(** A call binds the ref it returns to the element it was made on, and
    keeps the entries of a numbered table. *)
Lemma getOrCreateRef_bound (heap : Heap) (el : Element) (st : RefState) :
  numbered st ->
  numbered (getOrCreateRef heap el st).2 /\
  extends st (getOrCreateRef heap el st).2 /\
  elementsByRef (getOrCreateRef heap el st).2
    !! (getOrCreateRef heap el st).1 = Some el.
Proof.
  intros Hn.
  assert (Hnew : numbered (create_ref el st).2 /\
                 extends st (create_ref el st).2 /\
                 elementsByRef (create_ref el st).2 !! (create_ref el st).1
                 = Some el).
  { split; [now apply create_ref_numbered|].
    split; [intros r e; now apply create_ref_mono | apply create_ref_lookup]. }
  unfold getOrCreateRef.
  destruct (refsByElement st !! el) as [existing|]; [|exact Hnew].
  destruct (Js.truthy existing); [|exact Hnew].
  destruct (elementsByRef st !! existing) as [target|] eqn:E;
    cbn [mbind option_bind]; [|exact Hnew].
  unfold deref. destruct (heap target); [|exact Hnew].
  destruct (decide (target = el)) as [->|]; [|exact Hnew].
  cbn [fst snd]. split; [exact Hn|]. split; [apply extends_refl | exact E].
Qed.

Section Bound.
Variable heap : Heap.
Variable maxDepth : Z.
Variable viewportOnly : bool.

Lemma for_children_bound (cs : list DomElement)
    (build : DomElement -> RefState -> option PageNode * RefState) :
  Forall (fun c => forall st,
            numbered st ->
            numbered (build c st).2 /\ extends st (build c st).2 /\
            match (build c st).1 with
            | Some tree =>
                Forall (bound_in (build c st).2 (dom_ids c)) (nodes tree)
            | None => True
            end) cs ->
  forall st,
    numbered st ->
    numbered (for_children build cs st).2 /\
    extends st (for_children build cs st).2 /\
    Forall (fun child =>
              Forall (bound_in (for_children build cs st).2
                               (flat_map dom_ids cs)) (nodes child))
           (for_children build cs st).1.
Proof.
  induction 1 as [|c cs Hc _ IH]; intros st Hn; cbn [for_children flat_map].
  - split; [exact Hn|]. split; [apply extends_refl | constructor].
  - destruct (Hc st Hn) as (Hn1 & He1 & Hb1).
    destruct (build c st) as [childNode st1]. cbn [fst snd] in *.
    destruct (IH st1 Hn1) as (Hn2 & He2 & Hb2).
    destruct (for_children build cs st1) as [rest st2]. cbn [fst snd] in *.
    split; [exact Hn2|]. split; [now apply extends_trans with st1|].
    assert (Hrest : Forall (fun child =>
                      Forall (bound_in st2 (dom_ids c ++ flat_map dom_ids cs))
                             (nodes child)) rest).
    { eapply Forall_impl; [exact Hb2|]. intros child Hchild.
      eapply Forall_impl; [exact Hchild|]. intros n.
      apply bound_in_later; [apply extends_refl|].
      intros x Hx. apply elem_of_app. now right. }
    destruct childNode as [n|]; [|exact Hrest].
    constructor; [|exact Hrest].
    eapply Forall_impl; [exact Hb1|]. intros n'.
    apply bound_in_later; [exact He2|].
    intros x Hx. apply elem_of_app. now left.
Qed.

Lemma buildNode_bound (el : DomElement) :
  forall depth st,
    numbered st ->
    numbered (buildNode heap el depth maxDepth viewportOnly st).2 /\
    extends st (buildNode heap el depth maxDepth viewportOnly st).2 /\
    match (buildNode heap el depth maxDepth viewportOnly st).1 with
    | Some tree =>
        Forall (bound_in (buildNode heap el depth maxDepth viewportOnly st).2
                         (dom_ids el)) (nodes tree)
    | None => True
    end.
Proof.
  induction el as [el IHc IHf] using dom_ind. intros depth st Hn.
  destruct el as [id tg vis inview rl inter nm prps text cs ttl fname src doc].
  cbn [buildNode el_tag el_visible el_in_viewport el_role el_interactive
       el_name el_props el_shallow_text el_children el_title el_frame_name
       el_src el_content_document el_id dom_ids] in *.
  assert (Hsame : numbered st /\ extends st st /\ True)
    by (split; [exact Hn | split; [apply extends_refl | exact I]]).
  destruct (has tg SKIP_TAGS); [exact Hsame|].
  destruct (negb vis); [exact Hsame|].
  destruct (maxDepth <? depth); [exact Hsame|].
  destruct (viewportOnly && negb inview); [exact Hsame|].
  destruct (String.eqb tg "iframe").
  - destruct doc as [| |body]; cbn [frame_body_all] in IHf.
    + destruct (getOrCreateRef_bound heap id st Hn) as (Hn1 & He1 & Hb1).
      destruct (getOrCreateRef heap id st) as [rf st1]. cbn [fst snd] in *.
      split; [exact Hn1|]. split; [exact He1|].
      cbn [nodes children flat_map]. constructor; [|constructor].
      right. exists id. split; [apply list_elem_of_here | exact Hb1].
    + exact Hsame.
    + destruct (IHf (depth + 1) st Hn) as (Hn1 & He1 & Hb1).
      destruct (buildNode heap body (depth + 1) maxDepth viewportOnly st)
        as [[iframeNode|] st1]; cbn [fst snd] in *;
        [|split; [exact Hn1 | split; [exact He1 | exact I]]].
      destruct (getOrCreateRef_bound heap id st1 Hn1) as (Hn2 & He2 & Hb2).
      destruct (getOrCreateRef heap id st1) as [rf st2]. cbn [fst snd] in *.
      split; [exact Hn2|]. split; [now apply extends_trans with st1|].
      cbn [nodes children]. constructor.
      * right. exists id. split; [apply list_elem_of_here | exact Hb2].
      * destruct iframeNode as [r0 rl0 nm0 tg0 p0 i0 d0 cs0].
        cbn [nodes children] in Hb1 |- *. apply Forall_cons in Hb1 as [_ Hb1].
        eapply Forall_impl; [exact Hb1|]. intros n.
        apply bound_in_later; [exact He2|].
        intros x Hx. apply list_elem_of_further, elem_of_app. now right.
  - pose proof (for_children_bound cs
                  (fun child => buildNode heap child (depth + 1) maxDepth
                                  viewportOnly)) as Hcs.
    assert (IHc' : Forall (fun c => forall st,
                numbered st ->
                numbered (buildNode heap c (depth + 1) maxDepth viewportOnly
                            st).2 /\
                extends st (buildNode heap c (depth + 1) maxDepth
                              viewportOnly st).2 /\
                match (buildNode heap c (depth + 1) maxDepth viewportOnly
                         st).1 with
                | Some tree =>
                    Forall (bound_in (buildNode heap c (depth + 1) maxDepth
                                        viewportOnly st).2 (dom_ids c))
                           (nodes tree)
                | None => True
                end) cs).
    { eapply Forall_impl; [exact IHc|]. intros c Hc. apply Hc. }
    destruct (Hcs IHc' st Hn) as (Hn1 & He1 & Hb1). clear Hcs IHc'.
    destruct (for_children _ cs st) as [children st1]. cbn [fst snd] in *.
    assert (Hweak : forall st2, extends st1 st2 ->
              Forall (fun c =>
                        Forall (bound_in st2
                                  (id :: flat_map dom_ids cs
                                   ++ match doc with
                                      | FrameBody body => dom_ids body
                                      | _ => []
                                      end)) (nodes c)) children).
    { intros st2 He2. eapply Forall_impl; [exact Hb1|]. intros c Hc.
      eapply Forall_impl; [exact Hc|]. intros n.
      apply bound_in_later; [exact He2|].
      intros x Hx. apply list_elem_of_further, elem_of_app. now left. }
    destruct (_ && (length children =? 1)%nat).
    + cbn [fst snd]. split; [exact Hn1|]. split; [exact He1|].
      destruct children as [|c children]; [exact I|].
      cbn [head]. specialize (Hweak st1 (extends_refl st1)).
      now apply Forall_cons in Hweak as [Hc _].
    + destruct (_ && (length children =? 0)%nat && _);
        [split; [exact Hn1 | split; [exact He1 | exact I]]|].
      destruct (inter || Js.truthy rl).
      * destruct (getOrCreateRef_bound heap id st1 Hn1) as (Hn2 & He2 & Hb2).
        destruct (getOrCreateRef heap id st1) as [rf st2]. cbn [fst snd] in *.
        split; [exact Hn2|]. split; [now apply extends_trans with st1|].
        cbn [nodes Parser.children]. constructor.
        -- right. exists id. split; [apply list_elem_of_here | exact Hb2].
        -- apply Forall_flat_map_nodes. now apply Hweak.
      * cbn [fst snd]. split; [exact Hn1|]. split; [exact He1|].
        cbn [nodes Parser.children]. constructor; [now left|].
        apply Forall_flat_map_nodes.
        apply Hweak, extends_refl.
Qed.

End Bound.

(** X22. Every ref that a snapshot shows is bound, in the table that the
    snapshot leaves, to an element of the page, and it resolves to that
    element for as long as the element is alive. *)
Theorem snapshot_refs_resolve (heap : Heap) (options : SnapshotOptions)
    (page : Page) (st : RefState) (built : PageNode) (st1 : RefState) :
  buildNode heap (page_root page) 0 (default 12 (opt_maxDepth options))
    (default true (opt_viewportOnly options)) (reset_refs st)
  = (Some built, st1) ->
  (takeSnapshot heap options page st).2 = st1 /\
  Forall (fun node =>
            Js.truthy (ref node) = false \/
            exists id,
              id ∈ dom_ids (page_root page) /\
              elementsByRef st1 !! ref node = Some id /\
              resolveRef heap (ref node) st1
              = if heap id then Some id else None)
         (nodes built).
Proof.
  intros H. split; [unfold takeSnapshot; now rewrite H|].
  destruct (buildNode_bound heap (default 12 (opt_maxDepth options))
              (default true (opt_viewportOnly options)) (page_root page) 0
              (reset_refs st) (numbered_reset st)) as (_ & _ & Hb).
  rewrite H in Hb. cbn [fst snd] in Hb.
  eapply Forall_impl; [exact Hb|].
  intros node [Hno|(id & Hid & Hbound)]; [now left | right].
  exists id. split; [exact Hid|]. split; [exact Hbound|].
  unfold resolveRef. rewrite Hbound. reflexivity.
Qed.

(** The theorem on the example page. *)
Lemma snapshot_refs_resolve_witness :
  let built :=
    buildNode all_live (page_root example_page) 0 12 true
      (reset_refs fresh_refs) in
  built = (Some example_tree, built.2) /\
  Forall (fun node =>
            Js.truthy (ref node) = false \/
            exists id,
              id ∈ dom_ids (page_root example_page) /\
              elementsByRef built.2 !! ref node = Some id /\
              resolveRef all_live (ref node) built.2
              = if all_live id then Some id else None)
         (nodes example_tree).
Proof.
  intros built.
  assert (H : built = (Some example_tree, built.2)) by reflexivity.
  split; [exact H|].
  exact (proj2 (snapshot_refs_resolve all_live no_options example_page
                  fresh_refs example_tree built.2 H)).
Defined.

End BoundFacts.

(** ** The store of recordings *)

Module StorageFacts.
Import Recorder.

Lemma getRecordings_saved (recording : Recording) (st : Store) :
  getRecordings (saveRecording recording st)
  = take MAX_RECORDINGS (recording :: getRecordings st).
Proof.
  unfold saveRecording, getRecordings at 1. cbn [stored default].
  case_match eqn:E; [reflexivity|].
  apply Nat.ltb_ge in E. symmetry. now apply take_ge.
Qed.

(** X23. After any number of saves the store holds the fifty most recent
    recordings, the newest first: what was saved, in reverse order, then
    what was stored before, cut at [MAX_RECORDINGS]. *)
Theorem save_all_recent (saved : list Recording) (recording : Recording)
    (st : Store) :
  getRecordings (save_all (saved ++ [recording]) st)
  = take MAX_RECORDINGS (recording :: rev saved ++ getRecordings st) /\
  (length (getRecordings (save_all (saved ++ [recording]) st))
   <= MAX_RECORDINGS)%nat.
Proof.
  assert (H : getRecordings (save_all (saved ++ [recording]) st)
              = take MAX_RECORDINGS
                  (recording :: rev saved ++ getRecordings st)).
  { revert recording. induction saved as [|r saved IH] using rev_ind;
      intros recording.
    - apply getRecordings_saved.
    - unfold save_all in *. rewrite fold_left_app. cbn [fold_left].
      rewrite getRecordings_saved, IH, rev_app_distr. cbn [rev app].
      unfold MAX_RECORDINGS. cbn [firstn]. f_equal.
      rewrite take_take. f_equal. }
  split; [exact H|]. rewrite H, length_take. lia.
Qed.

Lemma find_filter_id (wanted unwanted : string) (l : list Recording) :
  List.find (fun r => String.eqb (id r) wanted)
    (List.filter (fun r => negb (String.eqb (id r) unwanted)) l)
  = if String.eqb wanted unwanted then None
    else List.find (fun r => String.eqb (id r) wanted) l.
Proof.
  induction l as [|r l IH]; cbn [List.filter find].
  - now destruct (String.eqb wanted unwanted).
  - destruct (String.eqb (id r) unwanted) eqn:Eu; cbn [negb].
    + rewrite IH. destruct (String.eqb wanted unwanted) eqn:Ew;
        [reflexivity|].
      destruct (String.eqb (id r) wanted) eqn:Er; [|reflexivity].
      apply String.eqb_eq in Eu, Er. apply String.eqb_neq in Ew. congruence.
    + cbn [find]. destruct (String.eqb (id r) wanted) eqn:Er.
      * apply String.eqb_eq in Er. subst wanted. now rewrite Eu.
      * exact IH.
Qed.

(** X24. [getRecordingById] finds a recording that was just saved under its
    id, also when an older recording has the same id; after
    [deleteRecording] it finds nothing under the deleted id, and under every
    other id what it found before. *)
Theorem getRecordingById_after (recording : Recording)
    (wanted unwanted : string) (st : Store) :
  getRecordingById (id recording) (saveRecording recording st)
  = Some recording /\
  getRecordingById wanted (deleteRecording unwanted st)
  = if String.eqb wanted unwanted then None
    else getRecordingById wanted st.
Proof.
  split.
  - unfold getRecordingById. rewrite getRecordings_saved.
    unfold MAX_RECORDINGS. cbn [firstn find]. now rewrite String.eqb_refl.
  - unfold getRecordingById, deleteRecording. apply find_filter_id.
Qed.

Lemma stopRecording_inactive (now : Z) (st : Store) :
  activeRecording (stopRecording now st).2 = None.
Proof.
  unfold stopRecording. destruct (activeRecording st) as [rec|] eqn:E.
  - destruct (existsb _ _); reflexivity.
  - exact E.
Qed.

(** X25. Once a recording is stopped nothing is being recorded: steps that
    are reported later are dropped, and a second stop returns nothing and
    saves nothing. *)
Theorem stopRecording_idle (now now' now'' : Z) (st : Store)
    (action : Planner.Action) (url : string) (result : Planner.StepResult) :
  let st' := (stopRecording now st).2 in
  isRecording st' = false /\
  recordStep action url result now' st' = st' /\
  stopRecording now'' st' = (None, st').
Proof.
  cbv zeta. pose proof (stopRecording_inactive now st) as H.
  generalize dependent (stopRecording now st).2. intros st' H.
  unfold isRecording, recordStep, stopRecording. rewrite H. repeat split.
Qed.

End StorageFacts.

(** ** Plan validation *)

Module PlanJsonFacts.
Import PlanJson.

Lemma lookup_set_same (key : string) (v : Json)
    (fields : list (string * Json)) :
  lookup_field key (set_field key v fields) = Some v.
Proof.
  induction fields as [|[k old] fields IH]; cbn [set_field lookup_field].
  - now rewrite String.eqb_refl.
  - destruct (String.eqb k key) eqn:E; cbn [lookup_field]; rewrite E;
      [reflexivity | exact IH].
Qed.

Lemma lookup_set_other (key key' : string) (v : Json)
    (fields : list (string * Json)) :
  key <> key' ->
  lookup_field key' (set_field key v fields) = lookup_field key' fields.
Proof.
  intros Hne.
  induction fields as [|[k old] fields IH]; cbn [set_field lookup_field].
  - apply String.eqb_neq in Hne. now rewrite Hne.
  - destruct (String.eqb k key) eqn:E; cbn [lookup_field].
    + apply String.eqb_eq in E. subst k.
      apply String.eqb_neq in Hne. now rewrite Hne.
    + destruct (String.eqb k key'); [reflexivity | exact IH].
Qed.

Lemma set_field_again (key : string) (v : Json)
    (fields : list (string * Json)) :
  lookup_field key fields = Some v -> set_field key v fields = fields.
Proof.
  induction fields as [|[k old] fields IH]; cbn [set_field lookup_field];
    [discriminate|].
  destruct (String.eqb k key); [now intros [= ->]|].
  intros H. now rewrite IH.
Qed.

Lemma has_validKinds (k : string) :
  Parser.has k validKinds = true -> k ∈ validKinds.
Proof.
  unfold Parser.has. intros H. apply existsb_exists in H as (x & Hin & Hx).
  apply String.eqb_eq in Hx. subst x. now apply list_elem_of_In.
Qed.

(** What the loop body accepts, and what it leaves. *)
Lemma validate_step_inr (step step' : Json) :
  validate_step step = inr step' ->
  exists fields action kind,
    step = JObject fields /\
    lookup_field "action" fields = Some (JObject action) /\
    lookup_field "kind" action = Some (JString kind) /\
    Parser.has kind validKinds = true /\
    step' = match lookup_field "needsVerification" fields with
            | Some (JBool _) => step
            | _ => JObject (set_field "needsVerification"
                              (JBool (actionNeedsVerification kind)) fields)
            end.
Proof.
  unfold validate_step.
  destruct step as [| | | | |fields]; cbn [get];
    try (intros Hbad; discriminate Hbad);
    cbn [get_optional truthy negb]; try (intros Hbad; discriminate Hbad).
  destruct (lookup_field "action" fields) as [action|] eqn:Ea;
    cbn [get_optional truthy negb]; [|intros Hbad; discriminate Hbad].
  destruct action as [| | | | |action]; cbn [get_optional get truthy negb];
    try (intros Hbad; discriminate Hbad).
  destruct (lookup_field "kind" action) as [kind|] eqn:Ek;
    cbn [truthy negb]; [|intros Hbad; discriminate Hbad].
  destruct kind as [|b|q|k|items|obj]; cbn [truthy negb];
    try (intros Hbad; discriminate Hbad).
  - destruct b; intros Hbad; discriminate Hbad.
  - destruct (negb (Qeq_bool q 0)); intros Hbad; discriminate Hbad.
  - destruct (Js.truthy k); cbn [negb]; [|intros Hbad; discriminate Hbad].
    destruct (Parser.has k validKinds) eqn:Hk; cbn [negb];
      [|intros Hbad; discriminate Hbad].
    intros H. exists fields, action, k. repeat split; auto.
    destruct (lookup_field "needsVerification" fields) as [[]|];
      now injection H as <-.
Qed.

Lemma validate_step_checked (step step' : Json) :
  validate_step step = inr step' ->
  checked_step step' /\ validate_step step' = inr step'.
Proof.
  intros H.
  destruct (validate_step_inr step step' H)
    as (fields & action & kind & -> & Ha & Hk & Hv & ->).
  assert (Hfixed : forall flds b,
            lookup_field "action" flds = Some (JObject action) ->
            lookup_field "needsVerification" flds = Some (JBool b) ->
            checked_step (JObject flds)
            /\ validate_step (JObject flds) = inr (JObject flds)).
  { intros flds b Hfa Hfn. split.
    - exists flds, action, kind, b. repeat split; auto.
      now apply has_validKinds.
    - unfold validate_step. cbn [get]. rewrite Hfa.
      cbn [get_optional get]. rewrite Hk. cbn [truthy].
      assert (Ht : Js.truthy kind = true).
      { destruct kind; [discriminate Hv | reflexivity]. }
      rewrite Ht, Hv, Hfn. reflexivity. }
  destruct (lookup_field "needsVerification" fields) as [v|] eqn:En.
  - destruct v; try (apply (Hfixed fields b Ha En));
      (apply (Hfixed _ (actionNeedsVerification kind));
       [rewrite lookup_set_other by discriminate; exact Ha
       | apply lookup_set_same]).
  - apply (Hfixed _ (actionNeedsVerification kind));
      [rewrite lookup_set_other by discriminate; exact Ha
      | apply lookup_set_same].
Qed.

Lemma validate_steps_checked (steps steps' : list Json) :
  validate_steps steps = inr steps' ->
  Forall checked_step steps' /\ validate_steps steps' = inr steps'.
Proof.
  revert steps'. induction steps as [|step steps IH]; intros steps' H.
  - injection H as <-. split; [constructor | reflexivity].
  - cbn [validate_steps] in H.
    destruct (validate_step step) as [e|step1] eqn:E1; [discriminate|].
    destruct (validate_steps steps) as [e|rest1] eqn:E2; [discriminate|].
    injection H as <-.
    destruct (validate_step_checked step step1 E1) as [Hc Hf].
    destruct (IH rest1 eq_refl) as [Hcs Hfs].
    split; [now constructor|].
    cbn [validate_steps]. now rewrite Hf, Hfs.
Qed.

Lemma validate_inr (parsed plan : Json) :
  validate parsed = inr plan ->
  exists fields reasoning steps steps',
    parsed = JObject fields /\
    lookup_field "reasoning" fields = Some (JString reasoning) /\
    Js.truthy reasoning = true /\
    lookup_field "steps" fields = Some (JArray steps) /\
    validate_steps steps = inr steps' /\
    plan = JObject (set_field "steps" (JArray steps') fields).
Proof.
  unfold validate.
  destruct parsed as [| | | | |fields]; cbn [get truthy negb orb];
    try discriminate.
  destruct (lookup_field "reasoning" fields) as [reasoning|] eqn:Er;
    cbn [truthy negb orb]; [|discriminate].
  destruct reasoning as [| | |r| |]; cbn [truthy negb orb];
    try (rewrite orb_true_r; discriminate); try discriminate.
  rewrite orb_false_r.
  destruct (Js.truthy r) eqn:Et; cbn [negb]; [|discriminate].
  destruct (lookup_field "steps" fields) as [steps|] eqn:Es; [|discriminate].
  destruct steps as [| | | |steps|]; try discriminate.
  destruct (validate_steps steps) as [e|steps'] eqn:Ev; [discriminate|].
  intros [= <-]. exists fields, r, steps, steps'. repeat split; auto.
Qed.

Lemma validKinds_has (k : string) :
  k ∈ validKinds -> Parser.has k validKinds = true /\ Js.truthy k = true.
Proof.
  intros Hin. apply list_elem_of_In in Hin. simpl in Hin.
  destruct Hin as [<-|[<-|[<-|[<-|[<-|[<-|[<-|[]]]]]]]]; split; reflexivity.
Qed.

Lemma validate_step_accepts (step : Json) :
  kinded_step step <-> exists step', validate_step step = inr step'.
Proof.
  split.
  - intros (fields & action & kind & -> & Ha & Hk & Hin).
    destruct (validKinds_has kind Hin) as [Hhas Ht].
    unfold validate_step. cbn [get]. rewrite Ha. cbn [get_optional get].
    rewrite Hk. cbn [truthy]. rewrite Ht, Hhas. cbn [negb].
    destruct (lookup_field "needsVerification" fields) as [[]|]; eauto.
  - intros (step' & H).
    destruct (validate_step_inr step step' H)
      as (fields & action & kind & -> & Ha & Hk & Hv & _).
    exists fields, action, kind. repeat split; auto.
    now apply has_validKinds.
Qed.

Lemma validate_steps_accepts (steps : list Json) :
  Forall kinded_step steps <-> exists steps', validate_steps steps = inr steps'.
Proof.
  induction steps as [|step steps IH]; cbn [validate_steps].
  - split; [eauto | constructor].
  - split.
    + intros H. apply Forall_cons in H as [Hstep Hsteps].
      apply validate_step_accepts in Hstep as (step' & ->).
      apply IH in Hsteps as (steps' & ->). eauto.
    + intros (steps' & H).
      destruct (validate_step step) as [e|step1] eqn:E1; [discriminate|].
      destruct (validate_steps steps) as [e|rest1] eqn:E2; [discriminate|].
      constructor.
      * apply validate_step_accepts. eauto.
      * apply IH. eauto.
Qed.

(** X26. Validation accepts exactly the objects that have a non-empty
    [reasoning] string and a [steps] array in which every step is an object
    whose action is an object with one of the seven kinds: nothing else is
    looked at, not the ref of a click, nor the text of a type, nor what else
    the plan holds. The plan that it returns has a boolean
    [needsVerification] in every step. *)
Theorem validate_accepts (parsed : Json) :
  ((exists plan, validate parsed = inr plan) <->
   exists fields reasoning steps,
     parsed = JObject fields /\
     lookup_field "reasoning" fields = Some (JString reasoning) /\
     Js.truthy reasoning = true /\
     lookup_field "steps" fields = Some (JArray steps) /\
     Forall kinded_step steps) /\
  forall plan,
    validate parsed = inr plan ->
    exists fields reasoning steps,
      plan = JObject fields /\
      lookup_field "reasoning" fields = Some (JString reasoning) /\
      Js.truthy reasoning = true /\
      lookup_field "steps" fields = Some (JArray steps) /\
      Forall checked_step steps.
Proof.
  split; [split|].
  - intros (plan & H).
    destruct (validate_inr parsed plan H)
      as (fields & reasoning & steps & steps' & -> & Hr & Ht & Hs & Hv & _).
    exists fields, reasoning, steps. repeat split; auto.
    apply validate_steps_accepts. eauto.
  - intros (fields & reasoning & steps & -> & Hr & Ht & Hs & Hk).
    apply validate_steps_accepts in Hk as (steps' & Hv).
    unfold validate. cbn [get]. rewrite Hr. cbn [truthy]. rewrite Ht.
    cbn [negb orb]. rewrite Hs, Hv. eauto.
  - intros plan H.
    destruct (validate_inr parsed plan H)
      as (fields & reasoning & steps & steps' & -> & Hr & Ht & Hs & Hv & ->).
    exists (set_field "steps" (JArray steps') fields), reasoning, steps'.
    split; [reflexivity|].
    split; [rewrite lookup_set_other by discriminate; exact Hr|].
    split; [exact Ht|]. split; [apply lookup_set_same|].
    now apply validate_steps_checked in Hv as [Hc _].
Qed.

(** X27. Validation completes a plan once: an accepted plan is accepted
    again, unchanged. *)
Theorem validate_idempotent (parsed plan : Json) :
  validate parsed = inr plan -> validate plan = inr plan.
Proof.
  intros H.
  destruct (validate_inr parsed plan H)
    as (fields & reasoning & steps & steps' & -> & Hr & Ht & Hs & Hv & ->).
  apply validate_steps_checked in Hv as [_ Hfixed].
  unfold validate. cbn [get].
  rewrite lookup_set_other by discriminate. rewrite Hr. cbn [truthy].
  rewrite Ht. cbn [negb orb]. rewrite lookup_set_same, Hfixed.
  f_equal. f_equal. apply set_field_again. apply lookup_set_same.
Qed.

(** The two theorems on a plan with one click that has neither a ref nor
    a flag: it is accepted, with the flag set; and a type action without
    ref and text, in a plan with a property of its own, is accepted as
    well. *)
Lemma validate_accepts_witness :
  validate example_plan = inr example_plan_checked /\
  (exists fields reasoning steps,
     example_plan_checked = JObject fields /\
     lookup_field "reasoning" fields = Some (JString reasoning) /\
     Js.truthy reasoning = true /\
     lookup_field "steps" fields = Some (JArray steps) /\
     Forall checked_step steps) /\
  exists plan, validate example_plan_untyped = inr plan.
Proof.
  assert (H : validate example_plan = inr example_plan_checked)
    by reflexivity.
  split; [exact H|]. split.
  - exact (proj2 (validate_accepts example_plan) example_plan_checked H).
  - apply (proj1 (validate_accepts example_plan_untyped)).
    eexists _, _, _. split; [reflexivity|].
    split; [reflexivity|]. split; [reflexivity|]. split; [reflexivity|].
    constructor; [|constructor].
    eexists _, _, _. split; [reflexivity|].
    split; [reflexivity|]. split; [reflexivity|].
    apply list_elem_of_In. simpl. auto.
Defined.

Lemma validate_idempotent_witness :
  validate example_plan = inr example_plan_checked /\
  validate example_plan_checked = inr example_plan_checked.
Proof.
  assert (H : validate example_plan = inr example_plan_checked)
    by reflexivity.
  split; [exact H|].
  exact (validate_idempotent example_plan example_plan_checked H).
Defined.

(** The flag that validation fills in is the one that the planner's
    [actionNeedsVerification] gives for an action of that kind. *)
Lemma actionNeedsVerification_kind (action : Planner.Action) :
  actionNeedsVerification (kind_of action)
  = Planner.actionNeedsVerification action /\
  kind_of action ∈ validKinds.
Proof.
  destruct action; split; try reflexivity;
    apply list_elem_of_In; simpl; auto 10.
Qed.

End PlanJsonFacts.

(** ** Props, messages and the tab manager *)

Module PropsFacts.
Import Props.

Lemma assign_keys (key v : string) (props : list (string * string)) :
  map fst (assign key v props)
  = if bool_decide (key ∈ map fst props) then map fst props
    else map fst props ++ [key].
Proof.
  induction props as [|[k old] props IH]; cbn [assign map fst].
  - rewrite bool_decide_eq_false_2; [reflexivity|]. apply not_elem_of_nil.
  - destruct (String.eqb k key) eqn:E.
    + apply String.eqb_eq in E. subst k.
      rewrite bool_decide_eq_true_2; [reflexivity|]. apply list_elem_of_here.
    + apply String.eqb_neq in E. cbn [map fst]. rewrite IH.
      destruct (bool_decide (key ∈ map fst props)) eqn:D.
      * apply bool_decide_eq_true in D.
        rewrite bool_decide_eq_true_2; [reflexivity|].
        now apply list_elem_of_further.
      * apply bool_decide_eq_false in D.
        rewrite bool_decide_eq_false_2; [reflexivity|].
        intros H. apply elem_of_cons in H as [H|H]; congruence.
Qed.

Lemma assign_proper (key v : string) (props : list (string * string)) :
  Js.truthy v = true -> proper props -> proper (assign key v props).
Proof.
  intros Hv [Hnd Hall]. split.
  - rewrite assign_keys. case_bool_decide as D; [exact Hnd|].
    apply NoDup_app. split; [exact Hnd|]. split.
    + intros x Hx Hk. apply list_elem_of_singleton in Hk. now subst x.
    + apply NoDup_singleton.
  - clear Hnd. induction Hall as [|[k old] props Hk Hprops IH]; cbn [assign].
    + now repeat constructor.
    + destruct (String.eqb k key); constructor; auto.
Qed.

Lemma assign_if_proper (cond : bool) (key v : string)
    (props : list (string * string)) :
  (cond = true -> Js.truthy v = true) ->
  proper props -> proper (assign_if cond key v props).
Proof.
  intros Hv Hp. unfold assign_if. destruct cond; [|exact Hp].
  apply assign_proper; auto.
Qed.

(** X28. The props of an element never hold a key twice, also when
    [disabled] is set both by the control and by [aria-disabled], and never
    hold an empty value. *)
Theorem getProps_proper (el : Element) : proper (getProps el).
Proof.
  unfold getProps. cbv zeta.
  assert (H0 : proper []) by (split; constructor).
  repeat match goal with
  | |- proper (assign_if _ _ _ _) => apply assign_if_proper
  | |- proper (if ?c then _ else _) => destruct c
  | |- proper [] => exact H0
  | |- _ = true -> _ = true =>
      try (intros _; reflexivity); try (intros H; exact H)
  end.
  all: try (intros _; now destruct (checked el)).
  all: intros H; now apply andb_prop in H as [H _].
Qed.

End PropsFacts.

Module MessagingFacts.
Import Planner Messaging.

(** X29. A step result that reports a failure does not come back from
    [sendToTab]: it is thrown as an error. So the result that the
    [executeAction] callback returns to the planner is always a success, and
    a step is recorded only when it succeeded; when anything is thrown the
    store is left as it is. *)
Theorem executeAction_callback_success (action : Action)
    (outcome : string + StepResult) (settle : option string)
    (url : string) (now : Z) (store : Recorder.Store) :
  match executeAction_callback action outcome settle url now store with
  | (inr result, store') =>
      outcome = inr result /\ success result = true /\
      store' = Recorder.recordStep action url result now store
  | (inl thrown, store') => store' = store
  end.
Proof.
  unfold executeAction_callback, executeActionOnTab, sendToTab.
  destruct outcome as [e|[ok snap err]]; cbn; [reflexivity|].
  destruct ok; cbn; [|reflexivity].
  destruct action, settle; cbn; auto.
Qed.

(** A snapshot travels whole from the content script to the service
    worker, and a failure of [takeSnapshot] arrives as a thrown error
    with its text, or with "Content script error" when it has none. *)
Lemma sendToTab_snapshot (outcome : string + PageSnapshot) :
  sendToTab (Some (snapshot_reply outcome))
  = match outcome with
    | inr snapshot => inr (Data snapshot)
    | inl error => inl (Js.or_else error "Content script error")
    end.
Proof. destruct outcome; reflexivity. Qed.

End MessagingFacts.

Module TabManagerFacts.
Import TabManager.

(** X30. [ensureContentScript] pings at most three times, injects at most
    once and only after an unanswered first ping, and spends at most 1.2 s
    in its own timers. Every ping that ends by the timeout adds the second
    of its timer, so the timers that are waited for to their end add up to
    at most 4.2 s, which is what they add up to when no ping is answered in
    time. It returns without an error exactly when its last ping was
    answered, and it never pings again after an answered ping. *)
Theorem ensureContentScript_bounded (pings : nat -> PingOutcome)
    (inject : option string) :
  let t := (ensureContentScript pings inject).1 in
  let thrown := (ensureContentScript pings inject).2 in
  let answered (k : nat) := (pingTab (pings k)).2 in
  (1 <= pings_of t <= 3)%nat /\
  injections_of t = (if answered 0%nat then 0 else 1)%nat /\
  0 <= slept t <= 1200 /\
  waited t
  = slept t + PING_TIMEOUT_MS * Z.of_nat (timeouts pings (pings_of t)) /\
  0 <= waited t <= 4200 /\
  Forall (fun k => answered k = false) (seq 0 (pings_of t - 1)) /\
  match thrown with
  | None => answered (pings_of t - 1)%nat = true
  | Some _ => inject <> None \/ answered (pings_of t - 1)%nat = false
  end.
Proof.
  cbv zeta. unfold ensureContentScript, timeouts, PING_TIMEOUT_MS.
  cbv zeta.
  assert (Hping : forall k,
            pingTab (pings k)
            = (if is_timeout (pings k) then [Ping; TimedOut 1000]
               else [Ping],
               (pingTab (pings k)).2) /\
            (is_timeout (pings k) = true -> (pingTab (pings k)).2 = false)).
  { intros k. destruct (pings k); split; auto; discriminate. }
  destruct (Hping 0%nat) as [-> T0], (Hping 1%nat) as [-> T1],
    (Hping 2%nat) as [-> T2].
  cbn [fst snd]. clear Hping.
  destruct (is_timeout (pings 0%nat)) eqn:E0;
    destruct (is_timeout (pings 1%nat)) eqn:E1;
    destruct (is_timeout (pings 2%nat)) eqn:E2;
    destruct (pingTab (pings 0%nat)).2 eqn:A0;
    destruct (pingTab (pings 1%nat)).2 eqn:A1;
    destruct (pingTab (pings 2%nat)).2 eqn:A2;
    try (specialize (T0 eq_refl); discriminate);
    try (specialize (T1 eq_refl); discriminate);
    try (specialize (T2 eq_refl); discriminate);
    destruct inject as [error|];
    cbn; rewrite ?E0, ?E1, ?E2, ?A0, ?A1, ?A2; cbn;
    repeat split; try lia; auto; try (left; discriminate).
Qed.

(** No ping is answered in time: four seconds and a fifth in timers. *)
Example ensureContentScript_slowest :
  let run := ensureContentScript (fun _ => PingTimeout) None in
  run.1 = [Ping; TimedOut 1000; Inject; Sleep 200; Ping; TimedOut 1000;
           Sleep 1000; Ping; TimedOut 1000] /\
  waited run.1 = 4200 /\ slept run.1 = 1200.
Proof. repeat split. Qed.

End TabManagerFacts.
